(** * Go-Plan (journey API): trip lifecycle, notifications and the
      activity aggregation, embedded from the Go sources.

    Sources embedded here:
    - [internal/api] handlers (the complete revision of the handler file),
    - [internal/api/spec/journey.gen.spec.go] (request, response types),
    - [internal/mailer/mailpit/mailpit.go].

    The package [internal/pgstore] is not part of the sources at hand; it is
    modelled from the specification (see [Module pgstore] for its types and
    [Module store] for its queries). *)

From stdpp Require Import base numbers option list gmap strings pretty.

Local Open Scope string_scope.
Local Open Scope Z_scope.
Local Open Scope list_scope.

(** ** Libraries outside the repository *)

(** [github.com/google/uuid]: a UUID is an opaque identifier. *)
Abbreviation UUID := N (only parsing).

(** [time.Time] as the civil fields its accessors report.  Every timestamp
    the store hands out is in UTC (a SQL [timestamp]), so [t.Date()] is the
    projection on the first three fields. *)
Module time.

Record Time := mkTime
  { Year : Z; Month : Z; Day : Z;
    Hour : Z; Minute : Z; Second : Z; Nanosecond : Z }.

#[global] Instance Time_eq_dec : EqDecision Time.
Proof. solve_decision. Defined.

(** [t.Date()] *)
Definition Time_Date (t : Time) : Z * Z * Z := (Year t, Month t, Day t).

(** [time.Date(year, month, day, hour, min, sec, nsec, time.UTC)].  Go
    normalises fields that are out of range; the handlers only pass a
    year, month and day obtained from [t.Date()] together with zeros,
    which are in range already. *)
Definition Date (year month day hour min sec nsec : Z) : Time :=
  mkTime year month day hour min sec nsec.

Definition zero : Time := mkTime 1 1 1 0 0 0 0.

End time.

(** [github.com/jackc/pgx/v5/pgtype] *)
Module pgtype.

Record Timestamp := mkTimestamp { Time : time.Time; Valid : bool }.

#[global] Instance Timestamp_eq_dec : EqDecision Timestamp.
Proof. solve_decision. Defined.

End pgtype.

(** Go's [error] values that occur in the program: the sentinel
    [pgx.ErrNoRows], an error produced by a library or by the transport, and
    [fmt.Errorf("...: %w", err)]. *)
Inductive error :=
| ErrNoRows
| ErrLib (msg : string)
| Errorf (msg : string) (wrapped : error).

#[global] Instance error_eq_dec : EqDecision error.
Proof. solve_decision. Defined.

(** [errors.Is(err, pgx.ErrNoRows)] follows the chain of wrapped errors. *)
Fixpoint errors_Is_ErrNoRows (err : error) : bool :=
  match err with
  | ErrNoRows => true
  | ErrLib _ => false
  | Errorf _ wrapped => errors_Is_ErrNoRows wrapped
  end.

(** [err.Error()] *)
Fixpoint Error (err : error) : string :=
  match err with
  | ErrNoRows => "no rows in result set"
  | ErrLib msg => msg
  | Errorf msg wrapped => msg +:+ ": " +:+ Error wrapped
  end.

(** A call that returns [(T, error)]. *)
Inductive result (T : Type) :=
| Ok (v : T)
| Err (err : error).
Arguments Ok {T} v.
Arguments Err {T} err.

(** ** internal/api/spec (generated types) *)
Module spec.

Record CreateActivityRequest := mkCreateActivityRequest
  { car_OccursAt : time.Time; car_Title : string }.

Record CreateTripRequest := mkCreateTripRequest
  { ctr_Destination : string;
    ctr_EmailsToInvite : list string;
    ctr_EndsAt : time.Time;
    ctr_OwnerEmail : string;
    ctr_OwnerName : string;
    ctr_StartsAt : time.Time }.

Record UpdateTripRequest := mkUpdateTripRequest
  { utr_Destination : string;
    utr_EndsAt : time.Time;
    utr_StartsAt : time.Time }.

Record GetTripActivitiesResponseInnerArray := mkInner
  { inner_ID : string; inner_OccursAt : time.Time; inner_Title : string }.

Record GetTripActivitiesResponseOuterArray := mkOuter
  { outer_Activities : list GetTripActivitiesResponseInnerArray;
    outer_Date : time.Time }.

Record GetTripDetailsResponseTripObj := mkTripObj
  { obj_Destination : string;
    obj_EndsAt : time.Time;
    obj_ID : string;
    obj_IsConfirmed : bool;
    obj_StartsAt : time.Time }.

Record GetTripParticipantsResponseArray := mkParticipantObj
  { po_Email : string;
    po_ID : string;
    po_IsConfirmed : bool;
    po_Name : option string }.

(** The [body interface{}] of a [Response]. *)
Inductive Body :=
| Nil
| Error (Message : string)
| CreateTripResponse (TripID : string)
| CreateActivityResponse (ActivityID : string)
| GetTripDetailsResponse (Trip : GetTripDetailsResponseTripObj)
| GetTripsResponse (Trips : list GetTripDetailsResponseTripObj)
| GetTripActivitiesResponse (Activities : list GetTripActivitiesResponseOuterArray)
| GetTripParticipantsResponse (Participants : list GetTripParticipantsResponseArray).

Record Response := mkResponse
  { body : Body; Code : Z; contentType : string }.

(** The constructors [<Operation>JSON<code>Response] all build the same
    value for a given code; one definition per status code stands for
    them. *)
Definition JSON200Response (b : Body) : Response := mkResponse b 200 "application/json".
Definition JSON201Response (b : Body) : Response := mkResponse b 201 "application/json".
Definition JSON204Response (b : Body) : Response := mkResponse b 204 "application/json".
Definition JSON400Response (e : string) : Response :=
  mkResponse (Error e) 400 "application/json".

End spec.

(** ** internal/pgstore: the rows *)
Module pgstore.

(** Modelled from the spec: [pgstore.Trip], whose declaration is absent from
    the sources, with the fields the handlers and the mailer read: "identity,
    destination, starts_at/ends_at, is_confirmed, owner identity (name +
    email)". *)
Record Trip := mkTrip
  { trip_ID : UUID;
    trip_Destination : string;
    trip_OwnerEmail : string;
    trip_OwnerName : string;
    trip_IsConfirmed : bool;
    trip_StartsAt : pgtype.Timestamp;
    trip_EndsAt : pgtype.Timestamp }.

(** Modelled from the spec: [pgstore.Participant], whose declaration is
    absent from the sources: "identity, parent trip reference, email,
    is_confirmed". *)
Record Participant := mkParticipant
  { part_ID : UUID;
    part_TripID : UUID;
    part_Email : string;
    part_IsConfirmed : bool }.

(** Modelled from the spec: [pgstore.Activity], whose declaration is absent
    from the sources: "identity, parent trip reference, title, occurs_at". *)
Record Activity := mkActivity
  { act_ID : UUID;
    act_TripID : UUID;
    act_Title : string;
    act_OccursAt : pgtype.Timestamp }.

(** Modelled from the spec: [pgstore.UpdateTripParams], whose declaration is
    absent from the sources, with the fields the handlers fill in. *)
Record UpdateTripParams := mkUpdateTripParams
  { utp_Destination : string;
    utp_EndsAt : pgtype.Timestamp;
    utp_StartsAt : pgtype.Timestamp;
    utp_IsConfirmed : bool;
    utp_ID : UUID }.

(** Modelled from the spec: [pgstore.CreateActivityParams], whose
    declaration is absent from the sources, with the fields the handler fills
    in. *)
Record CreateActivityParams := mkCreateActivityParams
  { cap_TripID : UUID;
    cap_Title : string;
    cap_OccursAt : pgtype.Timestamp }.

End pgstore.

(** ** The activity aggregation of [GetTripsTripIDActivities] *)
Module aggregation.
Import pgstore.

(** The handler-local [type Activity struct { Time time.Time; Amount *int }].
    Every entry points to an [amount] variable of its own, and the copy
    [date] made by [range] shares that pointer with [differentDates[i]];
    so the pointee is the entry's own counter, kept here in the entry.
    The counters never exceed [len(activities)], an [int]. *)
Record DateAmount := mkDateAmount { da_Time : time.Time; da_Amount : Z }.

(** The comparison written out four times in the handler:
    [y1 == y2 && m1 == m2 && d1 == d2] on the results of [Date()]. *)
Definition sameDate (t1 t2 : time.Time) : bool :=
  let '(y1, m1, d1) := time.Time_Date t1 in
  let '(y2, m2, d2) := time.Time_Date t2 in
  ((y1 =? y2) && (m1 =? m2) && (d1 =? d2))%Z.

(** [time.Date(itemYear, itemMonth, itemDay, 0, 0, 0, 0, time.UTC)] *)
Definition midnight (t : time.Time) : time.Time :=
  let '(itemYear, itemMonth, itemDay) := time.Time_Date t in
  time.Date itemYear itemMonth itemDay 0 0 0 0.

(** [slice[i] = x]; Go panics when [i] is out of range. *)
Definition set_index {A} (l : list A) (i : nat) (x : A) : option (list A) :=
  if decide (i < length l)%nat then Some (<[i:=x]> l) else None.

(** The [else] branch of the first loop:
    [for i, date := range differentDates { if same day { *date.Amount++;
    differentDates[i] = date } }]. *)
Definition bump (activity : Activity) (differentDates : list DateAmount)
  : list DateAmount :=
  foldl (fun dd i =>
           match dd !! i with
           | Some date =>
               if sameDate (da_Time date) (pgtype.Time (act_OccursAt activity))
               then <[i := mkDateAmount (da_Time date) (da_Amount date + 1)]> dd
               else dd
           | None => dd
           end)
        differentDates (seq 0 (length differentDates)).

(** One iteration of the first loop, on [(differentDates, qtd)]. *)
Definition collect (st : list DateAmount * Z) (activity : Activity)
  : list DateAmount * Z :=
  let '(differentDates, qtd) := st in
  if negb (existsb (fun item =>
                      sameDate (da_Time item) (pgtype.Time (act_OccursAt activity)))
                   differentDates)
  then (differentDates ++
          [mkDateAmount (midnight (pgtype.Time (act_OccursAt activity))) 1],
        qtd + 1)
  else (bump activity differentDates, qtd).

(** The first loop: [differentDates] and [qtd] after all activities. *)
Definition differentDates_of (activities : list Activity) : list DateAmount * Z :=
  foldl collect ([], 0) activities.

(** [activity.OccursAt.Time] *)
Definition occurs (a : Activity) : time.Time := pgtype.Time (act_OccursAt a).

(** The day of an activity, as the date of its bucket. *)
Definition day (a : Activity) : time.Time := midnight (occurs a).

(** What the first loop has built after the activities [acts]: as many
    entries as [qtd] says, with positive counters, one entry per day of
    [acts], the days in the order in which [acts] first shows them. *)
Record collected (acts : list Activity) (dd : list DateAmount) (qtd : Z) : Prop :=
  { col_qtd : qtd = Z.of_nat (length dd);
    col_pos : Forall (fun d => 0 < da_Amount d) dd;
    col_nodup : NoDup (da_Time <$> dd);
    col_days : forall d, d ∈ da_Time <$> dd <-> exists a, a ∈ acts /\ d = day a;
    col_order : forall i j di dj,
        (da_Time <$> dd) !! i = Some di -> (da_Time <$> dd) !! j = Some dj ->
        (i < j)%nat ->
        exists p a, acts !! p = Some a /\ day a = di
                    /\ forall q b, acts !! q = Some b -> day b = dj -> (p < q)%nat }.

Section with_uuid.
(** [uuid.UUID.String] *)
Variable uuid_String : UUID -> string.

(** [spec.GetTripActivitiesResponseInnerArray{...}] of an activity. *)
Definition inner_of (activity : Activity) : spec.GetTripActivitiesResponseInnerArray :=
  spec.mkInner (uuid_String (act_ID activity))
               (pgtype.Time (act_OccursAt activity))
               (act_Title activity).

(** The inner loop of the second loop: the activities of the day of
    [item], in input order. *)
Definition activitiesInnerResponse (item : DateAmount) (activities : list Activity)
  : list spec.GetTripActivitiesResponseInnerArray :=
  foldl (fun acc activity =>
           if sameDate (da_Time item) (pgtype.Time (act_OccursAt activity))
           then acc ++ [inner_of activity]
           else acc)
        [] activities.

(** The bucket the second loop builds for an entry of
    [differentDates]. *)
Definition bucket (acts : list Activity) (item : DateAmount)
  : spec.GetTripActivitiesResponseOuterArray :=
  spec.mkOuter (activitiesInnerResponse item acts) (da_Time item).

(** The second loop.  [None] is a run-time panic: a negative capacity
    given to [make], or an index out of range in
    [activitiesResponse[i] = ...]. *)
Definition fill (activities : list Activity) (differentDates : list DateAmount)
           (activitiesResponse : list spec.GetTripActivitiesResponseOuterArray)
  : option (list spec.GetTripActivitiesResponseOuterArray) :=
  foldl (fun acc '(i, item) =>
           match acc with
           | None => None
           | Some resp =>
               if (da_Amount item <? 0)%Z then None
               else set_index resp i
                      (spec.mkOuter (activitiesInnerResponse item activities)
                                    (da_Time item))
           end)
        (Some activitiesResponse)
        (zip (seq 0 (length differentDates)) differentDates).

(** Lines 229-279 of the handler, from the fetched [activities] to
    [activitiesResponse]. *)
Definition groupByDate (activities : list Activity)
  : option (list spec.GetTripActivitiesResponseOuterArray) :=
  let '(differentDates, qtd) := differentDates_of activities in
  if (qtd <? 0)%Z then None
  else fill activities differentDates
         (replicate (Z.to_nat qtd) (spec.mkOuter [] time.zero)).

End with_uuid.

End aggregation.

(** ** Library functions the handlers call

    uuid, encoding/json, validator, time formatting and go-mail's address
    and client set-up are deterministic library code outside the
    repository; the properties below hold for any behaviour of them. *)
Record Libs := mkLibs
  { uuid_Parse : string -> option UUID;
    uuid_String : UUID -> string;
    json_Decode_CreateTripRequest : string -> result spec.CreateTripRequest;
    json_Decode_UpdateTripRequest : string -> result spec.UpdateTripRequest;
    json_Decode_CreateActivityRequest : string -> result spec.CreateActivityRequest;
    validator_Struct_CreateTripRequest : spec.CreateTripRequest -> option error;
    validator_Struct_UpdateTripRequest : spec.UpdateTripRequest -> option error;
    validator_Struct_CreateActivityRequest : spec.CreateActivityRequest -> option error;
    time_Format_DateOnly : time.Time -> string;
    (** [msg.From(addr)], [msg.To(addr)]: [nil] or the parse error *)
    mail_Msg_From : string -> option error;
    mail_Msg_To : string -> option error;
    (** [mail.NewClient("mailpit", WithTLSPortPolicy(NoTLS), WithPort(1025))] *)
    mail_NewClient : option error }.

(** go-mail's [Msg], as far as the mailer fills it in. *)
Record Msg := mkMsg
  { msg_From : string; msg_To : string; msg_Subject : string; msg_Body : string }.

#[global] Instance Msg_eq_dec : EqDecision Msg.
Proof. solve_decision. Defined.

(** ** internal/pgstore: the queries behind the [store] interface *)
Module store.
Import pgstore.

(** The nine queries of the [store] interface. *)
Inductive Query :=
| QCreateTrip | QGetTrip | QGetAllTrips | QUpdateTrip
| QGetParticipant | QGetParticipants | QConfirmParticipant
| QGetTripActivities | QCreateActivity.

(** Modelled from the spec: the tables behind [pgstore], which is not part
    of the sources at hand: "a transactional key-value-by-ID store" for
    Trip, Participant and Activity entities. *)
Record DB := mkDB
  { trips : gmap UUID Trip;
    participants : gmap UUID Participant;
    activities : gmap UUID Activity }.

(** Modelled from the spec: the connection pool behind [pgstore]: the
    tables, and which queries currently fail with "a generic StorageError
    for transport/connection failures". *)
Record Pool := mkPool { tables : DB; unreachable : Query -> bool }.

(** Modelled from the spec: the "generic StorageError for
    transport/connection failures". *)
Definition ErrConn : error := ErrLib "failed to connect".

(** Modelled from the spec: the error of a row that refers to no trip. *)
Definition ErrForeignKey : error := ErrLib "violates foreign key constraint".

(** Modelled from the spec: the error of a confirmation that is rejected
    because the participant is confirmed already. *)
Definition ErrAlreadyConfirmed : error := ErrLib "already confirmed".

(** Modelled from the spec: the rows of the participants of a new trip,
    written one after the other. *)
Definition insert_participants (rows : list Participant)
           (m : gmap UUID Participant) : gmap UUID Participant :=
  foldr (fun row m => <[part_ID row := row]> m) m rows.

(** Modelled from the spec: [CreateTrip], absent from the sources
    ([CreateTripAtomic]): "allocates a new Trip id, persists Trip in Draft,
    persists one Participant per invited email (is_confirmed=false) plus an
    implicit owner participant", whose is_confirmed is "true immediately";
    "all persisted atomically (all rows visible or none)". *)
Definition CreateTrip (params : spec.CreateTripRequest) (p : Pool)
  : result UUID * Pool :=
  if unreachable p QCreateTrip then (Err ErrConn, p)
  else
    let db := tables p in
    let tripID := fresh (dom (trips db)) in
    let trip :=
      mkTrip tripID (spec.ctr_Destination params) (spec.ctr_OwnerEmail params)
             (spec.ctr_OwnerName params) false
             (pgtype.mkTimestamp (spec.ctr_StartsAt params) true)
             (pgtype.mkTimestamp (spec.ctr_EndsAt params) true) in
    let invited :=
      (spec.ctr_OwnerEmail params, true)
        :: ((fun email => (email, false)) <$> spec.ctr_EmailsToInvite params) in
    let ids := fresh_list (length invited) (dom (participants db)) in
    let rows :=
      zip_with (fun id '(email, confirmed) => mkParticipant id tripID email confirmed)
               ids invited in
    (Ok tripID,
     mkPool (mkDB (<[tripID := trip]> (trips db))
                  (insert_participants rows (participants db))
                  (activities db))
            (unreachable p)).

(** Modelled from the spec: [GetTrip], absent from the sources
    ([GetTripByID]): "All id lookups fail with a distinguishable NotFound
    signal versus a generic StorageError". *)
Definition GetTrip (id : UUID) (p : Pool) : result Trip * Pool :=
  if unreachable p QGetTrip then (Err ErrConn, p)
  else match trips (tables p) !! id with
       | Some trip => (Ok trip, p)
       | None => (Err ErrNoRows, p)
       end.

(** Modelled from the spec: [GetAllTrips], absent from the sources. *)
Definition GetAllTrips (p : Pool) : result (list Trip) * Pool :=
  if unreachable p QGetAllTrips then (Err ErrConn, p)
  else (Ok ((map_to_list (trips (tables p))).*2), p).

(** Modelled from the spec: the "mutable Trip fields" of [trip] replaced by
    those of [arg]; the id and the owner stay. *)
Definition replace_fields (arg : UpdateTripParams) (trip : Trip) : Trip :=
  mkTrip (trip_ID trip) (utp_Destination arg) (trip_OwnerEmail trip)
         (trip_OwnerName trip) (utp_IsConfirmed arg)
         (utp_StartsAt arg) (utp_EndsAt arg).

(** Modelled from the spec: [UpdateTrip], absent from the sources
    ([ReplaceTripFields]): it replaces the destination, the two
    timestamps and is_confirmed of the trip with the given id. *)
Definition UpdateTrip (arg : UpdateTripParams) (p : Pool) : result unit * Pool :=
  if unreachable p QUpdateTrip then (Err ErrConn, p)
  else
    let db := tables p in
    match trips db !! utp_ID arg with
    | None => (Err ErrNoRows, p)
    | Some trip =>
        (Ok tt,
         mkPool (mkDB (<[utp_ID arg := replace_fields arg trip]> (trips db))
                      (participants db) (activities db))
                (unreachable p))
    end.

(** Modelled from the spec: [GetParticipant], absent from the sources
    ([GetParticipantByID]). *)
Definition GetParticipant (participantID : UUID) (p : Pool)
  : result Participant * Pool :=
  if unreachable p QGetParticipant then (Err ErrConn, p)
  else match participants (tables p) !! participantID with
       | Some participant => (Ok participant, p)
       | None => (Err ErrNoRows, p)
       end.

(** Modelled from the spec: [GetParticipants], absent from the sources
    ([ListParticipantsByTrip]). *)
Definition GetParticipants (tripID : UUID) (p : Pool)
  : result (list Participant) * Pool :=
  if unreachable p QGetParticipants then (Err ErrConn, p)
  else (Ok (filter (fun row => part_TripID row = tripID)
                   ((map_to_list (participants (tables p))).*2)), p).

(** Modelled from the spec: the participant [row] once confirmed. *)
Definition confirmed (row : Participant) : Participant :=
  mkParticipant (part_ID row) (part_TripID row) (part_Email row) true.

(** Modelled from the spec: [ConfirmParticipant], absent from the sources
    ([SetParticipantConfirmed]): "a compare-and-set style check-then-write
    (read current state, reject if already confirmed, write
    atomically)". *)
Definition ConfirmParticipant (participantID : UUID) (p : Pool)
  : result unit * Pool :=
  if unreachable p QConfirmParticipant then (Err ErrConn, p)
  else
    let db := tables p in
    match participants db !! participantID with
    | None => (Err ErrNoRows, p)
    | Some row =>
        if part_IsConfirmed row then (Err ErrAlreadyConfirmed, p)
        else
          (Ok tt,
           mkPool (mkDB (trips db)
                        (<[participantID := confirmed row]> (participants db))
                        (activities db))
                  (unreachable p))
    end.

(** Modelled from the spec: [GetTripActivities], absent from the sources
    ([ListActivitiesByTrip]). *)
Definition GetTripActivities (tripID : UUID) (p : Pool)
  : result (list Activity) * Pool :=
  if unreachable p QGetTripActivities then (Err ErrConn, p)
  else (Ok (filter (fun row => act_TripID row = tripID)
                   ((map_to_list (activities (tables p))).*2)), p).

(** Modelled from the spec: [CreateActivity], absent from the sources:
    "Activities reference an existing Trip id". *)
Definition CreateActivity (arg : CreateActivityParams) (p : Pool)
  : result UUID * Pool :=
  if unreachable p QCreateActivity then (Err ErrConn, p)
  else
    let db := tables p in
    match trips db !! cap_TripID arg with
    | None => (Err ErrForeignKey, p)
    | Some _ =>
        let id := fresh (dom (activities db)) in
        (Ok id,
         mkPool (mkDB (trips db) (participants db)
                      (<[id := mkActivity id (cap_TripID arg) (cap_Title arg)
                                          (cap_OccursAt arg)]> (activities db)))
                (unreachable p))
    end.

End store.

(** ** Effects of the handlers *)

(** A [zap] log entry: message, error and the other fields. *)
Record LogEntry := mkLogEntry
  { log_msg : string; log_err : error; log_fields : list (string * string) }.

(** Everything outside the process: the database behind the pool, the
    Mailpit server (which messages it refuses, and every [DialAndSend] it
    has seen with its outcome), and the log sink. *)
Record World := mkWorld
  { pool : store.Pool;
    smtp_refuses : Msg -> option error;
    smtp_seen : list (Msg * bool);
    zap_log : list LogEntry }.

(** The calls that leave the handler: one per method of the [store]
    interface, the logger, and the SMTP client.  Each is one atomic step. *)
Inductive Call : Type -> Type :=
| store_CreateTrip (params : spec.CreateTripRequest) : Call (result UUID)
| store_GetTrip (id : UUID) : Call (result pgstore.Trip)
| store_GetAllTrips : Call (result (list pgstore.Trip))
| store_UpdateTrip (arg : pgstore.UpdateTripParams) : Call (result unit)
| store_GetParticipant (participantID : UUID) : Call (result pgstore.Participant)
| store_GetParticipants (tripID : UUID) : Call (result (list pgstore.Participant))
| store_ConfirmParticipant (participantID : UUID) : Call (result unit)
| store_GetTripActivities (tripID : UUID) : Call (result (list pgstore.Activity))
| store_CreateActivity (arg : pgstore.CreateActivityParams) : Call (result UUID)
| logger_Error (msg : string) (err : error) (fields : list (string * string)) : Call unit
| client_DialAndSend (msg : Msg) : Call (option error).

(** The answer of a query and the world with the pool the query has left. *)
Definition with_pool {T} (w : World) (r : T * store.Pool) : T * World :=
  (r.1, mkWorld r.2 (smtp_refuses w) (smtp_seen w) (zap_log w)).

(** What a call returns and the world it leaves: a query goes to the store,
    a log entry is appended to the sink, and [DialAndSend] is answered by
    the mail server, which keeps the message it has seen. *)
Definition perform {X} (c : Call X) (w : World) : X * World :=
  match c in Call X return X * World with
  | store_CreateTrip params => with_pool w (store.CreateTrip params (pool w))
  | store_GetTrip id => with_pool w (store.GetTrip id (pool w))
  | store_GetAllTrips => with_pool w (store.GetAllTrips (pool w))
  | store_UpdateTrip arg => with_pool w (store.UpdateTrip arg (pool w))
  | store_GetParticipant id => with_pool w (store.GetParticipant id (pool w))
  | store_GetParticipants id => with_pool w (store.GetParticipants id (pool w))
  | store_ConfirmParticipant id => with_pool w (store.ConfirmParticipant id (pool w))
  | store_GetTripActivities id => with_pool w (store.GetTripActivities id (pool w))
  | store_CreateActivity arg => with_pool w (store.CreateActivity arg (pool w))
  | logger_Error msg err fields =>
      (tt, mkWorld (pool w) (smtp_refuses w) (smtp_seen w)
                   (zap_log w ++ [mkLogEntry msg err fields]))
  | client_DialAndSend msg =>
      let r := smtp_refuses w msg in
      (r, mkWorld (pool w) (smtp_refuses w)
                  (smtp_seen w ++ [(msg, bool_decide (r = None))]) (zap_log w))
  end.

(** A Go function body: it returns, makes a call and goes on with its
    result, starts a goroutine ([go func() {...}()]) and goes on, or
    panics. *)
Inductive prog (G A : Type) : Type :=
| Return (a : A)
| Do {X : Type} (c : Call X) (k : X -> prog G A)
| Go (g : G) (k : prog G A)
| Panic (msg : string).
Arguments Return {G A} a.
Arguments Do {G A X} c k.
Arguments Go {G A} g k.
Arguments Panic {G A} msg.

(** [p] and then [f] on what [p] returns. *)
Fixpoint bind {G A B} (p : prog G A) (f : A -> prog G B) : prog G B :=
  match p with
  | Return a => f a
  | Do c k => Do c (fun x => bind (k x) f)
  | Go g k => Go g (bind k f)
  | Panic msg => Panic msg
  end.

Notation "'let!' x ':=' p 'in' q" := (bind p (fun x => q))
  (at level 10, x name, p at level 100, q at level 200).
Notation "'do!' p 'in' q" := (bind p (fun _ => q))
  (at level 10, p at level 100, q at level 200).

(** A call on its own. *)
Definition call {G X} (c : Call X) : prog G X := Do c Return.
Arguments call {G X} c /.

(** The body of a goroutine: it starts no goroutine of its own. *)
Definition routine := prog Empty_set unit.

(** A function run from start to end with nothing in between its calls:
    the value returned ([None] after a panic), the world it leaves, and
    the goroutines it has started, in order. *)
Fixpoint run {G A} (p : prog G A) (w : World) : option A * World * list G :=
  match p with
  | Return a => (Some a, w, [])
  | Do c k => let '(x, w') := perform c w in run (k x) w'
  | Go g k => let '(r, w', gs) := run k w in (r, w', g :: gs)
  | Panic _ => (None, w, [])
  end.

(** ** internal/mailer/mailpit *)
Module mailpit.
Import pgstore.

Section with_libs.
Context (L : Libs) {G : Type}.

(** The body of the mail to the owner ([fmt.Sprintf]). *)
Definition owner_text (trip : Trip) : string :=
  "
		Olá, " +:+ trip_OwnerName trip +:+ "!
		
		A sua Viagem para " +:+ trip_Destination trip +:+ " que começa em "
    +:+ time_Format_DateOnly L (pgtype.Time (trip_StartsAt trip))
    +:+ " precisa ser confirmada.
		Clique no botão abaixo para confirmar.
	".

(** The body of the mail to a participant ([fmt.Sprintf]). *)
Definition participant_text (trip : Trip) : string :=
  "
			Olá!
			
			A sua Viagem com " +:+ trip_OwnerName trip +:+ " para "
    +:+ trip_Destination trip +:+ " que começa em "
    +:+ time_Format_DateOnly L (pgtype.Time (trip_StartsAt trip))
    +:+ " precisa de sua confirmação.
			Clique no botão abaixo e confirme sua presença.
		".

Definition SendConfirmTripEmailToTripOwner (tripID : UUID)
  : prog G (option error) :=
  let! got := call (store_GetTrip tripID) in
  match got with
  | Err err =>
      Return (Some (Errorf "mailpit: failed to get trip for SendConfirmTripEmailToTripOwner" err))
  | Ok trip =>
      match mail_Msg_From L "mailpit@journey.com" with
      | Some err =>
          Return (Some (Errorf "mailpit: failed to set From in email for SendConfirmTripEmailToTripOwner" err))
      | None =>
      match mail_Msg_To L (trip_OwnerEmail trip) with
      | Some err =>
          Return (Some (Errorf "mailpit: failed to set To in email for SendConfirmTripEmailToTripOwner" err))
      | None =>
      let msg := mkMsg "mailpit@journey.com" (trip_OwnerEmail trip)
                       "Confirm your trip" (owner_text trip) in
      match mail_NewClient L with
      | Some err =>
          Return (Some (Errorf "mailpit: failed to create email client for SendConfirmTripEmailToTripOwner" err))
      | None =>
          let! sent := call (client_DialAndSend msg) in
          match sent with
          | Some err =>
              Return (Some (Errorf "mailpit: failed to send email for SendConfirmTripEmailToTripOwner" err))
          | None => Return None
          end
      end end end
  end.

(** The message of one iteration of the loop. *)
Definition participant_msg (trip : Trip) (participant : Participant) : Msg :=
  mkMsg "mailpit@journey.com" (part_Email participant)
        "Confirm your trip" (participant_text trip).

(** [for _, participant := range participants { ... }] followed by
    [return nil]; every [return] inside the body leaves the function. *)
Fixpoint send_each (trip : Trip) (participants : list Participant)
  : prog G (option error) :=
  match participants with
  | [] => Return None
  | participant :: rest =>
      match mail_Msg_From L "mailpit@journey.com" with
      | Some err =>
          Return (Some (Errorf "mailpit: failed to set From in email for SendConfirmTripEmailToTripParticipants" err))
      | None =>
      match mail_Msg_To L (part_Email participant) with
      | Some err =>
          Return (Some (Errorf "mailpit: failed to set To in email for SendConfirmTripEmailToTripParticipants" err))
      | None =>
      match mail_NewClient L with
      | Some err =>
          Return (Some (Errorf "mailpit: failed to create email client for SendConfirmTripEmailToTripParticipants" err))
      | None =>
          let! sent := call (client_DialAndSend (participant_msg trip participant)) in
          match sent with
          | Some err =>
              Return (Some (Errorf "mailpit: failed to send email for SendConfirmTripEmailToTripParticipants" err))
          | None => send_each trip rest
          end
      end end end
  end.

Definition SendConfirmTripEmailToTripParticipants (tripID : UUID)
  : prog G (option error) :=
  let! got := call (store_GetTrip tripID) in
  match got with
  | Err err =>
      Return (Some (Errorf "mailpit: failed to get trip for SendConfirmTripEmailToTripParticipants" err))
  | Ok trip =>
      let! listed := call (store_GetParticipants tripID) in
      match listed with
      | Err err =>
          Return (Some (Errorf "mailpit: failed to get participants for SendConfirmTripEmailToTripParticipants" err))
      | Ok participants => send_each trip participants
      end
  end.

End with_libs.

End mailpit.

(** ** internal/api *)
Module api.
Import pgstore.

(** [type mailer interface] *)
Record mailer := mkMailer
  { SendConfirmTripEmailToTripOwner : UUID -> prog Empty_set (option error);
    SendConfirmTripEmailToTripParticipants : UUID -> prog Empty_set (option error) }.

(** [type API struct]: the store, the logger and the validator are
    reached through [Call] and [Libs]. *)
Record API := mkAPI { api_mailer : mailer }.

(** [NewAPI(pool, logger, mailer)] *)
Definition NewAPI (m : mailer) : API := mkAPI m.

(** [mailpit.NewMailpit(pool)] as a [mailer]. *)
Definition NewMailpit (L : Libs) : mailer :=
  mkMailer (mailpit.SendConfirmTripEmailToTripOwner L)
           (mailpit.SendConfirmTripEmailToTripParticipants L).

(** [*http.Request], as far as the handlers read it. *)
Record Request := mkRequest { Body : string }.

Section handlers.
Context (L : Libs) (api : API).

(** The answer to every failure that is not told to the caller. *)
Definition something_went_wrong : spec.Response :=
  spec.JSON400Response "Something went wrong, try again".

(** (PATCH /participants/{participantId}/confirm) *)
Definition PatchParticipantsParticipantIDConfirm (r : Request) (participantID : string)
  : prog routine spec.Response :=
  match uuid_Parse L participantID with
  | None => Return (spec.JSON400Response "Invalid participant ID")
  | Some id =>
      let! got := call (store_GetParticipant id) in
      match got with
      | Err err =>
          if errors_Is_ErrNoRows err
          then Return (spec.JSON400Response "Participant not found")
          else
            do! call (logger_Error "Failed to get participant" err
                                   [("participant_id", participantID)]) in
            Return something_went_wrong
      | Ok particiapant =>
          if part_IsConfirmed particiapant
          then Return (spec.JSON400Response "Participant already confirmed")
          else
            let! done := call (store_ConfirmParticipant id) in
            match done with
            | Err err =>
                do! call (logger_Error "Failed to confirm participant" err
                                       [("participant_id", participantID)]) in
                Return something_went_wrong
            | Ok _ => Return (spec.JSON204Response spec.Nil)
            end
      end
  end.

(** The goroutine started by [PostTrips]. *)
Definition go_PostTrips (tripID : UUID) (body : spec.CreateTripRequest) : routine :=
  let! failed := SendConfirmTripEmailToTripOwner (api_mailer api) tripID in
  match failed with
  | Some err =>
      call (logger_Error "Failed to send email on PostTrips" err
                         [("trip_id", uuid_String L tripID);
                          ("owner_email", spec.ctr_OwnerEmail body)])
  | None => Return tt
  end.

(** (POST /trips) *)
Definition PostTrips (r : Request) : prog routine spec.Response :=
  match json_Decode_CreateTripRequest L (Body r) with
  | Err err => Return (spec.JSON400Response ("Invalid JSON: " +:+ Error err))
  | Ok body =>
      match validator_Struct_CreateTripRequest L body with
      | Some err =>
          Return (spec.JSON400Response ("Invalid request body: " +:+ Error err))
      | None =>
          let! created := call (store_CreateTrip body) in
          match created with
          | Err _ => Return something_went_wrong
          | Ok tripID =>
              Go (go_PostTrips tripID body)
                 (Return (spec.JSON201Response
                            (spec.CreateTripResponse (uuid_String L tripID))))
          end
      end
  end.

(** [spec.GetTripDetailsResponseTripObj{...}] of a trip. *)
Definition trip_obj (trip : Trip) : spec.GetTripDetailsResponseTripObj :=
  spec.mkTripObj (trip_Destination trip) (pgtype.Time (trip_EndsAt trip))
                 (uuid_String L (trip_ID trip)) (trip_IsConfirmed trip)
                 (pgtype.Time (trip_StartsAt trip)).

(** (GET /trips) *)
Definition GetTrips (r : Request) : prog routine spec.Response :=
  let! got := call store_GetAllTrips in
  match got with
  | Err err =>
      if errors_Is_ErrNoRows err
      then Return (spec.JSON400Response "No trips found")
      else
        do! call (logger_Error "Failed to get trips" err []) in
        Return something_went_wrong
  | Ok trips =>
      Return (spec.JSON200Response (spec.GetTripsResponse (trip_obj <$> trips)))
  end.

(** (GET /trips/{tripId}) *)
Definition GetTripsTripID (r : Request) (tripID : string)
  : prog routine spec.Response :=
  match uuid_Parse L tripID with
  | None => Return (spec.JSON400Response "Invalid trip ID")
  | Some id =>
      let! got := call (store_GetTrip id) in
      match got with
      | Err err =>
          if errors_Is_ErrNoRows err
          then Return (spec.JSON400Response "Trip not found")
          else
            do! call (logger_Error "Failed to get trip" err [("trip_id", tripID)]) in
            Return something_went_wrong
      | Ok trip =>
          Return (spec.JSON200Response (spec.GetTripDetailsResponse (trip_obj trip)))
      end
  end.

(** (PUT /trips/{tripId}) *)
Definition PutTripsTripID (r : Request) (tripID : string)
  : prog routine spec.Response :=
  match uuid_Parse L tripID with
  | None => Return (spec.JSON400Response "Invalid trip ID")
  | Some id =>
      let! got := call (store_GetTrip id) in
      match got with
      | Err err =>
          if errors_Is_ErrNoRows err
          then Return (spec.JSON400Response "Trip not found")
          else
            do! call (logger_Error "Failed to get trip" err [("trip_id", tripID)]) in
            Return something_went_wrong
      | Ok trip =>
          match json_Decode_UpdateTripRequest L (Body r) with
          | Err err => Return (spec.JSON400Response ("Invalid JSON: " +:+ Error err))
          | Ok body =>
              match validator_Struct_UpdateTripRequest L body with
              | Some err =>
                  Return (spec.JSON400Response ("Invalid request body: " +:+ Error err))
              | None =>
                  let! done :=
                    call (store_UpdateTrip
                            (mkUpdateTripParams
                               (spec.utr_Destination body)
                               (pgtype.mkTimestamp (spec.utr_EndsAt body) true)
                               (pgtype.mkTimestamp (spec.utr_StartsAt body) true)
                               (trip_IsConfirmed trip)
                               id)) in
                  match done with
                  | Err err =>
                      do! call (logger_Error "Failed to update trip" err
                                             [("trip_id", tripID)]) in
                      Return something_went_wrong
                  | Ok _ => Return (spec.JSON204Response spec.Nil)
                  end
              end
          end
      end
  end.

(** (GET /trips/{tripId}/activities) *)
Definition GetTripsTripIDActivities (r : Request) (tripID : string)
  : prog routine spec.Response :=
  match uuid_Parse L tripID with
  | None => Return (spec.JSON400Response "Invalid trip ID")
  | Some id =>
      let! got := call (store_GetTripActivities id) in
      match got with
      | Err err =>
          if errors_Is_ErrNoRows err
          then Return (spec.JSON400Response "Activities not found")
          else
            do! call (logger_Error "Failed to get activities" err
                                   [("trip_id", tripID)]) in
            Return something_went_wrong
      | Ok activities =>
          match aggregation.groupByDate (uuid_String L) activities with
          | None => Panic "runtime error"
          | Some activitiesResponse =>
              Return (spec.JSON200Response
                        (spec.GetTripActivitiesResponse activitiesResponse))
          end
      end
  end.

(** (POST /trips/{tripId}/activities) *)
Definition PostTripsTripIDActivities (r : Request) (tripID : string)
  : prog routine spec.Response :=
  match uuid_Parse L tripID with
  | None => Return (spec.JSON400Response "Invalid trip ID")
  | Some id =>
      match json_Decode_CreateActivityRequest L (Body r) with
      | Err err => Return (spec.JSON400Response ("Invalid JSON: " +:+ Error err))
      | Ok body =>
          match validator_Struct_CreateActivityRequest L body with
          | Some err =>
              Return (spec.JSON400Response ("Invalid request body: " +:+ Error err))
          | None =>
              let! created :=
                call (store_CreateActivity
                        (mkCreateActivityParams
                           id (spec.car_Title body)
                           (pgtype.mkTimestamp (spec.car_OccursAt body) true))) in
              match created with
              | Err err =>
                  do! call (logger_Error "Failed to create activity" err
                                         [("trip_id", tripID)]) in
                  Return something_went_wrong
              | Ok activityID =>
                  Return (spec.JSON201Response
                            (spec.CreateActivityResponse (uuid_String L activityID)))
              end
          end
      end
  end.

(** The goroutine started by [GetTripsTripIDConfirm]. *)
Definition go_GetTripsTripIDConfirm (id : UUID) (tripID : string) : routine :=
  let! failed := SendConfirmTripEmailToTripParticipants (api_mailer api) id in
  match failed with
  | Some err =>
      call (logger_Error "Failed to send email on GetTripsTripIDConfirm" err
                         [("trip_id", tripID)])
  | None => Return tt
  end.

(** (GET /trips/{tripId}/confirm) *)
Definition GetTripsTripIDConfirm (r : Request) (tripID : string)
  : prog routine spec.Response :=
  match uuid_Parse L tripID with
  | None => Return (spec.JSON400Response "Invalid trip ID")
  | Some id =>
      let! got := call (store_GetTrip id) in
      match got with
      | Err err =>
          if errors_Is_ErrNoRows err
          then Return (spec.JSON400Response "Trip not found")
          else
            do! call (logger_Error "Failed to get trip" err [("trip_id", tripID)]) in
            Return something_went_wrong
      | Ok trip =>
          if trip_IsConfirmed trip
          then Return (spec.JSON400Response "Trip already confirmed")
          else
            let! done :=
              call (store_UpdateTrip
                      (mkUpdateTripParams (trip_Destination trip) (trip_EndsAt trip)
                                          (trip_StartsAt trip) true id)) in
            match done with
            | Err err =>
                do! call (logger_Error "Failed to confirm trip" err
                                       [("trip_id", tripID)]) in
                Return something_went_wrong
            | Ok _ =>
                Go (go_GetTripsTripIDConfirm id tripID)
                   (Return (spec.JSON204Response spec.Nil))
            end
      end
  end.

(** (POST /trips/{tripId}/invites) *)
Definition PostTripsTripIDInvites (r : Request) (tripID : string)
  : prog routine spec.Response := Panic "not implemented".

(** (GET /trips/{tripId}/links) *)
Definition GetTripsTripIDLinks (r : Request) (tripID : string)
  : prog routine spec.Response := Panic "not implemented".

(** (POST /trips/{tripId}/links) *)
Definition PostTripsTripIDLinks (r : Request) (tripID : string)
  : prog routine spec.Response := Panic "not implemented".

(** [spec.GetTripParticipantsResponseArray{...}] of a participant. *)
Definition participant_obj (participant : Participant)
  : spec.GetTripParticipantsResponseArray :=
  spec.mkParticipantObj (part_Email participant)
                        (uuid_String L (part_ID participant))
                        (part_IsConfirmed participant) None.

(** (GET /trips/{tripId}/participants) *)
Definition GetTripsTripIDParticipants (r : Request) (tripID : string)
  : prog routine spec.Response :=
  match uuid_Parse L tripID with
  | None => Return (spec.JSON400Response "Invalid trip ID")
  | Some id =>
      let! got := call (store_GetTrip id) in
      match got with
      | Err err =>
          if errors_Is_ErrNoRows err
          then Return (spec.JSON400Response "Trip not found")
          else
            do! call (logger_Error "Failed to get trip" err [("trip_id", tripID)]) in
            Return something_went_wrong
      | Ok trip =>
          let! listed := call (store_GetParticipants (trip_ID trip)) in
          match listed with
          | Err err =>
              do! call (logger_Error "Failed to get participants" err
                                     [("trip_id", tripID)]) in
              Return something_went_wrong
          | Ok participants =>
              Return (spec.JSON200Response
                        (spec.GetTripParticipantsResponse
                           (participant_obj <$> participants)))
          end
      end
  end.

(** The operations of [ServerInterface], with their path parameter. *)
Inductive Operation :=
| OpPatchParticipantsParticipantIDConfirm (participantID : string)
| OpPostTrips
| OpGetTrips
| OpGetTripsTripID (tripID : string)
| OpPutTripsTripID (tripID : string)
| OpGetTripsTripIDActivities (tripID : string)
| OpPostTripsTripIDActivities (tripID : string)
| OpGetTripsTripIDConfirm (tripID : string)
| OpPostTripsTripIDInvites (tripID : string)
| OpGetTripsTripIDLinks (tripID : string)
| OpPostTripsTripIDLinks (tripID : string)
| OpGetTripsTripIDParticipants (tripID : string).

(** The routes of [Handler]. *)
Definition handle (op : Operation) (r : Request) : prog routine spec.Response :=
  match op with
  | OpPatchParticipantsParticipantIDConfirm participantID =>
      PatchParticipantsParticipantIDConfirm r participantID
  | OpPostTrips => PostTrips r
  | OpGetTrips => GetTrips r
  | OpGetTripsTripID tripID => GetTripsTripID r tripID
  | OpPutTripsTripID tripID => PutTripsTripID r tripID
  | OpGetTripsTripIDActivities tripID => GetTripsTripIDActivities r tripID
  | OpPostTripsTripIDActivities tripID => PostTripsTripIDActivities r tripID
  | OpGetTripsTripIDConfirm tripID => GetTripsTripIDConfirm r tripID
  | OpPostTripsTripIDInvites tripID => PostTripsTripIDInvites r tripID
  | OpGetTripsTripIDLinks tripID => GetTripsTripIDLinks r tripID
  | OpPostTripsTripIDLinks tripID => PostTripsTripIDLinks r tripID
  | OpGetTripsTripIDParticipants tripID => GetTripsTripIDParticipants r tripID
  end.

End handlers.

End api.

(** ** Executions *)
Module exec.

(** Sequential execution: the goroutines a handler has started are run
    to their end, one after the other, once the handler has returned. *)
Fixpoint run_routines (gs : list routine) (w : World) : World :=
  match gs with
  | [] => w
  | g :: gs' => run_routines gs' (run g w).1.2
  end.

(** A request served: the handler, then the goroutines it has started. *)
Definition serve {A} (p : prog routine A) (w : World) : option A * World :=
  let '(r, w', gs) := run p w in (r, run_routines gs w').

(** Concurrent execution.  A thread is the rest of a handler (one request
    each, as net/http runs them) or the rest of a goroutine. *)
Inductive thread :=
| Handler (p : prog routine spec.Response)
| Routine (g : routine).

(** One step of a function body: a call (atomic on the world), or the
    start of a goroutine.  A body that has returned or panicked stays. *)
Definition step {G A} (p : prog G A) (w : World) : prog G A * World * list G :=
  match p with
  | Do c k => let '(x, w') := perform c w in (k x, w', [])
  | Go g k => (k, w, [g])
  | Return _ | Panic _ => (p, w, [])
  end.

(** One step of a thread; a goroutine starts no goroutine. *)
Definition thread_step (t : thread) (w : World) : thread * World * list thread :=
  match t with
  | Handler p => let '(p', w', gs) := step p w in (Handler p', w', Routine <$> gs)
  | Routine g => let '(g', w', _) := step g w in (Routine g', w', [])
  end.

(** [interleave schedule threads w]: at every entry [i] of the schedule
    thread [i] takes one step; the goroutines it starts join the end of
    the list of threads. *)
Fixpoint interleave (schedule : list nat) (threads : list thread) (w : World)
  : list thread * World :=
  match schedule with
  | [] => (threads, w)
  | i :: schedule' =>
      match threads !! i with
      | None => interleave schedule' threads w
      | Some t =>
          let '(t', w', started) := thread_step t w in
          interleave schedule' (<[i := t']> threads ++ started) w'
      end
  end.

(** The response of a handler thread that has returned. *)
Definition response (t : option thread) : option spec.Response :=
  match t with
  | Some (Handler (Return resp)) => Some resp
  | _ => None
  end.

(** Calls that write to the tables. *)
Definition writes {X} (c : Call X) : bool :=
  match c with
  | store_CreateTrip _ | store_UpdateTrip _
  | store_ConfirmParticipant _ | store_CreateActivity _ => true
  | _ => false
  end.

(** A function body none of whose calls writes to the tables. *)
Fixpoint reads_only {G A} (p : prog G A) : Prop :=
  match p with
  | Return _ | Panic _ => True
  | Do c k => writes c = false /\ forall x, reads_only (k x)
  | Go _ k => reads_only k
  end.

End exec.

(** ** What the claims speak about *)

(** No trip and no participant that is confirmed in [db] is missing or
    unconfirmed in [db']. *)
Definition confirmations_kept (db db' : store.DB) : Prop :=
  (forall id trip,
      store.trips db !! id = Some trip -> pgstore.trip_IsConfirmed trip = true ->
      exists trip', store.trips db' !! id = Some trip'
                    /\ pgstore.trip_IsConfirmed trip' = true)
  /\ (forall id row,
         store.participants db !! id = Some row ->
         pgstore.part_IsConfirmed row = true ->
         exists row', store.participants db' !! id = Some row'
                      /\ pgstore.part_IsConfirmed row' = true).

(** A history of the service: requests served one after the other by the
    API wired to the Mailpit mailer, and changes of what is reachable or
    refused outside the process. *)
Inductive history (L : Libs) : World -> World -> Prop :=
| history_refl w : history L w w
| history_serve w w' op r :
    history L w w' ->
    history L w (exec.serve (api.handle L (api.NewAPI (api.NewMailpit L)) op r) w').2
| history_outside w w' unreachable' refuses' :
    history L w w' ->
    history L w (mkWorld (store.mkPool (store.tables (pool w')) unreachable')
                         refuses' (smtp_seen w') (zap_log w')).

(** The two halves of [confirmations_kept]. *)
Definition trips_kept (db db' : store.DB) : Prop :=
  forall id trip,
    store.trips db !! id = Some trip -> pgstore.trip_IsConfirmed trip = true ->
    exists trip', store.trips db' !! id = Some trip'
                  /\ pgstore.trip_IsConfirmed trip' = true.

Definition participants_kept (db db' : store.DB) : Prop :=
  forall id row,
    store.participants db !! id = Some row ->
    pgstore.part_IsConfirmed row = true ->
    exists row', store.participants db' !! id = Some row'
                 /\ pgstore.part_IsConfirmed row' = true.

(** The threads of the requests [calls] that the service is handling at
    one time, one handler thread each, as net/http starts them. *)
Definition threads_of (L : Libs) (a : api.API)
           (calls : list (api.Operation * api.Request)) : list exec.thread :=
  (fun call => exec.Handler (api.handle L a call.1 call.2)) <$> calls.

(** C2 as the specification has it, for whatever requests the service is
    handling, each query one step: no step of any thread changes a
    confirmation from true to false. *)
Definition every_step_keeps_confirmations (L : Libs) (a : api.API) : Prop :=
  forall calls schedule i w,
    confirmations_kept
      (store.tables (pool (exec.interleave schedule (threads_of L a calls) w).2))
      (store.tables
         (pool (exec.interleave (schedule ++ [i]) (threads_of L a calls) w).2)).

(** A call that cannot take a confirmation away: every call but an
    [UpdateTrip] that writes is_confirmed = false. *)
Definition keeps_confirmed {X} (c : Call X) : bool :=
  match c with
  | store_UpdateTrip arg => pgstore.utp_IsConfirmed arg
  | _ => true
  end.

(** A function body all of whose calls are such, and whose goroutines
    only read. *)
Fixpoint keeping {A} (p : prog routine A) : Prop :=
  match p with
  | Return _ | Panic _ => True
  | Do c k => keeps_confirmed c = true /\ forall x, keeping (k x)
  | Go g k => exec.reads_only g /\ keeping k
  end.

(** What is left of a [PutTripsTripID]: the whole handler, its
    [UpdateTrip] with what follows, or a body as above. *)
Inductive updating (L : Libs) : prog routine spec.Response -> Prop :=
| updating_read r tripID : updating L (api.PutTripsTripID L r tripID)
| updating_write arg k :
    (forall x, keeping (k x)) -> updating L (Do (store_UpdateTrip arg) k)
| updating_kept p : keeping p -> updating L p.

(** Thread [j] of the requests [calls]: a goroutine that only reads, or
    what is left of a handler, which is not a [PutTripsTripID] unless
    request [j] is one. *)
Definition thread_keeps (L : Libs) (calls : list (api.Operation * api.Request))
           (j : nat) (t : exec.thread) : Prop :=
  match t with
  | exec.Routine g => exec.reads_only g
  | exec.Handler p =>
      keeping p
      \/ (updating L p
          /\ exists tripID r, calls !! j = Some (api.OpPutTripsTripID tripID, r))
  end.

(** The named answers of the claims. *)
Definition trip_not_found := spec.JSON400Response "Trip not found".
Definition trip_already_confirmed := spec.JSON400Response "Trip already confirmed".
Definition participant_not_found := spec.JSON400Response "Participant not found".
Definition participant_already_confirmed :=
  spec.JSON400Response "Participant already confirmed".
Definition no_content := spec.JSON204Response spec.Nil.

(** The queries a handler needs to be answered. *)
Definition reachable (w : World) (qs : list store.Query) : Prop :=
  Forall (fun q => store.unreachable (pool w) q = false) qs.

(** The three tables of a world. *)
Definition trips_of (w : World) : gmap UUID pgstore.Trip := store.trips (store.tables (pool w)).
Definition participants_of (w : World) : gmap UUID pgstore.Participant :=
  store.participants (store.tables (pool w)).
Definition activities_of (w : World) : gmap UUID pgstore.Activity :=
  store.activities (store.tables (pool w)).

(** The world after a call that wrote the tables [db]. *)
Definition with_tables (w : World) (db : store.DB) : World :=
  mkWorld (store.mkPool db (store.unreachable (pool w)))
          (smtp_refuses w) (smtp_seen w) (zap_log w).

(** The world after a log entry. *)
Definition logged (w : World) (msg : string) (err : error)
           (fields : list (string * string)) : World :=
  mkWorld (pool w) (smtp_refuses w) (smtp_seen w)
          (zap_log w ++ [mkLogEntry msg err fields]).

(** The same world with other trips. *)
Definition with_trips (w : World) (trips' : gmap UUID pgstore.Trip) : World :=
  with_tables w (store.mkDB trips' (participants_of w) (activities_of w)).

(** [trip] once confirmed. *)
Definition confirmed_trip (trip : pgstore.Trip) : pgstore.Trip :=
  pgstore.mkTrip (pgstore.trip_ID trip) (pgstore.trip_Destination trip)
                 (pgstore.trip_OwnerEmail trip) (pgstore.trip_OwnerName trip) true
                 (pgstore.trip_StartsAt trip) (pgstore.trip_EndsAt trip).

(** The same world with a mail server that refuses other messages. *)
Definition with_smtp (w : World) (refuses' : Msg -> option error) : World :=
  mkWorld (pool w) refuses' (smtp_seen w) (zap_log w).

(** The world after the mail server has seen [entries]. *)
Definition seen (w : World) (entries : list (Msg * bool)) : World :=
  mkWorld (pool w) (smtp_refuses w) (smtp_seen w ++ entries) (zap_log w).

(** The world after a query that left the pool [p]. *)
Definition with_new_pool (w : World) (p : store.Pool) : World :=
  mkWorld p (smtp_refuses w) (smtp_seen w) (zap_log w).

(** The SMTP client has been asked to send a message to [addr]. *)
Definition dialed (w : World) (addr : string) : bool :=
  existsb (fun entry => String.eqb (msg_To entry.1) addr) (smtp_seen w).

(** C7 as the specification has it: when the message to one participant
    of the trip is refused, every participant after that one is still sent
    to. *)
Definition recipients_after_a_failure_attempted (L : Libs) (w : World) (tripID : UUID)
  : Prop :=
  forall trip before failing after row,
    trips_of w !! tripID = Some trip ->
    (store.GetParticipants tripID (pool w)).1 = Ok (before ++ failing :: after) ->
    smtp_refuses w (mailpit.participant_msg L trip failing) ≠ None ->
    row ∈ after ->
    dialed (run (mailpit.SendConfirmTripEmailToTripParticipants L (G:=Empty_set) tripID) w).1.2
           (pgstore.part_Email row) = true.

(** C9 as the specification has it, for two calls of one confirmation
    handler that have both returned: one has succeeded and the other one
    has been refused with the "already confirmed" answer of the handler. *)
Definition exactly_one_success (already : spec.Response)
           (first second : option spec.Response) : Prop :=
  (first = Some no_content /\ second = Some already)
  \/ (first = Some already /\ second = Some no_content).

(** What a handler leaves: the confirmations it found, and goroutines
    that only read. *)
Definition harmless (w : World) (out : option spec.Response * World * list routine)
  : Prop :=
  confirmations_kept (store.tables (pool w)) (store.tables (pool out.1.2))
  /\ Forall exec.reads_only out.2.

(** *** Two calls of [GetTripsTripIDConfirm] for one trip, step by step *)
Section confirm_steps.
Import pgstore api.
Context (L : Libs) (a : API) (id : UUID) (tripID : string) (trip : Trip).

(** How far a call is: before [GetTrip], between [GetTrip] (which has
    returned [trip], not confirmed) and [UpdateTrip], before the [go]
    statement, returned with 204, returned with "Trip already
    confirmed". *)
Inductive phase := Reading | Writing | Notifying | Succeeded | Refused.

(** What is left of the handler in each phase. *)
Definition at_phase (ph : phase) : prog routine spec.Response :=
  match ph with
  | Reading => GetTripsTripIDConfirm L a (mkRequest "") tripID
  | Writing =>
      let! done :=
        call (store_UpdateTrip
                (mkUpdateTripParams (trip_Destination trip) (trip_EndsAt trip)
                                    (trip_StartsAt trip) true id)) in
      match done with
      | Err err =>
          do! call (logger_Error "Failed to confirm trip" err [("trip_id", tripID)]) in
          Return something_went_wrong
      | Ok _ =>
          Go (go_GetTripsTripIDConfirm a id tripID)
             (Return (spec.JSON204Response spec.Nil))
      end
  | Notifying =>
      Go (go_GetTripsTripIDConfirm a id tripID) (Return (spec.JSON204Response spec.Nil))
  | Succeeded => Return no_content
  | Refused => Return trip_already_confirmed
  end.

(** The call has not reached its [UpdateTrip]. *)
Definition unwritten (ph : phase) : bool :=
  match ph with Reading | Writing => true | _ => false end.

(** The [UpdateTrip] of the call has succeeded. *)
Definition has_written (ph : phase) : bool :=
  match ph with Notifying | Succeeded => true | _ => false end.

(** The phase after one step of the call, with the store answering, when
    the stored trip is confirmed ([c = true]) or as it was at the start;
    and whether the trip is confirmed after the step. *)
Definition confirm_advance (ph : phase) (c : bool) : phase * bool :=
  match ph with
  | Reading => (if c then Refused else Writing, c)
  | Writing => (Notifying, true)
  | Notifying => (Succeeded, c)
  | Succeeded | Refused => (ph, c)
  end.

(** Two calls and the trip fit: until the trip is confirmed no call has
    reached its write, and from then on one has written. *)
Definition confirm_consistent (p0 p1 : phase) (c : bool) : bool :=
  if c then has_written p0 || has_written p1 else unwritten p0 && unwritten p1.

(** A call on its own and the trip fit. *)
Definition confirm_alone (ph : phase) (c : bool) : bool :=
  match ph, c with
  | Reading, false | Writing, false | Notifying, true | Succeeded, true => true
  | _, _ => false
  end.

(** The call has read the trip unconfirmed. *)
Definition read_unconfirmed (ph : phase) : bool :=
  match ph with Writing | Notifying | Succeeded => true | _ => false end.

(** The steps a call in phase [ph] takes at most until it has returned. *)
Definition confirm_steps_left (ph : phase) : nat :=
  match ph with
  | Reading => 3 | Writing => 2 | Notifying => 1 | Succeeded | Refused => 0
  end.

End confirm_steps.

(** *** Two calls of [PatchParticipantsParticipantIDConfirm] for one
    participant, step by step *)
Section patch_steps.
Import pgstore api.
Context (L : Libs) (id : UUID) (participantID : string).

(** How far a call is: before [GetParticipant], between [GetParticipant]
    (which has returned the participant, not confirmed) and
    [ConfirmParticipant], before the log entry of a confirmation that the
    store has rejected, returned with 204, returned with "Participant
    already confirmed", returned with "Something went wrong, try
    again". *)
Inductive patch_phase :=
| PReading | PWriting | PLogging | PSucceeded | PRefused | PFailed.

(** What is left of the handler in each phase. *)
Definition patch_at_phase (ph : patch_phase) : prog routine spec.Response :=
  match ph with
  | PReading => PatchParticipantsParticipantIDConfirm L (mkRequest "") participantID
  | PWriting =>
      let! done := call (store_ConfirmParticipant id) in
      match done with
      | Err err =>
          do! call (logger_Error "Failed to confirm participant" err
                                 [("participant_id", participantID)]) in
          Return something_went_wrong
      | Ok _ => Return (spec.JSON204Response spec.Nil)
      end
  | PLogging =>
      do! call (logger_Error "Failed to confirm participant" store.ErrAlreadyConfirmed
                             [("participant_id", participantID)]) in
      Return something_went_wrong
  | PSucceeded => Return no_content
  | PRefused => Return participant_already_confirmed
  | PFailed => Return something_went_wrong
  end.

(** The phase after one step of the call, with the store answering, when
    the stored participant is confirmed ([c = true]) or as it was at the
    start; and whether the participant is confirmed after the step. *)
Definition patch_advance (ph : patch_phase) (c : bool) : patch_phase * bool :=
  match ph with
  | PReading => (if c then PRefused else PWriting, c)
  | PWriting => if c then (PLogging, c) else (PSucceeded, true)
  | PLogging => (PFailed, c)
  | PSucceeded | PRefused | PFailed => (ph, c)
  end.

Definition patch_succeeded (ph : patch_phase) : bool :=
  match ph with PSucceeded => true | _ => false end.

Definition patch_unwritten (ph : patch_phase) : bool :=
  match ph with PReading | PWriting => true | _ => false end.

(** Two calls and the participant fit: the participant is confirmed
    exactly when one of the calls, and only one, has succeeded, and until
    then no call is past its write. *)
Definition patch_consistent (p0 p1 : patch_phase) (c : bool) : bool :=
  Bool.eqb c (xorb (patch_succeeded p0) (patch_succeeded p1))
  && (c || (patch_unwritten p0 && patch_unwritten p1)).

(** A call on its own and the participant fit. *)
Definition patch_alone (ph : patch_phase) (c : bool) : bool :=
  match ph, c with
  | PReading, false | PWriting, false | PSucceeded, true => true
  | _, _ => false
  end.

(** The call has read the participant unconfirmed. *)
Definition patch_read_unconfirmed (ph : patch_phase) : bool :=
  match ph with PWriting | PLogging | PSucceeded | PFailed => true | _ => false end.

(** The steps a call in phase [ph] takes at most until it has returned. *)
Definition patch_steps_left (ph : patch_phase) : nat :=
  match ph with
  | PReading => 3 | PWriting => 2 | PLogging => 1
  | PSucceeded | PRefused | PFailed => 0
  end.

End patch_steps.

(** *** Two calls under a schedule *)

(** The phases of two calls, and whether the row is confirmed, after the
    steps of a schedule: entry 0 is a step of the first call, entry 1 a
    step of the second, every other entry a step of a goroutine. *)
Fixpoint phases_after {P : Type} (advance : P -> bool -> P * bool)
         (schedule : list nat) (p0 p1 : P) (c : bool) : P * P * bool :=
  match schedule with
  | [] => (p0, p1, c)
  | 0%nat :: rest =>
      phases_after advance rest (advance p0 c).1 p1 (advance p0 c).2
  | 1%nat :: rest =>
      phases_after advance rest p0 (advance p1 c).1 (advance p1 c).2
  | _ :: rest => phases_after advance rest p0 p1 c
  end.

(** The answer of the call on thread [i], once it has returned. *)
Definition answer (out : list exec.thread * World) (i : nat) : option spec.Response :=
  exec.response (out.1 !! i).

(** The steps thread [i] takes in a schedule. *)
Definition steps_of (i : nat) (schedule : list nat) : nat :=
  length (filter (fun j => j = i) schedule).

(** ** Sample data *)
Module sample.
Import pgstore.

Definition rio_request : spec.CreateTripRequest :=
  spec.mkCreateTripRequest "Rio de Janeiro" ["bob@x.com"]
                           (time.mkTime 2024 6 10 0 0 0 0) "ana@x.com" "Ana"
                           (time.mkTime 2024 6 1 0 0 0 0).

Definition rio_update : spec.UpdateTripRequest :=
  spec.mkUpdateTripRequest "Rio de Janeiro" (time.mkTime 2024 6 12 0 0 0 0)
                           (time.mkTime 2024 6 2 0 0 0 0).

Definition beach : spec.CreateActivityRequest :=
  spec.mkCreateActivityRequest (time.mkTime 2024 6 3 9 0 0 0) "Beach".

(** [n] in decimal with at least [width] digits, as [time.Format] pads
    the fields of a date. *)
Definition digits (width : nat) (n : Z) : string :=
  String.concat "" (replicate (width - String.length (pretty n)) "0") +:+ pretty n.

(** Library functions that accept the sample requests.  The bodies "rio"
    and "beach" stand for the documents of the sample requests; an empty
    body ends the decoding with [io.EOF], and every other body is taken
    to end early. *)
Definition libs : Libs :=
  mkLibs
    (fun s => if String.eqb s "id-1" then Some 1%N
              else if String.eqb s "id-2" then Some 2%N
              else if String.eqb s "id-3" then Some 3%N
              else if String.eqb s "id-9" then Some 9%N
              else None)
    (fun id => "id-" +:+ pretty id)
    (fun b => if String.eqb b "rio" then Ok rio_request
              else if String.eqb b "" then Err (ErrLib "EOF")
              else Err (ErrLib "unexpected EOF"))
    (fun b => if String.eqb b "rio" then Ok rio_update
              else if String.eqb b "" then Err (ErrLib "EOF")
              else Err (ErrLib "unexpected EOF"))
    (fun b => if String.eqb b "beach" then Ok beach
              else if String.eqb b "" then Err (ErrLib "EOF")
              else Err (ErrLib "unexpected EOF"))
    (fun _ => None) (fun _ => None) (fun _ => None)
    (fun t => digits 4 (time.Year t) +:+ "-" +:+ digits 2 (time.Month t)
              +:+ "-" +:+ digits 2 (time.Day t))
    (fun _ => None) (fun _ => None) None.

Definition rio : Trip :=
  mkTrip 1 "Rio de Janeiro" "ana@x.com" "Ana" false
         (pgtype.mkTimestamp (time.mkTime 2024 6 1 0 0 0 0) true)
         (pgtype.mkTimestamp (time.mkTime 2024 6 10 0 0 0 0) true).

Definition bob : Participant := mkParticipant 2 1 "bob@x.com" false.
Definition ana : Participant := mkParticipant 3 1 "ana@x.com" true.

(** The trip to Rio, not confirmed, with Bob invited, and a mail server
    that takes every message. *)
Definition world : World :=
  mkWorld (store.mkPool (store.mkDB {[ 1%N := rio ]}
                                    (<[ 2%N := bob ]> {[ 3%N := ana ]})
                                    ∅)
                        (fun _ => false))
          (fun _ => None) [] [].

(** A mailer that fails every time. *)
Definition failing_mailer : api.mailer :=
  api.mkMailer (fun _ => Return (Some (ErrLib "connection refused")))
               (fun _ => Return (Some (ErrLib "connection refused"))).

(** The mail server refuses what is addressed to Bob. *)
Definition refuses_bob (msg : Msg) : option error :=
  if String.eqb (msg_To msg) "bob@x.com" then Some (ErrLib "550 mailbox unavailable")
  else None.

Definition at_ (y m d h mi : Z) : pgtype.Timestamp :=
  pgtype.mkTimestamp (time.mkTime y m d h mi 0 0) true.

(** Three activities dated 2024-01-03, 2024-01-01, 2024-01-03. *)
Definition museum : Activity := mkActivity 11 1 "Museum" (at_ 2024 1 3 10 0).
Definition arrival : Activity := mkActivity 12 1 "Arrival" (at_ 2024 1 1 9 30).
Definition dinner : Activity := mkActivity 13 1 "Dinner" (at_ 2024 1 3 18 15).

End sample.

(** A third participant of the trip to Rio: the store lists Carol, then
    Bob, then Ana. *)
Definition carol : pgstore.Participant := pgstore.mkParticipant 4 1 "carol@x.com" false.

Definition world_with_carol : World :=
  with_tables sample.world
    (store.mkDB (trips_of sample.world)
                (<[ 4%N := carol ]> (participants_of sample.world))
                (activities_of sample.world)).

(** ** internal/api/spec: the middleware of the generated server *)
Module server.
Import api.

(** [InvalidParamFormatError{err, paramName}] *)
Record InvalidParamFormatError := mkInvalidParamFormatError
  { ipf_err : error; ipf_paramName : string }.

(** [InvalidParamFormatError.Error]:
    [fmt.Sprintf("invalid format for parameter %s: %v", err.paramName, err.err)] *)
Definition InvalidParamFormatError_Error (err : InvalidParamFormatError) : string :=
  "invalid format for parameter " +:+ ipf_paramName err +:+ ": " +:+ Error (ipf_err err).

(** What a middleware function does with the [http.ResponseWriter]:
    [render.Render(w, r, resp)], [w.WriteHeader(code)], or
    [http.Error(w, msg, code)]. *)
Inductive Write :=
| render_Render (resp : spec.Response)
| WriteHeader (code : Z)
| http_Error (msg : string) (code : Z).

Section middleware.
Context (L : Libs) (a : API).

(** [runtime.BindStyledParameter("simple", false, name, value, &dest)] on
    a string [dest]: the value bound, or an error. *)
Variable runtime_BindStyledParameter : string -> string -> result string.

(** [siw.ErrorHandlerFunc], by what it writes. *)
Variable ErrorHandlerFunc : InvalidParamFormatError -> list Write.

(** The closure [handler] of every middleware function, after the call
    of the handler: [if resp != nil { if resp.body != nil {
    render.Render(w, r, resp) } else { w.WriteHeader(resp.Code) } }].  The
    handlers of [API] return no nil [*Response]. *)
Definition respond (p : prog routine spec.Response) : prog routine (list Write) :=
  let! resp := p in
  match spec.body resp with
  | spec.Nil => Return [WriteHeader (spec.Code resp)]
  | _ => Return [render_Render resp]
  end.

(** The path parameter [name] bound, or the error handler called and the
    function left. *)
Definition bound (name value : string) (k : string -> prog routine (list Write))
  : prog routine (list Write) :=
  match runtime_BindStyledParameter name value with
  | Err err => Return (ErrorHandlerFunc (mkInvalidParamFormatError err name))
  | Ok dest => k dest
  end.

(** The twelve middleware functions of [ServerInterfaceWrapper], by the
    route matched; an operation carries what [chi.URLParam] gives for its
    path parameter. *)
Definition ServerInterfaceWrapper (op : Operation) (r : Request)
  : prog routine (list Write) :=
  match op with
  | OpPatchParticipantsParticipantIDConfirm value =>
      bound "participantId" value (fun participantID =>
        respond (PatchParticipantsParticipantIDConfirm L r participantID))
  | OpGetTrips => respond (GetTrips L r)
  | OpPostTrips => respond (PostTrips L a r)
  | OpGetTripsTripID value =>
      bound "tripId" value (fun tripID => respond (GetTripsTripID L r tripID))
  | OpPutTripsTripID value =>
      bound "tripId" value (fun tripID => respond (PutTripsTripID L r tripID))
  | OpGetTripsTripIDActivities value =>
      bound "tripId" value (fun tripID => respond (GetTripsTripIDActivities L r tripID))
  | OpPostTripsTripIDActivities value =>
      bound "tripId" value (fun tripID => respond (PostTripsTripIDActivities L r tripID))
  | OpGetTripsTripIDConfirm value =>
      bound "tripId" value (fun tripID => respond (GetTripsTripIDConfirm L a r tripID))
  | OpPostTripsTripIDInvites value =>
      bound "tripId" value (fun tripID => respond (PostTripsTripIDInvites r tripID))
  | OpGetTripsTripIDLinks value =>
      bound "tripId" value (fun tripID => respond (GetTripsTripIDLinks r tripID))
  | OpPostTripsTripIDLinks value =>
      bound "tripId" value (fun tripID => respond (PostTripsTripIDLinks r tripID))
  | OpGetTripsTripIDParticipants value =>
      bound "tripId" value (fun tripID => respond (GetTripsTripIDParticipants L r tripID))
  end.

End middleware.

(** The [ErrorHandlerFunc] that [Handler] sets unless an option replaces
    it: [http.Error(w, err.Error(), http.StatusBadRequest)]. *)
Definition default_ErrorHandlerFunc (err : InvalidParamFormatError) : list Write :=
  [http_Error (InvalidParamFormatError_Error err) 400].

End server.

(** ** What the further properties speak about *)

(** The stored [trip] after [PutTripsTripID] with the decoded [body]. *)
Definition updated_trip (body : spec.UpdateTripRequest) (trip : pgstore.Trip)
  : pgstore.Trip :=
  pgstore.mkTrip (pgstore.trip_ID trip) (spec.utr_Destination body)
                 (pgstore.trip_OwnerEmail trip) (pgstore.trip_OwnerName trip)
                 (pgstore.trip_IsConfirmed trip)
                 (pgtype.mkTimestamp (spec.utr_StartsAt body) true)
                 (pgtype.mkTimestamp (spec.utr_EndsAt body) true).

(** The operations whose handler is written; the other three are
    [panic("not implemented")]. *)
Definition implemented (op : api.Operation) : bool :=
  match op with
  | api.OpPostTripsTripIDInvites _ | api.OpGetTripsTripIDLinks _
  | api.OpPostTripsTripIDLinks _ => false
  | _ => true
  end.

(** The path parameter of an operation. *)
Definition path_id (op : api.Operation) : option string :=
  match op with
  | api.OpPostTrips | api.OpGetTrips => None
  | api.OpPatchParticipantsParticipantIDConfirm s | api.OpGetTripsTripID s
  | api.OpPutTripsTripID s | api.OpGetTripsTripIDActivities s
  | api.OpPostTripsTripIDActivities s | api.OpGetTripsTripIDConfirm s
  | api.OpPostTripsTripIDInvites s | api.OpGetTripsTripIDLinks s
  | api.OpPostTripsTripIDLinks s | api.OpGetTripsTripIDParticipants s => Some s
  end.

(** The answer to a path parameter that is no UUID. *)
Definition invalid_id (op : api.Operation) : spec.Response :=
  match op with
  | api.OpPatchParticipantsParticipantIDConfirm _ =>
      spec.JSON400Response "Invalid participant ID"
  | _ => spec.JSON400Response "Invalid trip ID"
  end.

(** The name of the path parameter of an operation. *)
Definition param_name (op : api.Operation) : string :=
  match op with
  | api.OpPatchParticipantsParticipantIDConfirm _ => "participantId"
  | _ => "tripId"
  end.

(** The operation with [dest] for its path parameter. *)
Definition with_param (op : api.Operation) (dest : string) : api.Operation :=
  match op with
  | api.OpPostTrips => api.OpPostTrips
  | api.OpGetTrips => api.OpGetTrips
  | api.OpPatchParticipantsParticipantIDConfirm _ =>
      api.OpPatchParticipantsParticipantIDConfirm dest
  | api.OpGetTripsTripID _ => api.OpGetTripsTripID dest
  | api.OpPutTripsTripID _ => api.OpPutTripsTripID dest
  | api.OpGetTripsTripIDActivities _ => api.OpGetTripsTripIDActivities dest
  | api.OpPostTripsTripIDActivities _ => api.OpPostTripsTripIDActivities dest
  | api.OpGetTripsTripIDConfirm _ => api.OpGetTripsTripIDConfirm dest
  | api.OpPostTripsTripIDInvites _ => api.OpPostTripsTripIDInvites dest
  | api.OpGetTripsTripIDLinks _ => api.OpGetTripsTripIDLinks dest
  | api.OpPostTripsTripIDLinks _ => api.OpPostTripsTripIDLinks dest
  | api.OpGetTripsTripIDParticipants _ => api.OpGetTripsTripIDParticipants dest
  end.

(** The status codes the handlers use. *)
Definition known_code (code : Z) : Prop :=
  code = 200 \/ code = 201 \/ code = 204 \/ code = 400.

(** The world is [w] but for the pool. *)
Definition same_outside (w w' : World) : Prop :=
  smtp_refuses w' = smtp_refuses w /\ smtp_seen w' = smtp_seen w
  /\ zap_log w' = zap_log w.

(** The three ways a handler that is written ends, seen from [w]: it has
    answered and left the world as it was; it has logged one failure,
    answered "Something went wrong, try again" and left the pool as it was;
    or it has written to the tables and answered 201 or 204, with at most
    one goroutine started and nothing else changed. *)
Inductive outcome (w : World)
  : option spec.Response * World * list routine -> Prop :=
| outcome_answered resp :
    spec.contentType resp = "application/json" -> known_code (spec.Code resp) ->
    outcome w (Some resp, w, [])
| outcome_failed msg err fields :
    outcome w (Some api.something_went_wrong, logged w msg err fields, [])
| outcome_written resp w' gs :
    spec.contentType resp = "application/json" ->
    spec.Code resp = 201 \/ spec.Code resp = 204 ->
    same_outside w w' ->
    store.unreachable (pool w') = store.unreachable (pool w) ->
    (length gs <= 1)%nat ->
    outcome w (Some resp, w', gs).

(** * Properties *)

(** ** The activity aggregation *)
Section aggregation_facts.
Import pgstore aggregation.
Variable uuid_String : UUID -> string.

Lemma sameDate_true t1 t2 :
  sameDate t1 t2 = true <-> time.Time_Date t1 = time.Time_Date t2.
Proof.
  unfold sameDate, time.Time_Date. split.
  - intros H. apply andb_true_iff in H as [H H3].
    apply andb_true_iff in H as [H1 H2].
    apply Z.eqb_eq in H1, H2, H3. congruence.
  - intros H. injection H as -> -> ->. by rewrite !Z.eqb_refl.
Qed.

Lemma Date_midnight t : time.Time_Date (midnight t) = time.Time_Date t.
Proof. reflexivity. Qed.

Lemma midnight_eq t1 t2 :
  midnight t1 = midnight t2 <-> time.Time_Date t1 = time.Time_Date t2.
Proof.
  split.
  - intros H. rewrite <- (Date_midnight t1), H. apply Date_midnight.
  - unfold midnight. by intros ->.
Qed.

Lemma sameDate_day a b :
  sameDate (day a) (occurs b) = true <-> day a = day b.
Proof.
  unfold day. by rewrite sameDate_true, Date_midnight, midnight_eq.
Qed.

Lemma foldl_invariant {A B} (P : A -> Prop) (f : A -> B -> A) l a :
  P a -> (forall a b, P a -> P (f a b)) -> P (foldl f a l).
Proof. revert a. induction l; simpl; auto. Qed.

(** The inner [range] loop that counts leaves the dates as they are and
    the counters positive. *)
Lemma bump_keeps a dd :
  Forall (fun d => 0 < da_Amount d) dd ->
  da_Time <$> bump a dd = da_Time <$> dd
  /\ Forall (fun d => 0 < da_Amount d) (bump a dd).
Proof.
  intros Hpos. unfold bump.
  apply (foldl_invariant
           (fun dd' => da_Time <$> dd' = da_Time <$> dd
                       /\ Forall (fun d => 0 < da_Amount d) dd')); [done|].
  intros dd' i [Ht Hp].
  destruct (dd' !! i) as [date|] eqn:Hi; [|done].
  destruct (sameDate _ _); [|done]. split.
  - rewrite list_fmap_insert. simpl. rewrite list_insert_id; [done|].
    by rewrite list_lookup_fmap, Hi.
  - apply Forall_insert; [done|]. simpl.
    pose proof (Forall_lookup_1 _ _ _ _ Hp Hi) as H. simpl in H. lia.
Qed.

Lemma seen_iff acts dd qtd a :
  collected acts dd qtd ->
  existsb (fun item => sameDate (da_Time item) (occurs a)) dd = true
  <-> day a ∈ da_Time <$> dd.
Proof.
  intros Hc. rewrite existsb_exists. split.
  - intros (item & Hin & Hs). apply list_elem_of_In in Hin.
    assert (Hd : da_Time item ∈ da_Time <$> dd) by by apply list_elem_of_fmap_2.
    pose proof Hd as Hd'. apply (col_days _ _ _ Hc) in Hd' as (b & _ & Hb).
    rewrite Hb in Hs. apply sameDate_day in Hs. by rewrite <- Hs, <- Hb.
  - intros Hin. apply list_elem_of_fmap in Hin as (item & Hitem & Hin).
    exists item. split; [by apply list_elem_of_In|].
    assert (Hd : da_Time item ∈ da_Time <$> dd) by by apply list_elem_of_fmap_2.
    apply (col_days _ _ _ Hc) in Hd as (b & _ & Hb).
    rewrite Hb. apply sameDate_day. by rewrite <- Hb, <- Hitem.
Qed.

Lemma collected_nil : collected [] [] 0.
Proof.
  split; simpl; try done; try constructor.
  - by intros ?%elem_of_nil.
  - by intros (a & ?%elem_of_nil & _).
Qed.

Lemma collected_step acts dd qtd a :
  collected acts dd qtd ->
  collected (acts ++ [a]) (collect (dd, qtd) a).1 (collect (dd, qtd) a).2.
Proof.
  intros Hc. pose proof (seen_iff _ _ _ a Hc) as Hseen.
  unfold collect. fold (occurs a). fold (day a).
  destruct (existsb _ dd) eqn:Hex; simpl.
  - (* the day is there already *)
    assert (Hin : day a ∈ da_Time <$> dd) by by apply Hseen.
    destruct (bump_keeps a dd (col_pos _ _ _ Hc)) as [Ht Hp].
    split.
    + rewrite (col_qtd _ _ _ Hc).
      by rewrite <- (length_fmap da_Time (bump a dd)), Ht, length_fmap.
    + done.
    + rewrite Ht. apply Hc.
    + intros d. rewrite Ht, (col_days _ _ _ Hc). split.
      * intros (b & Hb & ->). exists b. split; [|done]. apply elem_of_app; by left.
      * intros (b & Hb & ->). apply elem_of_app in Hb as [Hb|Hb%list_elem_of_singleton].
        -- by exists b.
        -- subst b. by apply (col_days _ _ _ Hc).
    + rewrite Ht. intros i j di dj Hi Hj Hij.
      destruct (col_order _ _ _ Hc i j di dj Hi Hj Hij) as (p & b & Hp' & Hb & Hall).
      exists p, b. split; [by apply lookup_app_l_Some|]. split; [done|].
      intros q c Hq Hc'. apply lookup_app_Some in Hq as [Hq|[Hlen Hq]].
      * by eapply Hall.
      * apply lookup_lt_Some in Hp'. lia.
  - (* a new day *)
    assert (Hnin : day a ∉ da_Time <$> dd).
    { intros Hin%Hseen. congruence. }
    split.
    + rewrite length_app. simpl. rewrite (col_qtd _ _ _ Hc). lia.
    + apply Forall_app. split; [apply Hc|]. repeat constructor.
    + rewrite fmap_app. simpl. apply NoDup_app. split; [apply Hc|]. split.
      * intros d Hd Hd'%list_elem_of_singleton. by subst d.
      * apply NoDup_singleton.
    + intros d. rewrite fmap_app, elem_of_app, (col_days _ _ _ Hc). simpl.
      rewrite list_elem_of_singleton. split.
      * intros [(b & Hb & ->)| ->].
        -- exists b. split; [|done]. apply elem_of_app; by left.
        -- exists a. split; [|done]. apply elem_of_app; right. by apply list_elem_of_singleton.
      * intros (b & Hb & ->). apply elem_of_app in Hb as [Hb|Hb%list_elem_of_singleton].
        -- left. by exists b.
        -- right. by subst b.
    + rewrite fmap_app. simpl. intros i j di dj Hi Hj Hij.
      apply lookup_app_Some in Hj as [Hj|[Hlen Hj]].
      * assert (Hi' : (da_Time <$> dd) !! i = Some di).
        { apply lookup_lt_Some in Hj. by rewrite lookup_app_l in Hi by lia. }
        destruct (col_order _ _ _ Hc i j di dj Hi' Hj Hij) as (p & b & Hp' & Hb & Hall).
        exists p, b. split; [by apply lookup_app_l_Some|]. split; [done|].
        intros q c Hq Hc'. apply lookup_app_Some in Hq as [Hq|[Hlen Hq]].
        -- by eapply Hall.
        -- apply lookup_lt_Some in Hp'. lia.
      * apply list_lookup_singleton_Some in Hj as [Hj <-].
        assert (Hi' : (da_Time <$> dd) !! i = Some di).
        { rewrite lookup_app_l in Hi by lia. done. }
        assert (Hd : di ∈ da_Time <$> dd) by by eapply list_elem_of_lookup_2.
        apply (col_days _ _ _ Hc) in Hd as (b & Hb & ->).
        apply list_elem_of_lookup in Hb as (p & Hp').
        exists p, b. split; [by apply lookup_app_l_Some|]. split; [done|].
        intros q c Hq Hc'. apply lookup_app_Some in Hq as [Hq|[Hlen' Hq]].
        -- exfalso. apply Hnin. rewrite <- Hc'. apply (col_days _ _ _ Hc).
           exists c. split; [by eapply list_elem_of_lookup_2|done].
        -- apply lookup_lt_Some in Hp'. lia.
Qed.

Lemma differentDates_collected acts :
  collected acts (differentDates_of acts).1 (differentDates_of acts).2.
Proof.
  induction acts as [|a acts IH] using rev_ind.
  - apply collected_nil.
  - unfold differentDates_of in *. rewrite foldl_app. simpl.
    destruct (foldl collect ([], 0) acts) as [dd qtd]. by apply collected_step.
Qed.

Lemma activitiesInnerResponse_filter item acts :
  activitiesInnerResponse uuid_String item acts
  = inner_of uuid_String
      <$> filter (fun a => sameDate (da_Time item) (occurs a) = true) acts.
Proof.
  unfold activitiesInnerResponse.
  induction acts as [|a acts IH] using rev_ind; [done|].
  rewrite foldl_app, filter_app, fmap_app, IH. simpl.
  fold (occurs a). rewrite filter_cons, filter_nil.
  destruct (sameDate (da_Time item) (occurs a)) eqn:Hs; simpl.
  - done.
  - by rewrite app_nil_r.
Qed.

(** The second loop fills every slot and never indexes out of range. *)
Lemma fill_steps acts dd rest z :
  Forall (fun d => 0 < da_Amount d) dd ->
  foldl (fun acc '(i, item) =>
           match acc with
           | None => None
           | Some resp =>
               if da_Amount item <? 0 then None
               else set_index resp i
                      (spec.mkOuter (activitiesInnerResponse uuid_String item acts)
                                    (da_Time item))
           end)
        (Some (replicate (length dd + rest) z))
        (zip (seq 0 (length dd)) dd)
  = Some ((bucket uuid_String acts <$> dd) ++ replicate rest z).
Proof.
  revert rest. induction dd as [|item dd IH] using rev_ind; intros rest Hpos.
  { done. }
  apply Forall_app in Hpos as [Hpos Hitem].
  rewrite length_app. cbn [length]. rewrite Nat.add_1_r.
  replace (S (length dd) + rest)%nat with (length dd + S rest)%nat by lia.
  rewrite seq_S, Nat.add_0_l.
  assert (Hz : zip (seq 0 (length dd) ++ [length dd]) (dd ++ [item])
               = zip (seq 0 (length dd)) dd ++ [(length dd, item)]).
  { apply (zip_with_app pair (seq 0 (length dd)) [length dd] dd [item]).
    by rewrite length_seq. }
  rewrite Hz, foldl_app, IH by done. cbn [foldl].
  rewrite Forall_singleton in Hitem.
  destruct (da_Amount item <? 0) eqn:Hneg; [apply Z.ltb_lt in Hneg; lia|].
  unfold set_index. rewrite decide_True.
  2:{ rewrite length_app, length_fmap, length_replicate. lia. }
  f_equal. rewrite fmap_app, <- app_assoc. simpl.
  replace (length dd) with (length (bucket uuid_String acts <$> dd) + 0)%nat at 1
    by (rewrite length_fmap; lia).
  by rewrite insert_app_r.
Qed.

Lemma groupByDate_buckets acts :
  groupByDate uuid_String acts
  = Some (bucket uuid_String acts <$> (differentDates_of acts).1).
Proof.
  pose proof (differentDates_collected acts) as Hc.
  unfold groupByDate. destruct (differentDates_of acts) as [dd qtd]. simpl in *.
  rewrite (col_qtd _ _ _ Hc).
  destruct (Z.of_nat (length dd) <? 0) eqn:Hneg; [apply Z.ltb_lt in Hneg; lia|].
  rewrite Nat2Z.id. unfold fill.
  pose proof (fill_steps acts dd 0 (spec.mkOuter [] time.zero) (col_pos _ _ _ Hc)) as H.
  rewrite Nat.add_0_r, app_nil_r in H. exact H.
Qed.

Lemma bucket_dates acts (dd : list DateAmount) :
  spec.outer_Date <$> (bucket uuid_String acts <$> dd) = da_Time <$> dd.
Proof. rewrite <- list_fmap_compose. by apply list_fmap_ext. Qed.

(** The content of the bucket of a day, by the day of the activities. *)
Lemma bucket_of_day acts item b :
  day b = da_Time item ->
  spec.outer_Activities (bucket uuid_String acts item)
  = inner_of uuid_String <$> filter (fun a => day a = da_Time item) acts.
Proof.
  intros Hb. simpl. rewrite activitiesInnerResponse_filter. f_equal.
  apply list_filter_iff. intros a. rewrite <- Hb, sameDate_day. split; congruence.
Qed.

Lemma concat_by_day (days : list time.Time) (acts : list Activity) :
  NoDup days -> (forall a, a ∈ acts -> day a ∈ days) ->
  concat ((fun d => filter (fun a => day a = d) acts) <$> days) ≡ₚ acts.
Proof.
  revert acts. induction days as [|d days IH]; intros acts Hnd Hall.
  - destruct acts as [|a acts]; [done|].
    specialize (Hall a). by apply elem_of_nil in Hall; [|left].
  - apply NoDup_cons in Hnd as [Hd Hnd]. simpl.
    etrans; [|apply (filter_app_complement (fun a => day a = d) acts)].
    apply Permutation_app_head.
    etrans; [|apply (IH (filter (fun a => ¬ day a = d) acts) Hnd)].
    + apply reflexive_eq. f_equal.
      apply Forall_fmap_ext, Forall_forall. intros d' Hd'.
      rewrite list_filter_filter. apply list_filter_iff.
      intros a. split; [|tauto]. intros ->. split; [done|]. by intros ->.
    + intros a [Hne Ha]%list_elem_of_filter.
      apply Hall, elem_of_cons in Ha as [Ha|Ha]; [congruence|done].
Qed.

Lemma concat_fmap_fmap {A B} (f : A -> B) (ls : list (list A)) :
  concat ((fun l : list A => f <$> l) <$> ls) = f <$> concat ls.
Proof.
  induction ls as [|l ls IH]; [done|].
  rewrite fmap_cons. cbn [concat]. by rewrite fmap_app, IH.
Qed.

(** C4.  The buckets come in the order in which the input first shows
    their dates, not sorted by date: no date occurs twice, every date of
    the input has its bucket, and of two buckets the earlier one has an
    activity that precedes every activity of the later one.  For
    activities dated 2024-01-03, 2024-01-01, 2024-01-03 the buckets are
    2024-01-03 (holding the first and the third activity, in this order)
    and then 2024-01-01. *)
Theorem buckets_in_first_seen_order :
  (forall acts : list Activity,
      exists buckets,
        groupByDate uuid_String acts = Some buckets
        /\ NoDup (spec.outer_Date <$> buckets)
        /\ (forall d, d ∈ spec.outer_Date <$> buckets
                      <-> exists a, a ∈ acts /\ d = day a)
        /\ (forall i j bi bj,
               buckets !! i = Some bi -> buckets !! j = Some bj -> (i < j)%nat ->
               exists p a,
                 acts !! p = Some a /\ day a = spec.outer_Date bi
                 /\ forall q b, acts !! q = Some b -> day b = spec.outer_Date bj
                                -> (p < q)%nat))
  /\ groupByDate uuid_String [sample.museum; sample.arrival; sample.dinner]
     = Some [spec.mkOuter [inner_of uuid_String sample.museum;
                           inner_of uuid_String sample.dinner]
                          (time.mkTime 2024 1 3 0 0 0 0);
             spec.mkOuter [inner_of uuid_String sample.arrival]
                          (time.mkTime 2024 1 1 0 0 0 0)].
Proof.
  split; [|reflexivity].
  intros acts. pose proof (differentDates_collected acts) as Hc.
  eexists. split; [apply groupByDate_buckets|].
  rewrite bucket_dates. split; [apply Hc|]. split; [apply Hc|].
  intros i j bi bj Hi Hj Hij.
  apply (col_order _ _ _ Hc i j); [| |done].
  - rewrite <- (bucket_dates acts), list_lookup_fmap, Hi. done.
  - rewrite <- (bucket_dates acts), list_lookup_fmap, Hj. done.
Qed.

(** Every bucket is the bucket of the day of some activity, and holds the
    activities of that day as the input lists them. *)
Lemma bucket_content acts b :
  b ∈ bucket uuid_String acts <$> (differentDates_of acts).1 ->
  exists c, c ∈ acts /\ spec.outer_Date b = day c
            /\ spec.outer_Activities b
               = inner_of uuid_String <$> filter (fun a => day a = day c) acts.
Proof.
  pose proof (differentDates_collected acts) as Hc.
  intros (item & -> & Hitem)%list_elem_of_fmap.
  assert (Hd : da_Time item ∈ da_Time <$> (differentDates_of acts).1)
    by by apply list_elem_of_fmap_2.
  apply (col_days _ _ _ Hc) in Hd as (c & Hin & Hd).
  exists c. split; [done|]. split; [done|].
  rewrite (bucket_of_day acts item c) by done. by rewrite Hd.
Qed.

Lemma inner_of_day a (l : list Activity) d :
  inner_of uuid_String a ∈ inner_of uuid_String <$> filter (fun a' => day a' = d) l ->
  day a = d.
Proof.
  intros (a' & Heq & [Hd _]%list_elem_of_filter)%list_elem_of_fmap.
  rewrite <- Hd. unfold day, occurs.
  by injection Heq as _ -> _.
Qed.

(** C3.  The aggregation partitions its input: every activity is in
    exactly one bucket, and all buckets together hold the input, each
    activity as often as the input has it; two activities share a bucket
    if and only if [Date()] gives the same year, month and day for them;
    the date of a bucket is the date of its activities at 00:00:00 UTC;
    and a bucket lists its activities in the order of the input. *)
Theorem activities_partitioned_by_day (acts : list Activity) :
  exists buckets,
    groupByDate uuid_String acts = Some buckets
    /\ (forall a, a ∈ acts ->
          exists i b,
            buckets !! i = Some b
            /\ inner_of uuid_String a ∈ spec.outer_Activities b
            /\ forall j b', buckets !! j = Some b' ->
                            inner_of uuid_String a ∈ spec.outer_Activities b' ->
                            j = i)
    /\ concat (spec.outer_Activities <$> buckets) ≡ₚ inner_of uuid_String <$> acts
    /\ (forall a a', a ∈ acts -> a' ∈ acts ->
          (exists b, b ∈ buckets
                     /\ inner_of uuid_String a ∈ spec.outer_Activities b
                     /\ inner_of uuid_String a' ∈ spec.outer_Activities b)
          <-> time.Time_Date (occurs a) = time.Time_Date (occurs a'))
    /\ (forall b x, b ∈ buckets -> x ∈ spec.outer_Activities b ->
          spec.outer_Date b
          = time.Date (time.Year (spec.inner_OccursAt x))
                      (time.Month (spec.inner_OccursAt x))
                      (time.Day (spec.inner_OccursAt x)) 0 0 0 0)
    /\ (forall b, b ∈ buckets ->
          spec.outer_Activities b
          = inner_of uuid_String
              <$> filter (fun a => time.Time_Date (occurs a)
                                   = time.Time_Date (spec.outer_Date b)) acts).
Proof.
  pose proof (differentDates_collected acts) as Hc.
  pose proof (bucket_content acts) as Hcontent.
  set (buckets := bucket uuid_String acts <$> (differentDates_of acts).1) in *.
  assert (Hdates : spec.outer_Date <$> buckets = da_Time <$> (differentDates_of acts).1)
    by apply bucket_dates.
  assert (Hin : forall a b, b ∈ buckets ->
              inner_of uuid_String a ∈ spec.outer_Activities b ->
              spec.outer_Date b = day a).
  { intros a b (c & _ & Hd & Hb)%Hcontent Ha. rewrite Hb in Ha.
    apply inner_of_day in Ha. congruence. }
  assert (Hown : forall a b, a ∈ acts -> b ∈ buckets -> spec.outer_Date b = day a ->
               inner_of uuid_String a ∈ spec.outer_Activities b).
  { intros a b Ha (c & _ & Hd & Hb)%Hcontent Hday. rewrite Hb.
    apply list_elem_of_fmap_2, list_elem_of_filter. split; [congruence|done]. }
  assert (Hhas : forall a, a ∈ acts ->
               exists i b, buckets !! i = Some b /\ spec.outer_Date b = day a).
  { intros a Ha.
    assert (Hd : day a ∈ spec.outer_Date <$> buckets).
    { rewrite Hdates. apply (col_days _ _ _ Hc). by exists a. }
    apply list_elem_of_lookup in Hd as (i & Hi).
    rewrite list_lookup_fmap in Hi.
    destruct (buckets !! i) as [b|] eqn:Hb; [|done].
    exists i, b. split; [done|]. by injection Hi. }
  exists buckets. split; [apply groupByDate_buckets|].
  repeat split.
  - intros a Ha. destruct (Hhas a Ha) as (i & b & Hi & Hd).
    exists i, b. split; [done|].
    split; [apply Hown; eauto using list_elem_of_lookup_2|].
    intros j b' Hj Hb'.
    apply (NoDup_lookup (spec.outer_Date <$> buckets) j i (day a)).
    + rewrite Hdates. apply Hc.
    + rewrite list_lookup_fmap, Hj. simpl. f_equal.
      apply Hin; eauto using list_elem_of_lookup_2.
    + rewrite list_lookup_fmap, Hi. simpl. by f_equal.
  - transitivity
      (inner_of uuid_String
         <$> concat ((fun d => filter (fun a => day a = d) acts)
                       <$> (spec.outer_Date <$> buckets))).
    + apply reflexive_eq. rewrite <- concat_fmap_fmap.
      rewrite <- !list_fmap_compose. f_equal.
      apply Forall_fmap_ext, Forall_forall.
      intros b (c & _ & Hd & Hb)%Hcontent. simpl. by rewrite Hb, Hd.
    + apply fmap_Permutation, concat_by_day.
      * rewrite Hdates. apply Hc.
      * intros a Ha. rewrite Hdates. apply (col_days _ _ _ Hc). by exists a.
  - intros (b & Hb & Ha & Ha').
    apply midnight_eq. apply Hin in Ha, Ha'; try done.
    unfold day in *. congruence.
  - intros Heq%midnight_eq. destruct (Hhas a) as (i & b & Hi & Hd); [done|].
    apply list_elem_of_lookup_2 in Hi.
    exists b. split; [done|]. split; apply Hown; try done.
    unfold day in *. congruence.
  - intros b x (c & _ & Hd & Hb)%Hcontent Hx. rewrite Hb in Hx.
    apply list_elem_of_fmap in Hx as (a & -> & [Ha _]%list_elem_of_filter).
    rewrite Hd, <- Ha. reflexivity.
  - intros b (c & _ & Hd & Hb)%Hcontent. rewrite Hb, Hd. f_equal.
    apply list_filter_iff. intros a. unfold day.
    by rewrite midnight_eq, Date_midnight.
Qed.

End aggregation_facts.

(** ** Calls and runs *)
Section run_facts.
Import pgstore.

Lemma reachable_cons w q qs :
  reachable w (q :: qs) <-> store.unreachable (pool w) q = false /\ reachable w qs.
Proof. unfold reachable. by rewrite Forall_cons. Qed.

Lemma reachable_cons_2 w q1 q2 :
  reachable w [q1; q2] ->
  store.unreachable (pool w) q1 = false
  /\ store.unreachable (pool w) q2 = false /\ True.
Proof.
  intros H. apply reachable_cons in H as [H1 H].
  by apply reachable_cons in H as [H2 _].
Qed.

Lemma run_bind {G A B} (p : prog G A) (f : A -> prog G B) w :
  run (bind p f) w
  = match run p w with
    | (Some a, w', gs) => let '(r, w'', gs') := run (f a) w' in (r, w'', gs ++ gs')
    | (None, w', gs) => (None, w', gs)
    end.
Proof.
  revert w. induction p as [a|X c k IH|g k IH|msg]; intros w; simpl.
  - by destruct (run (f a) w) as [[r w''] gs'].
  - destruct (perform c w) as [x w']. apply IH.
  - rewrite IH. destruct (run k w) as [[[a|] w'] gs]; [|done].
    by destruct (run (f a) w') as [[r w''] gs'].
  - done.
Qed.

Lemma perform_GetTrip w id :
  perform (store_GetTrip id) w
  = (if store.unreachable (pool w) store.QGetTrip then Err store.ErrConn
     else match trips_of w !! id with
          | Some trip => Ok trip
          | None => Err ErrNoRows
          end, w).
Proof.
  destruct w as [[db un] rf seen lg]. unfold trips_of. simpl.
  unfold store.GetTrip, with_pool. simpl.
  destruct (un store.QGetTrip); [done|]. by destruct (store.trips db !! id).
Qed.

Lemma perform_GetParticipant w id :
  perform (store_GetParticipant id) w
  = (if store.unreachable (pool w) store.QGetParticipant then Err store.ErrConn
     else match participants_of w !! id with
          | Some row => Ok row
          | None => Err ErrNoRows
          end, w).
Proof.
  destruct w as [[db un] rf seen lg]. unfold participants_of. simpl.
  unfold store.GetParticipant, with_pool. simpl.
  destruct (un store.QGetParticipant); [done|].
  by destruct (store.participants db !! id).
Qed.

Lemma perform_UpdateTrip w arg :
  perform (store_UpdateTrip arg) w
  = if store.unreachable (pool w) store.QUpdateTrip then (Err store.ErrConn, w)
    else match trips_of w !! utp_ID arg with
         | None => (Err ErrNoRows, w)
         | Some trip =>
             (Ok tt,
              with_tables w
                (store.mkDB (<[utp_ID arg := store.replace_fields arg trip]> (trips_of w))
                            (participants_of w) (activities_of w)))
         end.
Proof.
  destruct w as [[db un] rf seen lg].
  unfold trips_of, participants_of, activities_of, with_tables. simpl.
  unfold store.UpdateTrip, with_pool. simpl.
  destruct (un store.QUpdateTrip); [done|].
  by destruct (store.trips db !! utp_ID arg).
Qed.

Lemma perform_ConfirmParticipant w id :
  perform (store_ConfirmParticipant id) w
  = if store.unreachable (pool w) store.QConfirmParticipant
    then (Err store.ErrConn, w)
    else match participants_of w !! id with
         | None => (Err ErrNoRows, w)
         | Some row =>
             if part_IsConfirmed row then (Err store.ErrAlreadyConfirmed, w)
             else (Ok tt,
                   with_tables w
                     (store.mkDB (trips_of w)
                                 (<[id := store.confirmed row]> (participants_of w))
                                 (activities_of w)))
         end.
Proof.
  destruct w as [[db un] rf seen lg].
  unfold trips_of, participants_of, activities_of, with_tables. simpl.
  unfold store.ConfirmParticipant, with_pool. simpl.
  destruct (un store.QConfirmParticipant); [done|].
  destruct (store.participants db !! id) as [row|]; [|done].
  by destruct (part_IsConfirmed row).
Qed.

Lemma perform_logger_Error w msg err fields :
  pool (perform (logger_Error msg err fields) w).2 = pool w.
Proof. done. Qed.

End run_facts.

(** ** Confirming a trip *)
Section confirm_trip.
Import pgstore api.
Context (L : Libs).
#[local] Arguments perform : simpl never.

(** [GetTripsTripIDConfirm] run from start to end. *)
Lemma run_GetTripsTripIDConfirm a r tripID w :
  run (GetTripsTripIDConfirm L a r tripID) w
  = match uuid_Parse L tripID with
    | None => (Some (spec.JSON400Response "Invalid trip ID"), w, [])
    | Some id =>
        if store.unreachable (pool w) store.QGetTrip
        then (Some something_went_wrong,
              logged w "Failed to get trip" store.ErrConn [("trip_id", tripID)], [])
        else
          match trips_of w !! id with
          | None => (Some trip_not_found, w, [])
          | Some trip =>
              if trip_IsConfirmed trip then (Some trip_already_confirmed, w, [])
              else if store.unreachable (pool w) store.QUpdateTrip
              then (Some something_went_wrong,
                    logged w "Failed to confirm trip" store.ErrConn
                           [("trip_id", tripID)], [])
              else (Some no_content,
                    with_trips w (<[id := confirmed_trip trip]> (trips_of w)),
                    [go_GetTripsTripIDConfirm a id tripID])
          end
    end.
Proof.
  unfold GetTripsTripIDConfirm. destruct (uuid_Parse L tripID) as [id|]; [|done].
  cbn. rewrite perform_GetTrip.
  destruct (store.unreachable (pool w) store.QGetTrip); [done|].
  destruct (trips_of w !! id) as [trip|] eqn:Htrip; [|done]. cbn.
  destruct (trip_IsConfirmed trip); [done|]. cbn.
  rewrite perform_UpdateTrip. cbn.
  destruct (store.unreachable (pool w) store.QUpdateTrip); [done|].
  by rewrite Htrip.
Qed.

(** [GetTripsTripID] run from start to end. *)
Lemma run_GetTripsTripID r tripID w :
  run (GetTripsTripID L r tripID) w
  = match uuid_Parse L tripID with
    | None => (Some (spec.JSON400Response "Invalid trip ID"), w, [])
    | Some id =>
        if store.unreachable (pool w) store.QGetTrip
        then (Some something_went_wrong,
              logged w "Failed to get trip" store.ErrConn [("trip_id", tripID)], [])
        else
          match trips_of w !! id with
          | None => (Some trip_not_found, w, [])
          | Some trip =>
              (Some (spec.JSON200Response
                       (spec.GetTripDetailsResponse (trip_obj L trip))), w, [])
          end
    end.
Proof.
  unfold GetTripsTripID. destruct (uuid_Parse L tripID) as [id|]; [|done].
  cbn. rewrite perform_GetTrip.
  destruct (store.unreachable (pool w) store.QGetTrip); [done|].
  by destruct (trips_of w !! id) as [trip|].
Qed.

(** C1.  With the store answering: confirming a stored, unconfirmed trip
    succeeds (204); from then on, in whatever world has the tables this
    call left, reading the trip reports is_confirmed = true and
    confirming it again is refused with "Trip already confirmed"; and
    confirming an id that is not stored is refused with "Trip not
    found". *)
Theorem confirm_trip_once (m : mailer) (w : World) (r : Request)
        (tripID : string) (id : UUID) :
  uuid_Parse L tripID = Some id ->
  reachable w [store.QGetTrip; store.QUpdateTrip] ->
  (forall trip,
      trips_of w !! id = Some trip -> trip_IsConfirmed trip = false ->
      let first := run (GetTripsTripIDConfirm L (NewAPI m) r tripID) w in
      first.1.1 = Some no_content
      /\ forall w' r',
          pool w' = pool first.1.2 ->
          (run (GetTripsTripID L r' tripID) w').1.1
          = Some (spec.JSON200Response
                    (spec.GetTripDetailsResponse
                       (spec.mkTripObj (trip_Destination trip)
                                       (pgtype.Time (trip_EndsAt trip))
                                       (uuid_String L (trip_ID trip))
                                       true
                                       (pgtype.Time (trip_StartsAt trip)))))
          /\ (run (GetTripsTripIDConfirm L (NewAPI m) r' tripID) w').1.1
             = Some trip_already_confirmed)
  /\ (trips_of w !! id = None ->
      (run (GetTripsTripIDConfirm L (NewAPI m) r tripID) w).1.1
      = Some trip_not_found).
Proof.
  intros Hparse (Hget & Hupd & _)%reachable_cons_2. split.
  - intros trip Htrip Hconf. simpl.
    rewrite run_GetTripsTripIDConfirm, Hparse, Hget, Htrip, Hconf, Hupd. simpl.
    split; [done|]. intros w' r' Hpool.
    assert (Hget' : store.unreachable (pool w') store.QGetTrip = false)
      by by rewrite Hpool.
    assert (Htrip' : trips_of w' !! id = Some (confirmed_trip trip)).
    { unfold trips_of. rewrite Hpool. simpl. apply lookup_insert_eq. }
    rewrite run_GetTripsTripID, run_GetTripsTripIDConfirm, Hparse, Hget', Htrip'.
    done.
  - intros Habsent. by rewrite run_GetTripsTripIDConfirm, Hparse, Hget, Habsent.
Qed.

End confirm_trip.

(** ** Goroutines of the Mailpit mailer only read *)
Section reads_only_facts.
Import pgstore api exec.
Context (L : Libs).
#[local] Arguments perform : simpl never.

Lemma perform_read {X} (c : Call X) w :
  writes c = false -> pool (perform c w).2 = pool w.
Proof.
  destruct w as [[db un] rf seen lg].
  destruct c; try done; intros _; unfold perform, with_pool; simpl.
  - unfold store.GetTrip. simpl. destruct (un _); [done|]. by destruct (_ !! _).
  - unfold store.GetAllTrips. simpl. by destruct (un _).
  - unfold store.GetParticipant. simpl. destruct (un _); [done|]. by destruct (_ !! _).
  - unfold store.GetParticipants. simpl. by destruct (un _).
  - unfold store.GetTripActivities. simpl. by destruct (un _).
Qed.

Lemma run_reads_only {G A} (p : prog G A) w :
  reads_only p -> pool (run p w).1.2 = pool w.
Proof.
  revert w. induction p as [a|X c k IH|g k IH|msg]; intros w Hp; simpl in *.
  - done.
  - destruct Hp as [Hc Hk]. pose proof (perform_read c w Hc) as Hw.
    destruct (perform c w) as [x w']. simpl in Hw. rewrite <- Hw. by apply IH.
  - specialize (IH w Hp). by destruct (run k w) as [[r' w'] gs].
  - done.
Qed.

Lemma reads_only_bind {G A B} (p : prog G A) (f : A -> prog G B) :
  reads_only p -> (forall a, reads_only (f a)) -> reads_only (bind p f).
Proof.
  intros Hp Hf. induction p as [a|X c k IH|g k IH|msg]; simpl in *; try done.
  - destruct Hp as [Hc Hk]. split; [done|]. intros x. by apply IH.
  - by apply IH.
Qed.

Lemma send_each_reads_only {G} trip participants :
  reads_only (mailpit.send_each L (G:=G) trip participants).
Proof.
  induction participants as [|participant rest IH]; simpl; [done|].
  destruct (mail_Msg_From L _); [done|].
  destruct (mail_Msg_To L _); [done|].
  destruct (mail_NewClient L); [done|].
  simpl. split; [done|]. by intros [err|].
Qed.

Lemma mailpit_owner_reads_only {G} tripID :
  reads_only (mailpit.SendConfirmTripEmailToTripOwner L (G:=G) tripID).
Proof.
  unfold mailpit.SendConfirmTripEmailToTripOwner. simpl. split; [done|].
  intros [trip|err]; [|done].
  destruct (mail_Msg_From L _); [done|].
  destruct (mail_Msg_To L _); [done|].
  destruct (mail_NewClient L); [done|].
  simpl. split; [done|]. by intros [err|].
Qed.

Lemma mailpit_participants_reads_only {G} tripID :
  reads_only (mailpit.SendConfirmTripEmailToTripParticipants L (G:=G) tripID).
Proof.
  unfold mailpit.SendConfirmTripEmailToTripParticipants. simpl. split; [done|].
  intros [trip|err]; [|done]. simpl. split; [done|].
  intros [participants|err]; [|done]. apply send_each_reads_only.
Qed.

Lemma go_PostTrips_reads_only tripID body :
  reads_only (go_PostTrips L (NewAPI (NewMailpit L)) tripID body).
Proof.
  apply reads_only_bind; [apply mailpit_owner_reads_only|]. by intros [err|].
Qed.

Lemma go_GetTripsTripIDConfirm_reads_only id tripID :
  reads_only (go_GetTripsTripIDConfirm (NewAPI (NewMailpit L)) id tripID).
Proof.
  apply reads_only_bind; [apply mailpit_participants_reads_only|]. by intros [err|].
Qed.

Lemma run_routines_reads_only gs w :
  Forall reads_only gs -> pool (run_routines gs w) = pool w.
Proof.
  intros Hgs. revert w. induction Hgs as [|g gs Hg _ IH]; intros w; simpl; [done|].
  rewrite IH. by apply run_reads_only.
Qed.

End reads_only_facts.

(** ** Confirming a trip leaves everything else as it is *)
Section confirm_trip_frame.
Import pgstore api exec.
Context (L : Libs).

(** C10.  A successful [GetTripsTripIDConfirm] (204) has found the trip
    and leaves it with is_confirmed = true and with the id, destination,
    owner, starts_at and ends_at it had; every other trip, all
    participants and all activities are as before, also once the
    goroutine of the Mailpit mailer has run. *)
Theorem confirm_trip_changes_only_is_confirmed (m : mailer) (w : World)
        (r : Request) (tripID : string) :
  (run (GetTripsTripIDConfirm L (NewAPI m) r tripID) w).1.1 = Some no_content ->
  exists id trip,
    uuid_Parse L tripID = Some id
    /\ trips_of w !! id = Some trip
    /\ let w' := (run (GetTripsTripIDConfirm L (NewAPI m) r tripID) w).1.2 in
       trips_of w' !! id
       = Some (mkTrip (trip_ID trip) (trip_Destination trip) (trip_OwnerEmail trip)
                      (trip_OwnerName trip) true
                      (trip_StartsAt trip) (trip_EndsAt trip))
       /\ (forall id', id' ≠ id -> trips_of w' !! id' = trips_of w !! id')
       /\ participants_of w' = participants_of w
       /\ activities_of w' = activities_of w
       /\ store.tables
            (pool (serve (GetTripsTripIDConfirm L (NewAPI (NewMailpit L)) r tripID) w).2)
          = store.tables (pool w').
Proof.
  unfold serve.
  rewrite !run_GetTripsTripIDConfirm.
  destruct (uuid_Parse L tripID) as [id|]; [|done].
  destruct (store.unreachable (pool w) store.QGetTrip); [done|].
  destruct (trips_of w !! id) as [trip|] eqn:Htrip; [|done].
  destruct (trip_IsConfirmed trip); [done|].
  destruct (store.unreachable (pool w) store.QUpdateTrip); [done|].
  intros _. exists id, trip. split; [done|]. split; [done|].
  cbv zeta. cbn [fst snd run_routines].
  split; [apply lookup_insert_eq|]. split; [|split; [done|split; [done|]]].
  - intros id' Hne. unfold trips_of at 1. cbn. by apply lookup_insert_ne.
  - by rewrite run_reads_only by apply go_GetTripsTripIDConfirm_reads_only.
Qed.

End confirm_trip_frame.

(** ** Updating a trip that is not stored *)
Section update_trip.
Import pgstore api.
Context (L : Libs).
#[local] Arguments perform : simpl never.

(** C8.  [PutTripsTripID] on an id that is not stored writes nothing: the
    pool (tables and all) is as before, no goroutine is started, and the
    answer is a 400; with the store answering it is "Trip not found" and
    the whole world is as before. *)
Theorem update_absent_trip_writes_nothing (w : World) (r : Request)
        (tripID : string) (id : UUID) :
  uuid_Parse L tripID = Some id ->
  trips_of w !! id = None ->
  let out := run (PutTripsTripID L r tripID) w in
  pool out.1.2 = pool w
  /\ out.2 = []
  /\ (exists msg, out.1.1 = Some (spec.JSON400Response msg))
  /\ (store.unreachable (pool w) store.QGetTrip = false ->
      out = (Some trip_not_found, w, [])).
Proof.
  intros Hparse Habsent. unfold PutTripsTripID. rewrite Hparse. cbn.
  rewrite perform_GetTrip, Habsent.
  destruct (store.unreachable (pool w) store.QGetTrip); cbn.
  - repeat split; [by eexists|done].
  - repeat split. by eexists.
Qed.

End update_trip.

(** ** Confirming a participant *)
Section confirm_participant.
Import pgstore api.
Context (L : Libs).
#[local] Arguments perform : simpl never.

(** [PatchParticipantsParticipantIDConfirm] run from start to end. *)
Lemma run_PatchParticipantsParticipantIDConfirm r participantID w :
  run (PatchParticipantsParticipantIDConfirm L r participantID) w
  = match uuid_Parse L participantID with
    | None => (Some (spec.JSON400Response "Invalid participant ID"), w, [])
    | Some id =>
        if store.unreachable (pool w) store.QGetParticipant
        then (Some something_went_wrong,
              logged w "Failed to get participant" store.ErrConn
                     [("participant_id", participantID)], [])
        else
          match participants_of w !! id with
          | None => (Some participant_not_found, w, [])
          | Some row =>
              if part_IsConfirmed row
              then (Some participant_already_confirmed, w, [])
              else if store.unreachable (pool w) store.QConfirmParticipant
              then (Some something_went_wrong,
                    logged w "Failed to confirm participant" store.ErrConn
                           [("participant_id", participantID)], [])
              else (Some no_content,
                    with_tables w
                      (store.mkDB (trips_of w)
                                  (<[id := store.confirmed row]> (participants_of w))
                                  (activities_of w)),
                    [])
          end
    end.
Proof.
  unfold PatchParticipantsParticipantIDConfirm.
  destruct (uuid_Parse L participantID) as [id|]; [|done].
  cbn. rewrite perform_GetParticipant.
  destruct (store.unreachable (pool w) store.QGetParticipant); [done|].
  destruct (participants_of w !! id) as [row|] eqn:Hrow; [|done]. cbn.
  destruct (part_IsConfirmed row) eqn:Hconf; [done|]. cbn.
  rewrite perform_ConfirmParticipant. cbn.
  destruct (store.unreachable (pool w) store.QConfirmParticipant); [done|].
  by rewrite Hrow, Hconf.
Qed.

(** C5.  With the store answering: confirming a stored, unconfirmed
    participant succeeds (204); from then on, in whatever world has the
    tables this call left, confirming it again is refused with
    "Participant already confirmed"; confirming an id that is not stored
    is refused with "Participant not found"; and whatever trips the
    store holds, confirmed or not, the answer and the participants the
    call leaves are the same. *)
Theorem confirm_participant_once (w : World) (r : Request)
        (participantID : string) (id : UUID) :
  uuid_Parse L participantID = Some id ->
  reachable w [store.QGetParticipant; store.QConfirmParticipant] ->
  (forall row,
      participants_of w !! id = Some row -> part_IsConfirmed row = false ->
      let first := run (PatchParticipantsParticipantIDConfirm L r participantID) w in
      first.1.1 = Some no_content
      /\ participants_of first.1.2 !! id = Some (store.confirmed row)
      /\ forall w' r',
          pool w' = pool first.1.2 ->
          (run (PatchParticipantsParticipantIDConfirm L r' participantID) w').1.1
          = Some participant_already_confirmed)
  /\ (participants_of w !! id = None ->
      (run (PatchParticipantsParticipantIDConfirm L r participantID) w).1.1
      = Some participant_not_found)
  /\ (forall trips' : gmap UUID Trip,
         let out := run (PatchParticipantsParticipantIDConfirm L r participantID) w in
         let out' := run (PatchParticipantsParticipantIDConfirm L r participantID)
                         (with_trips w trips') in
         out'.1.1 = out.1.1
         /\ participants_of out'.1.2 = participants_of out.1.2).
Proof.
  intros Hparse (Hget & Hupd & _)%reachable_cons_2. split; [|split].
  - intros row Hrow Hconf. simpl.
    rewrite run_PatchParticipantsParticipantIDConfirm, Hparse, Hget, Hrow, Hconf, Hupd.
    simpl. split; [done|]. split; [apply lookup_insert_eq|].
    intros w' r' Hpool.
    assert (Hget' : store.unreachable (pool w') store.QGetParticipant = false)
      by by rewrite Hpool.
    assert (Hrow' : participants_of w' !! id = Some (store.confirmed row)).
    { unfold participants_of. rewrite Hpool. simpl. apply lookup_insert_eq. }
    by rewrite run_PatchParticipantsParticipantIDConfirm, Hparse, Hget', Hrow'.
  - intros Habsent.
    by rewrite run_PatchParticipantsParticipantIDConfirm, Hparse, Hget, Habsent.
  - intros trips'. cbv zeta.
    rewrite !run_PatchParticipantsParticipantIDConfirm, Hparse.
    change (participants_of (with_trips w trips')) with (participants_of w).
    change (pool (with_trips w trips'))
      with (store.mkPool (store.mkDB trips' (participants_of w) (activities_of w))
                         (store.unreachable (pool w))).
    cbn [store.unreachable]. rewrite Hget, Hupd.
    destruct (participants_of w !! id) as [row|]; [|done].
    by destruct (part_IsConfirmed row).
Qed.

End confirm_participant.

(** ** The mail to the participants *)
Section mailer_facts.
Import pgstore.
Context (L : Libs).
#[local] Arguments perform : simpl never.

Lemma seen_nil w : seen w [] = w.
Proof. destruct w. unfold seen. simpl. by rewrite app_nil_r. Qed.

Lemma seen_seen w l1 l2 : seen (seen w l1) l2 = seen w (l1 ++ l2).
Proof. unfold seen. simpl. by rewrite app_assoc. Qed.

Lemma perform_DialAndSend w msg :
  perform (client_DialAndSend msg) w
  = (smtp_refuses w msg, seen w [(msg, bool_decide (smtp_refuses w msg = None))]).
Proof. done. Qed.

Lemma perform_GetParticipants w tripID :
  perform (store_GetParticipants tripID) w
  = ((store.GetParticipants tripID (pool w)).1, w).
Proof.
  destruct w as [[db un] rf sn lg]. unfold perform, with_pool, store.GetParticipants.
  simpl. by destruct (un _).
Qed.

(** The recipients before the first failure are sent to, one by one. *)
Lemma send_each_sent trip before rest w :
  mail_Msg_From L "mailpit@journey.com" = None ->
  mail_NewClient L = None ->
  Forall (fun p => mail_Msg_To L (part_Email p) = None
                   /\ smtp_refuses w (mailpit.participant_msg L trip p) = None)
         before ->
  run (mailpit.send_each L (G:=Empty_set) trip (before ++ rest)) w
  = run (mailpit.send_each L (G:=Empty_set) trip rest)
        (seen w ((fun p => (mailpit.participant_msg L trip p, true)) <$> before)).
Proof.
  intros Hfrom Hclient Hok. revert w Hok.
  induction before as [|p before IH]; intros w Hok.
  - by rewrite seen_nil.
  - apply Forall_cons in Hok as [[Hto Hsmtp] Hok].
    cbn [app mailpit.send_each]. rewrite Hfrom, Hto, Hclient. cbn.
    rewrite perform_DialAndSend, Hsmtp.
    rewrite IH by done. by rewrite seen_seen.
Qed.

(** The recipients for whom every step succeeds are sent to, one by one. *)
Lemma send_each_accepted trip before rest w :
  Forall (fun p => mail_Msg_From L "mailpit@journey.com" = None
                   /\ mail_Msg_To L (part_Email p) = None
                   /\ mail_NewClient L = None
                   /\ smtp_refuses w (mailpit.participant_msg L trip p) = None)
         before ->
  run (mailpit.send_each L (G:=Empty_set) trip (before ++ rest)) w
  = run (mailpit.send_each L (G:=Empty_set) trip rest)
        (seen w ((fun p => (mailpit.participant_msg L trip p, true)) <$> before)).
Proof.
  intros Hok. destruct before as [|p before]; [by rewrite seen_nil|].
  pose proof (Forall_inv Hok) as (Hfrom & _ & Hclient & _).
  apply send_each_sent; [done..|].
  eapply Forall_impl; [exact Hok|]. by intros q (_ & Hto & _ & Hsmtp).
Qed.

(** C7, as the code has it.  When the trip and its participants are
    read and every step succeeds for the recipients before [failing]: the
    first step that fails for [failing] ends the function, which returns
    the error of that step wrapped with the text of the step (setting
    From, setting To, creating the client, sending); the server has then
    seen the messages to the recipients before [failing], accepted, the
    refused message if the sending was the step that failed, and nothing
    else, so nothing for the recipients after [failing].  Without such a
    recipient every participant is sent to and the function returns
    [nil]. *)
Theorem sending_stops_at_the_first_failure (w : World) (tripID : UUID)
        (trip : Trip) (before after : list Participant) (failing : Participant) :
  reachable w [store.QGetTrip; store.QGetParticipants] ->
  trips_of w !! tripID = Some trip ->
  Forall (fun p => mail_Msg_From L "mailpit@journey.com" = None
                   /\ mail_Msg_To L (part_Email p) = None
                   /\ mail_NewClient L = None
                   /\ smtp_refuses w (mailpit.participant_msg L trip p) = None)
         before ->
  let send := mailpit.SendConfirmTripEmailToTripParticipants L (G:=Empty_set) tripID in
  let sent := (fun p => (mailpit.participant_msg L trip p, true)) <$> before in
  ((store.GetParticipants tripID (pool w)).1 = Ok (before ++ failing :: after) ->
   (forall err,
       mail_Msg_From L "mailpit@journey.com" = Some err ->
       run send w
       = (Some (Some (Errorf "mailpit: failed to set From in email for SendConfirmTripEmailToTripParticipants" err)),
          seen w sent, []))
   /\ (forall err,
          mail_Msg_From L "mailpit@journey.com" = None ->
          mail_Msg_To L (part_Email failing) = Some err ->
          run send w
          = (Some (Some (Errorf "mailpit: failed to set To in email for SendConfirmTripEmailToTripParticipants" err)),
             seen w sent, []))
   /\ (forall err,
          mail_Msg_From L "mailpit@journey.com" = None ->
          mail_Msg_To L (part_Email failing) = None ->
          mail_NewClient L = Some err ->
          run send w
          = (Some (Some (Errorf "mailpit: failed to create email client for SendConfirmTripEmailToTripParticipants" err)),
             seen w sent, []))
   /\ (forall err,
          mail_Msg_From L "mailpit@journey.com" = None ->
          mail_Msg_To L (part_Email failing) = None ->
          mail_NewClient L = None ->
          smtp_refuses w (mailpit.participant_msg L trip failing) = Some err ->
          run send w
          = (Some (Some (Errorf "mailpit: failed to send email for SendConfirmTripEmailToTripParticipants" err)),
             seen w (sent ++ [(mailpit.participant_msg L trip failing, false)]), [])))
  /\ ((store.GetParticipants tripID (pool w)).1 = Ok before ->
      run send w = (Some None, seen w sent, [])).
Proof.
  intros (Hget & Hlist & _)%reachable_cons_2 Htrip Hok send sent.
  assert (Hrun : forall rows,
             (store.GetParticipants tripID (pool w)).1 = Ok rows ->
             run send w = run (mailpit.send_each L (G:=Empty_set) trip rows) w).
  { intros rows Hrows. unfold send, mailpit.SendConfirmTripEmailToTripParticipants.
    cbn. rewrite perform_GetTrip, Hget, Htrip. cbn.
    by rewrite perform_GetParticipants, Hrows. }
  split.
  - intros Hrows. rewrite (Hrun _ Hrows), send_each_accepted by done.
    fold sent. cbn [mailpit.send_each]. repeat split.
    + by intros err ->.
    + by intros err -> ->.
    + by intros err -> -> ->.
    + intros err -> -> -> Hsmtp. cbn. rewrite perform_DialAndSend.
      change (smtp_refuses (seen w sent)) with (smtp_refuses w).
      rewrite Hsmtp. cbn. by rewrite seen_seen.
  - intros Hrows. rewrite (Hrun _ Hrows).
    rewrite <- (app_nil_r before) at 1. by rewrite send_each_accepted.
Qed.

End mailer_facts.

(** ** The answer does not wait for the mail *)
Section notification_facts.
Import pgstore api exec.
Context (L : Libs).
#[local] Arguments perform : simpl never.

Lemma perform_CreateTrip w body :
  perform (store_CreateTrip body) w
  = ((store.CreateTrip body (pool w)).1,
     with_new_pool w (store.CreateTrip body (pool w)).2).
Proof. done. Qed.

(** [PostTrips] run from start to end. *)
Lemma run_PostTrips a r w :
  run (PostTrips L a r) w
  = match json_Decode_CreateTripRequest L (Body r) with
    | Err err => (Some (spec.JSON400Response ("Invalid JSON: " +:+ Error err)), w, [])
    | Ok body =>
        match validator_Struct_CreateTripRequest L body with
        | Some err =>
            (Some (spec.JSON400Response ("Invalid request body: " +:+ Error err)), w, [])
        | None =>
            let w' := with_new_pool w (store.CreateTrip body (pool w)).2 in
            match (store.CreateTrip body (pool w)).1 with
            | Err _ => (Some something_went_wrong, w', [])
            | Ok tripID =>
                (Some (spec.JSON201Response
                         (spec.CreateTripResponse (uuid_String L tripID))),
                 w', [go_PostTrips L a tripID body])
            end
        end
    end.
Proof.
  unfold PostTrips.
  destruct (json_Decode_CreateTripRequest L (Body r)) as [body|err]; [|done].
  destruct (validator_Struct_CreateTripRequest L body) as [err|]; [done|].
  cbn. rewrite perform_CreateTrip.
  by destruct (store.CreateTrip body (pool w)).1.
Qed.

(** C6.  The answer of [PostTrips] and of [GetTripsTripIDConfirm], and the
    world they leave, are the same whatever mailer the API is built with;
    with the Mailpit mailer and its goroutine run to the end, the answer
    and the pool are the same whatever the mail server refuses; and a
    call whose query succeeded answers 201, 204 for every mailer. *)
Theorem answer_independent_of_notification :
  (forall (m1 m2 : mailer) w r,
      (run (PostTrips L (NewAPI m1) r) w).1 = (run (PostTrips L (NewAPI m2) r) w).1)
  /\ (forall (m1 m2 : mailer) w r tripID,
         (run (GetTripsTripIDConfirm L (NewAPI m1) r tripID) w).1
         = (run (GetTripsTripIDConfirm L (NewAPI m2) r tripID) w).1)
  /\ (forall w refuses' r,
         let out := serve (PostTrips L (NewAPI (NewMailpit L)) r) w in
         let out' := serve (PostTrips L (NewAPI (NewMailpit L)) r)
                           (with_smtp w refuses') in
         out'.1 = out.1 /\ pool out'.2 = pool out.2)
  /\ (forall w refuses' r tripID,
         let out := serve (GetTripsTripIDConfirm L (NewAPI (NewMailpit L)) r tripID) w in
         let out' := serve (GetTripsTripIDConfirm L (NewAPI (NewMailpit L)) r tripID)
                           (with_smtp w refuses') in
         out'.1 = out.1 /\ pool out'.2 = pool out.2)
  /\ (forall (m : mailer) w r body tripID,
         json_Decode_CreateTripRequest L (Body r) = Ok body ->
         validator_Struct_CreateTripRequest L body = None ->
         (store.CreateTrip body (pool w)).1 = Ok tripID ->
         (run (PostTrips L (NewAPI m) r) w).1.1
         = Some (spec.JSON201Response
                   (spec.CreateTripResponse (uuid_String L tripID))))
  /\ (forall (m : mailer) w r tripID id trip,
         uuid_Parse L tripID = Some id ->
         reachable w [store.QGetTrip; store.QUpdateTrip] ->
         trips_of w !! id = Some trip -> trip_IsConfirmed trip = false ->
         (run (GetTripsTripIDConfirm L (NewAPI m) r tripID) w).1.1 = Some no_content).
Proof.
  repeat apply conj.
  - intros m1 m2 w r. rewrite !run_PostTrips.
    destruct (json_Decode_CreateTripRequest L (Body r)) as [body|err]; [|done].
    destruct (validator_Struct_CreateTripRequest L body) as [err|]; [done|].
    cbv zeta. by destruct (store.CreateTrip body (pool w)).1.
  - intros m1 m2 w r tripID. rewrite !run_GetTripsTripIDConfirm.
    destruct (uuid_Parse L tripID) as [id|]; [|done].
    destruct (store.unreachable (pool w) store.QGetTrip); [done|].
    destruct (trips_of w !! id) as [trip|]; [|done].
    destruct (trip_IsConfirmed trip); [done|].
    by destruct (store.unreachable (pool w) store.QUpdateTrip).
  - intros w refuses' r. unfold serve. rewrite !run_PostTrips.
    destruct (json_Decode_CreateTripRequest L (Body r)) as [body|err]; [|done].
    destruct (validator_Struct_CreateTripRequest L body) as [err|]; [done|].
    cbv zeta. change (pool (with_smtp w refuses')) with (pool w).
    destruct (store.CreateTrip body (pool w)).1; [|done].
    cbn [fst snd run_routines]. split; [done|].
    by rewrite !run_reads_only by apply go_PostTrips_reads_only.
  - intros w refuses' r tripID. unfold serve. rewrite !run_GetTripsTripIDConfirm.
    destruct (uuid_Parse L tripID) as [id|]; [|done].
    change (pool (with_smtp w refuses')) with (pool w).
    change (trips_of (with_smtp w refuses')) with (trips_of w).
    destruct (store.unreachable (pool w) store.QGetTrip); [done|].
    destruct (trips_of w !! id) as [trip|]; [|done].
    destruct (trip_IsConfirmed trip); [done|].
    destruct (store.unreachable (pool w) store.QUpdateTrip); [done|].
    cbn [fst snd run_routines]. split; [done|].
    by rewrite !run_reads_only by apply go_GetTripsTripIDConfirm_reads_only.
  - intros m w r body tripID Hdecode Hvalid Hcreate.
    by rewrite run_PostTrips, Hdecode, Hvalid, Hcreate.
  - intros m w r tripID id trip Hparse (Hget & Hupd & _)%reachable_cons_2 Htrip Hconf.
    by rewrite run_GetTripsTripIDConfirm, Hparse, Hget, Htrip, Hconf, Hupd.
Qed.

End notification_facts.

(** ** Confirmation is never taken back *)
Section monotonic.
Import pgstore api exec.
Context (L : Libs).
#[local] Arguments perform : simpl never.

Lemma kept_refl db : confirmations_kept db db.
Proof. split; eauto. Qed.

Lemma kept_trans db1 db2 db3 :
  confirmations_kept db1 db2 -> confirmations_kept db2 db3 ->
  confirmations_kept db1 db3.
Proof.
  intros [Ht1 Hp1] [Ht2 Hp2]. split.
  - intros id trip Hin Hc. destruct (Ht1 _ _ Hin Hc) as (trip' & Hin' & Hc'). eauto.
  - intros id row Hin Hc. destruct (Hp1 _ _ Hin Hc) as (row' & Hin' & Hc'). eauto.
Qed.

Lemma kept_insert_trip db id trip' :
  (forall trip, store.trips db !! id = Some trip -> trip_IsConfirmed trip = true ->
                trip_IsConfirmed trip' = true) ->
  confirmations_kept db
    (store.mkDB (<[id := trip']> (store.trips db)) (store.participants db)
                (store.activities db)).
Proof.
  intros Hnew. split; simpl; [|eauto].
  intros id0 trip Hin Hc. destruct (decide (id = id0)) as [->|Hne].
  - exists trip'. rewrite lookup_insert_eq. eauto.
  - exists trip. by rewrite lookup_insert_ne.
Qed.

Lemma kept_insert_participant db id row' :
  (forall row, store.participants db !! id = Some row -> part_IsConfirmed row = true ->
               part_IsConfirmed row' = true) ->
  confirmations_kept db
    (store.mkDB (store.trips db) (<[id := row']> (store.participants db))
                (store.activities db)).
Proof.
  intros Hnew. split; simpl; [eauto|].
  intros id0 row Hin Hc. destruct (decide (id = id0)) as [->|Hne].
  - exists row'. rewrite lookup_insert_eq. eauto.
  - exists row. by rewrite lookup_insert_ne.
Qed.

Lemma insert_participants_other rows (m : gmap UUID Participant) id :
  Forall (fun row => part_ID row ≠ id) rows ->
  store.insert_participants rows m !! id = m !! id.
Proof.
  induction 1 as [|row rows Hrow _ IH]; simpl; [done|].
  by rewrite lookup_insert_ne.
Qed.

Lemma kept_CreateTrip body p :
  confirmations_kept (store.tables p) (store.tables (store.CreateTrip body p).2).
Proof.
  unfold store.CreateTrip. destruct (store.unreachable p _); [apply kept_refl|].
  cbn [snd store.tables]. split; cbn [store.trips store.participants].
  - intros id trip Hin Hc. exists trip. split; [|done].
    rewrite lookup_insert_ne; [done|]. intros <-.
    apply (is_fresh (dom (store.trips (store.tables p)))).
    apply elem_of_dom. eauto.
  - intros id row Hin Hc. exists row. split; [|done].
    rewrite insert_participants_other; [done|].
    apply Forall_forall. intros row' Hrow' Heq.
    apply elem_of_lookup_zip_with in Hrow' as (i & fresh_id & [email conf] & -> & Hid & _).
    simpl in Heq. subst fresh_id.
    apply list_elem_of_lookup_2, fresh_list_is_fresh in Hid.
    apply Hid, elem_of_dom. eauto.
Qed.

Lemma kept_CreateActivity arg p :
  confirmations_kept (store.tables p) (store.tables (store.CreateActivity arg p).2).
Proof.
  unfold store.CreateActivity. destruct (store.unreachable p _); [apply kept_refl|].
  destruct (_ !! _); [|apply kept_refl]. split; eauto.
Qed.

Lemma perform_CreateActivity w arg :
  perform (store_CreateActivity arg) w
  = ((store.CreateActivity arg (pool w)).1,
     with_new_pool w (store.CreateActivity arg (pool w)).2).
Proof. done. Qed.

Lemma perform_GetAllTrips w :
  perform store_GetAllTrips w = ((store.GetAllTrips (pool w)).1, w).
Proof.
  destruct w as [[db un] rf sn lg]. unfold perform, with_pool, store.GetAllTrips.
  simpl. by destruct (un _).
Qed.

Lemma perform_GetTripActivities w tripID :
  perform (store_GetTripActivities tripID) w
  = ((store.GetTripActivities tripID (pool w)).1, w).
Proof.
  destruct w as [[db un] rf sn lg]. unfold perform, with_pool, store.GetTripActivities.
  simpl. by destruct (un _).
Qed.

Lemma harmless_same w resp w' :
  pool w' = pool w -> harmless w (resp, w', []).
Proof. intros Hp. split; simpl; [rewrite Hp; apply kept_refl|constructor]. Qed.

Lemma PutTripsTripID_harmless r tripID w :
  harmless w (run (PutTripsTripID L r tripID) w).
Proof.
  unfold PutTripsTripID.
  destruct (uuid_Parse L tripID) as [id|]; [|by apply harmless_same].
  cbn. rewrite perform_GetTrip.
  destruct (store.unreachable (pool w) store.QGetTrip); [by apply harmless_same|].
  destruct (trips_of w !! id) as [trip|] eqn:Htrip; [|by apply harmless_same].
  cbn. destruct (json_Decode_UpdateTripRequest L (Body r)) as [body|err];
    [|by apply harmless_same].
  destruct (validator_Struct_UpdateTripRequest L body) as [err|];
    [by apply harmless_same|].
  cbn. rewrite perform_UpdateTrip. cbn.
  destruct (store.unreachable (pool w) store.QUpdateTrip); [by apply harmless_same|].
  rewrite Htrip. split; [|constructor]. cbn.
  apply kept_insert_trip. intros trip0 Htrip0. unfold trips_of in Htrip.
  simpl. congruence.
Qed.

Lemma handle_harmless op r w :
  harmless w (run (handle L (NewAPI (NewMailpit L)) op r) w).
Proof.
  destruct op as [participantID| | |tripID|tripID|tripID|tripID|tripID
                  |tripID|tripID|tripID|tripID]; cbn [handle].
  - rewrite run_PatchParticipantsParticipantIDConfirm.
    destruct (uuid_Parse L participantID) as [id|]; [|by apply harmless_same].
    destruct (store.unreachable (pool w) store.QGetParticipant);
      [by apply harmless_same|].
    destruct (participants_of w !! id) as [row|]; [|by apply harmless_same].
    destruct (part_IsConfirmed row); [by apply harmless_same|].
    destruct (store.unreachable (pool w) store.QConfirmParticipant);
      [by apply harmless_same|].
    split; [|constructor]. cbn. by apply kept_insert_participant.
  - rewrite run_PostTrips.
    destruct (json_Decode_CreateTripRequest L (Body r)) as [body|err];
      [|by apply harmless_same].
    destruct (validator_Struct_CreateTripRequest L body) as [err|];
      [by apply harmless_same|].
    cbv zeta. destruct (store.CreateTrip body (pool w)).1 as [tripID|err].
    + split; [apply kept_CreateTrip|].
      repeat constructor. apply go_PostTrips_reads_only.
    + split; [apply kept_CreateTrip|constructor].
  - unfold GetTrips. cbn. rewrite perform_GetAllTrips.
    destruct (store.GetAllTrips (pool w)).1 as [trips|err]; [by apply harmless_same|].
    destruct (errors_Is_ErrNoRows err); by apply harmless_same.
  - rewrite run_GetTripsTripID.
    destruct (uuid_Parse L tripID) as [id|]; [|by apply harmless_same].
    destruct (store.unreachable (pool w) store.QGetTrip); [by apply harmless_same|].
    destruct (trips_of w !! id); by apply harmless_same.
  - apply PutTripsTripID_harmless.
  - unfold GetTripsTripIDActivities.
    destruct (uuid_Parse L tripID) as [id|]; [|by apply harmless_same].
    cbn. rewrite perform_GetTripActivities.
    destruct (store.GetTripActivities id (pool w)).1 as [acts|err]; cbn.
    + destruct (aggregation.groupByDate _ acts); by apply harmless_same.
    + destruct (errors_Is_ErrNoRows err); by apply harmless_same.
  - unfold PostTripsTripIDActivities.
    destruct (uuid_Parse L tripID) as [id|]; [|by apply harmless_same].
    destruct (json_Decode_CreateActivityRequest L (Body r)) as [body|err];
      [|by apply harmless_same].
    destruct (validator_Struct_CreateActivityRequest L body) as [err|];
      [by apply harmless_same|].
    cbn. rewrite perform_CreateActivity.
    destruct (store.CreateActivity _ (pool w)).1 as [activityID|err]; cbn;
      (split; [apply kept_CreateActivity|constructor]).
  - rewrite run_GetTripsTripIDConfirm.
    destruct (uuid_Parse L tripID) as [id|]; [|by apply harmless_same].
    destruct (store.unreachable (pool w) store.QGetTrip); [by apply harmless_same|].
    destruct (trips_of w !! id) as [trip|]; [|by apply harmless_same].
    destruct (trip_IsConfirmed trip); [by apply harmless_same|].
    destruct (store.unreachable (pool w) store.QUpdateTrip); [by apply harmless_same|].
    split.
    + cbn. by apply kept_insert_trip.
    + repeat constructor. apply go_GetTripsTripIDConfirm_reads_only.
  - by apply harmless_same.
  - by apply harmless_same.
  - by apply harmless_same.
  - unfold GetTripsTripIDParticipants.
    destruct (uuid_Parse L tripID) as [id|]; [|by apply harmless_same].
    cbn. rewrite perform_GetTrip.
    destruct (store.unreachable (pool w) store.QGetTrip); [by apply harmless_same|].
    destruct (trips_of w !! id) as [trip|]; [|by apply harmless_same].
    cbn. rewrite perform_GetParticipants.
    destruct (store.GetParticipants _ (pool w)).1; by apply harmless_same.
Qed.

(** The handler answers 200 with the buckets: the panics of the aggregation
    are out of reach. *)
Lemma GetTripsTripIDActivities_answers r tripID id w :
  uuid_Parse L tripID = Some id ->
  store.unreachable (pool w) store.QGetTripActivities = false ->
  exists activities,
    (store.GetTripActivities id (pool w)).1 = Ok activities
    /\ run (GetTripsTripIDActivities L r tripID) w
       = (Some (spec.JSON200Response
                  (spec.GetTripActivitiesResponse
                     (aggregation.bucket (uuid_String L) activities
                        <$> (aggregation.differentDates_of activities).1))),
          w, []).
Proof.
  intros Hparse Hreach. unfold GetTripsTripIDActivities. rewrite Hparse. cbn.
  rewrite perform_GetTripActivities. unfold store.GetTripActivities at 1 2.
  rewrite Hreach. cbn. eexists. split; [done|].
  by rewrite groupByDate_buckets.
Qed.

Lemma serve_kept op r w :
  confirmations_kept
    (store.tables (pool w))
    (store.tables (pool (serve (handle L (NewAPI (NewMailpit L)) op r) w).2)).
Proof.
  destruct (handle_harmless op r w) as [Hkept Hgs]. unfold serve.
  destruct (run _ w) as [[resp w'] gs]. simpl in *.
  by rewrite run_routines_reads_only.
Qed.

End monotonic.

(** ** A request on its own: the two executions agree *)
Section alone.
Import api exec.
#[local] Arguments perform : simpl never.

Lemma interleave_finished m (p : prog routine spec.Response) rest w :
  (forall w', step p w' = (p, w', [])) ->
  interleave (replicate m 0%nat) (Handler p :: rest) w = (Handler p :: rest, w).
Proof.
  intros Hp. induction m as [|m IH]; [done|].
  cbn [replicate interleave lookup list_lookup thread_step].
  rewrite Hp. cbn [insert list_insert fmap list_fmap]. by rewrite app_nil_r.
Qed.

Lemma interleave_app s1 s2 threads w :
  interleave (s1 ++ s2) threads w
  = interleave s2 (interleave s1 threads w).1 (interleave s1 threads w).2.
Proof.
  revert threads w. induction s1 as [|i s1 IH]; intros threads w; [done|].
  cbn [app interleave]. destruct (threads !! i) as [t|]; [|apply IH].
  destruct (thread_step t w) as [[t' w'] started]. apply IH.
Qed.

(** A handler that is the only one to take steps ends, step after step,
    where [run] says: with the same answer (or a panic), the same world and
    the same goroutines started. *)
Lemma interleave_alone (p : prog routine spec.Response) w rest :
  exists n, forall m, (n <= m)%nat ->
    exists p',
      interleave (replicate m 0%nat) (Handler p :: rest) w
      = (Handler p' :: rest ++ (Routine <$> (run p w).2), (run p w).1.2)
      /\ match (run p w).1.1 with
         | Some resp => p' = Return resp
         | None => exists msg, p' = Panic msg
         end.
Proof.
  revert w rest. induction p as [resp|X c k IH|g k IH|msg]; intros w rest.
  - exists 0%nat. intros m _. exists (Return resp).
    rewrite interleave_finished by done. cbn. by rewrite app_nil_r.
  - destruct (IH (perform c w).1 (perform c w).2 rest) as (n & Hn).
    exists (S n). intros [|m] Hm; [lia|].
    destruct (Hn m ltac:(lia)) as (p' & Hrun & Hres).
    exists p'. cbn [replicate interleave lookup list_lookup thread_step step run].
    destruct (perform c w) as [x w']. cbn [fst snd] in *.
    cbn [insert list_insert fmap list_fmap]. by rewrite app_nil_r.
  - destruct (IH w (rest ++ [Routine g])) as (n & Hn).
    exists (S n). intros [|m] Hm; [lia|].
    destruct (Hn m ltac:(lia)) as (p' & Hrun & Hres).
    exists p'. cbn [replicate interleave lookup list_lookup thread_step step run].
    cbn [insert list_insert fmap list_fmap app].
    destruct (run k w) as [[r w'] gs]. cbn [fst snd] in *.
    rewrite Hrun. by rewrite <- app_assoc.
  - exists 0%nat. intros m _. exists (Panic msg).
    rewrite interleave_finished by done. cbn. rewrite app_nil_r. eauto.
Qed.

End alone.

(** ** Two confirmations at the same time *)
Section two_calls.
Import exec.
Context {P : Type} (prog_of : P -> prog routine spec.Response)
        (advance : P -> bool -> P * bool) (models : bool -> World -> Prop).
Hypothesis models_pool :
  forall c w w', pool w' = pool w -> models c w -> models c w'.
Hypothesis models_step :
  forall ph c w,
    models c w ->
    exists w' gs,
      step (prog_of ph) w = (prog_of (advance ph c).1, w', gs)
      /\ models (advance ph c).2 w' /\ Forall reads_only gs.

Lemma step_reads_only (g : routine) w :
  reads_only g ->
  reads_only (step g w).1.1 /\ pool (step g w).1.2 = pool w /\ (step g w).2 = [].
Proof.
  destruct g as [x|X c k|[]|msg]; simpl; try done.
  intros [Hc Hk]. pose proof (perform_read c w Hc) as Hw.
  destruct (perform c w) as [x w']. simpl in *. auto.
Qed.

(** Two calls and the goroutines they have started, under a schedule: the
    calls go through the phases that [phases_after] gives. *)
Lemma two_calls_interleave schedule p0 p1 c gs w :
  models c w -> Forall reads_only gs ->
  exists gs' w',
    interleave schedule
               (Handler (prog_of p0) :: Handler (prog_of p1) :: (Routine <$> gs)) w
    = (Handler (prog_of (phases_after advance schedule p0 p1 c).1.1)
         :: Handler (prog_of (phases_after advance schedule p0 p1 c).1.2)
         :: (Routine <$> gs'), w')
    /\ models (phases_after advance schedule p0 p1 c).2 w'.
Proof.
  revert p0 p1 c gs w.
  induction schedule as [|i schedule IH]; intros p0 p1 c gs w Hm Hgs.
  { by exists gs, w. }
  destruct i as [|[|n]]; cbn [interleave lookup list_lookup phases_after thread_step].
  - destruct (models_step p0 c w Hm) as (w' & started & -> & Hm' & Hst).
    cbn [insert list_insert app]. rewrite <- fmap_app.
    apply IH; [done|by apply Forall_app].
  - destruct (models_step p1 c w Hm) as (w' & started & -> & Hm' & Hst).
    cbn [insert list_insert app]. rewrite <- fmap_app.
    apply IH; [done|by apply Forall_app].
  - destruct ((Routine <$> gs) !! n) as [t|] eqn:Hn; [|by apply IH].
    apply list_lookup_fmap_Some in Hn as (g & -> & Hg).
    pose proof (Forall_lookup_1 _ _ _ _ Hgs Hg) as Hread.
    destruct (step_reads_only g w Hread) as (Hread' & Hpool & _).
    cbn [thread_step]. destruct (step g w) as [[g' w'] started].
    cbn [fst snd] in *. rewrite app_nil_r.
    change (<[S (S n) := Routine g']>
              (Handler (prog_of p0) :: Handler (prog_of p1) :: (Routine <$> gs)))
      with (Handler (prog_of p0) :: Handler (prog_of p1)
              :: <[n := Routine g']> (Routine <$> gs)).
    rewrite <- (list_fmap_insert Routine gs n g').
    apply IH; [by apply (models_pool c w)|by apply Forall_insert].
Qed.

(** The phases after a schedule in two parts. *)
Lemma phases_after_app s1 s2 (p0 p1 : P) c :
  phases_after advance (s1 ++ s2) p0 p1 c
  = phases_after advance s2 (phases_after advance s1 p0 p1 c).1.1
                 (phases_after advance s1 p0 p1 c).1.2
                 (phases_after advance s1 p0 p1 c).2.
Proof.
  revert p0 p1 c. induction s1 as [|[|[|n]] s1 IH]; intros p0 p1 c;
    cbn [app phases_after]; [done|apply IH..].
Qed.

(** An invariant of the steps is an invariant of the schedules. *)
Lemma phases_after_invariant (I : P -> P -> bool -> Prop) schedule p0 p1 c :
  (forall p0 p1 c, I p0 p1 c -> I (advance p0 c).1 p1 (advance p0 c).2) ->
  (forall p0 p1 c, I p0 p1 c -> I p0 (advance p1 c).1 (advance p1 c).2) ->
  I p0 p1 c ->
  I (phases_after advance schedule p0 p1 c).1.1
    (phases_after advance schedule p0 p1 c).1.2
    (phases_after advance schedule p0 p1 c).2.
Proof.
  intros H0 H1. revert p0 p1 c.
  induction schedule as [|[|[|n]] schedule IH]; intros p0 p1 c Hi;
    cbn [phases_after]; auto.
Qed.

(** A call that takes no step stays in its phase, and the other call
    goes through the phases it goes through alone. *)
Lemma phases_after_first schedule (I : P -> bool -> Prop) p0 p1 c :
  1%nat ∉ schedule ->
  (forall p c, I p c -> I (advance p c).1 (advance p c).2) ->
  I p0 c ->
  (phases_after advance schedule p0 p1 c).1.2 = p1
  /\ I (phases_after advance schedule p0 p1 c).1.1
       (phases_after advance schedule p0 p1 c).2.
Proof.
  intros Hno Hstep. revert p0 c.
  induction schedule as [|[|[|n]] schedule IH]; intros p0 c Hi;
    cbn [phases_after]; [done|..].
  - apply IH; [by intros ?; apply Hno; right|by apply Hstep].
  - destruct Hno. left.
  - apply IH; [by intros ?; apply Hno; right|done].
Qed.

Lemma phases_after_second schedule (I : P -> bool -> Prop) p0 p1 c :
  0%nat ∉ schedule ->
  (forall p c, I p c -> I (advance p c).1 (advance p c).2) ->
  I p1 c ->
  (phases_after advance schedule p0 p1 c).1.1 = p0
  /\ I (phases_after advance schedule p0 p1 c).1.2
       (phases_after advance schedule p0 p1 c).2.
Proof.
  intros Hno Hstep. revert p1 c.
  induction schedule as [|[|[|n]] schedule IH]; intros p1 c Hi;
    cbn [phases_after]; [done|..].
  - destruct Hno. left.
  - apply IH; [by intros ?; apply Hno; right|by apply Hstep].
  - apply IH; [by intros ?; apply Hno; right|done].
Qed.

(** A call returns after the steps that are left to it. *)
Lemma phases_after_progress (todo : P -> nat) schedule p0 p1 c :
  (forall p c, (todo (advance p c).1 <= pred (todo p))%nat) ->
  (todo (phases_after advance schedule p0 p1 c).1.1
   <= todo p0 - steps_of 0 schedule)%nat
  /\ (todo (phases_after advance schedule p0 p1 c).1.2
      <= todo p1 - steps_of 1 schedule)%nat.
Proof.
  intros Hleft. revert p0 p1 c.
  induction schedule as [|[|[|n]] schedule IH]; intros p0 p1 c;
    cbn [phases_after]; unfold steps_of in *;
    rewrite ?filter_cons, ?filter_nil; cbn [length].
  - cbn [fst snd]. lia.
  - destruct (IH (advance p0 c).1 p1 (advance p0 c).2) as [IH0 IH1].
    rewrite decide_True, decide_False by done. cbn [length].
    pose proof (Hleft p0 c). lia.
  - destruct (IH p0 (advance p1 c).1 (advance p1 c).2) as [IH0 IH1].
    rewrite decide_False, decide_True by done. cbn [length].
    pose proof (Hleft p1 c). lia.
  - destruct (IH p0 p1 c) as [IH0 IH1].
    rewrite !decide_False by done. lia.
Qed.

End two_calls.

(** ** Every step of every thread *)
Section every_step.
Import pgstore api exec.
Context (L : Libs).
#[local] Arguments perform : simpl never.
#[local] Abbreviation a := (NewAPI (NewMailpit L)).

Lemma kept_halves db db' :
  confirmations_kept db db' <-> trips_kept db db' /\ participants_kept db db'.
Proof. done. Qed.

Lemma kept_same_pool w w' :
  pool w' = pool w ->
  confirmations_kept (store.tables (pool w)) (store.tables (pool w')).
Proof. intros ->. apply kept_refl. Qed.

(** A call that keeps the confirmations, in whatever world it is made. *)
Lemma perform_keeps {X} (c : Call X) w :
  keeps_confirmed c = true ->
  confirmations_kept (store.tables (pool w)) (store.tables (pool (perform c w).2)).
Proof.
  destruct c; intros Hk; try (by apply kept_same_pool, perform_read).
  - rewrite perform_CreateTrip. apply kept_CreateTrip.
  - rewrite perform_UpdateTrip.
    destruct (store.unreachable (pool w) store.QUpdateTrip); [apply kept_refl|].
    destruct (trips_of w !! utp_ID arg); [|apply kept_refl].
    apply (kept_insert_trip (store.tables (pool w))). by intros _ _ _.
  - rewrite perform_ConfirmParticipant.
    destruct (store.unreachable (pool w) store.QConfirmParticipant);
      [apply kept_refl|].
    destruct (participants_of w !! participantID) as [row|]; [|apply kept_refl].
    destruct (part_IsConfirmed row); [apply kept_refl|].
    apply (kept_insert_participant (store.tables (pool w))). by intros _ _ _.
  - rewrite perform_CreateActivity. apply kept_CreateActivity.
Qed.

(** No call takes the confirmation of a participant away. *)
Lemma perform_keeps_participants {X} (c : Call X) w :
  participants_kept (store.tables (pool w)) (store.tables (pool (perform c w).2)).
Proof.
  destruct (keeps_confirmed c) eqn:Hk; [exact (proj2 (perform_keeps c w Hk))|].
  destruct c; try done. rewrite perform_UpdateTrip. intros id row Hrow Hconf.
  destruct (store.unreachable (pool w) store.QUpdateTrip); [by eexists|].
  destruct (trips_of w !! utp_ID arg); by eexists.
Qed.

(** One step of a body that keeps the confirmations. *)
Lemma step_keeping (p : prog routine spec.Response) w :
  keeping p ->
  keeping (step p w).1.1 /\ Forall reads_only (step p w).2
  /\ confirmations_kept (store.tables (pool w)) (store.tables (pool (step p w).1.2)).
Proof.
  destruct p as [resp|X c k|g k|msg]; cbn [step keeping].
  - intros _. split; [done|]. split; [constructor|apply kept_refl].
  - intros [Hc Hk]. pose proof (perform_keeps c w Hc) as Hkept.
    destruct (perform c w) as [x w']. cbn [fst snd] in *.
    split; [apply Hk|]. split; [constructor|done].
  - intros [Hg Hk]. split; [done|].
    split; [by apply Forall_singleton|apply kept_refl].
  - intros _. split; [done|]. split; [constructor|apply kept_refl].
Qed.

(** The first step of [PutTripsTripID]: it reads. *)
Lemma PutTripsTripID_read r tripID w :
  updating L (step (PutTripsTripID L r tripID) w).1.1
  /\ (step (PutTripsTripID L r tripID) w).2 = []
  /\ pool (step (PutTripsTripID L r tripID) w).1.2 = pool w.
Proof.
  unfold PutTripsTripID. destruct (uuid_Parse L tripID) as [id|].
  2:{ split; [by apply updating_kept|done]. }
  cbn [step bind call]. rewrite perform_GetTrip. cbn [fst snd].
  split; [|done].
  destruct (if store.unreachable (pool w) store.QGetTrip then _ else _)
    as [trip|err].
  - cbn [bind]. destruct (json_Decode_UpdateTripRequest L (Body r)) as [body|err];
      [|by apply updating_kept].
    destruct (validator_Struct_UpdateTripRequest L body) as [err|];
      [by apply updating_kept|].
    cbn [bind call]. apply updating_write. intros [[]|err]; cbn; [done|].
    split; [done|]. by intros [].
  - cbn [bind]. apply updating_kept.
    destruct (errors_Is_ErrNoRows err); cbn; [done|]. split; [done|]. by intros [].
Qed.

(** One step of what is left of a [PutTripsTripID]. *)
Lemma step_updating p w :
  updating L p ->
  updating L (step p w).1.1 /\ Forall reads_only (step p w).2
  /\ participants_kept (store.tables (pool w)) (store.tables (pool (step p w).1.2))
  /\ (trips_kept (store.tables (pool w)) (store.tables (pool (step p w).1.2))
      \/ exists arg k, p = Do (store_UpdateTrip arg) k /\ utp_IsConfirmed arg = false).
Proof.
  destruct 1 as [r tripID|arg k Hk|p Hp].
  - destruct (PutTripsTripID_read r tripID w) as (Hnext & -> & Hpool).
    split; [done|]. split; [constructor|].
    destruct (kept_same_pool _ _ Hpool) as [Htrips Hparts]. auto.
  - cbn [step].
    pose proof (perform_keeps_participants (store_UpdateTrip arg) w) as Hparts.
    pose proof (perform_keeps (store_UpdateTrip arg) w) as Htrips.
    destruct (perform (store_UpdateTrip arg) w) as [x w']. cbn [fst snd] in *.
    split; [by apply updating_kept|]. split; [constructor|]. split; [done|].
    destruct (utp_IsConfirmed arg) eqn:Hflag; [|right; by eexists _, _].
    left. by apply kept_halves, Htrips.
  - destruct (step_keeping p w Hp) as (Hnext & Hgs & [Htrips Hparts]%kept_halves).
    split; [by apply updating_kept|]. auto.
Qed.

#[local] Ltac keeping_body :=
  repeat first
    [ progress cbn [keeping bind call keeps_confirmed utp_IsConfirmed]
    | exact I
    | reflexivity
    | apply go_PostTrips_reads_only
    | apply go_GetTripsTripIDConfirm_reads_only
    | split
    | intros ?
    | match goal with
      | |- keeping (match ?x with _ => _ end) => destruct x
      end ].

(** Every handler but [PutTripsTripID] keeps the confirmations at every
    call. *)
Lemma handle_keeping op r :
  (forall tripID, op <> OpPutTripsTripID tripID) -> keeping (handle L a op r).
Proof.
  intros Hop.
  destruct op as [participantID| | |tripID|tripID|tripID|tripID|tripID
                  |tripID|tripID|tripID|tripID]; cbn [handle]; try done.
  - unfold PatchParticipantsParticipantIDConfirm. keeping_body.
  - unfold PostTrips. keeping_body.
  - unfold GetTrips. keeping_body.
  - unfold GetTripsTripID. keeping_body.
  - by destruct (Hop tripID).
  - unfold GetTripsTripIDActivities. keeping_body.
  - unfold PostTripsTripIDActivities. keeping_body.
  - unfold GetTripsTripIDConfirm. keeping_body.
  - unfold GetTripsTripIDParticipants. keeping_body.
Qed.

(** The threads as they start. *)
Lemma threads_of_keep calls j t :
  threads_of L a calls !! j = Some t -> thread_keeps L calls j t.
Proof.
  unfold threads_of. intros ([op r] & -> & Hj)%list_lookup_fmap_Some.
  cbn [thread_keeps fst snd].
  destruct op; try (left; apply handle_keeping; by intros ? ?).
  right. split; [apply updating_read|by eexists _, _].
Qed.

(** One step of a thread: what it leaves of itself, what it starts, and
    what it does to the confirmations. *)
Lemma thread_step_keeps calls j t w :
  thread_keeps L calls j t ->
  thread_keeps L calls j (thread_step t w).1.1
  /\ Forall (fun t' => exists g, t' = Routine g /\ reads_only g) (thread_step t w).2
  /\ participants_kept (store.tables (pool w))
                       (store.tables (pool (thread_step t w).1.2))
  /\ (trips_kept (store.tables (pool w)) (store.tables (pool (thread_step t w).1.2))
      \/ exists tripID r arg k,
          calls !! j = Some (OpPutTripsTripID tripID, r)
          /\ t = Handler (Do (store_UpdateTrip arg) k)
          /\ utp_IsConfirmed arg = false).
Proof.
  destruct t as [p|g]; cbn [thread_keeps thread_step].
  - intros [Hp|[Hp (tripID & r & Hj)]].
    + destruct (step_keeping p w Hp) as (Hnext & Hgs & [Htrips Hparts]%kept_halves).
      destruct (step p w) as [[p' w'] gs]. cbn [fst snd] in *.
      split; [by left|]. split; [|by auto].
      apply Forall_fmap. eapply Forall_impl; [exact Hgs|]. intros g Hg. by exists g.
    + destruct (step_updating p w Hp) as (Hnext & Hgs & Hparts & Htrips).
      destruct (step p w) as [[p' w'] gs]. cbn [fst snd] in *.
      split; [right; split; [done|by eexists _, _]|]. split.
      { apply Forall_fmap. eapply Forall_impl; [exact Hgs|]. intros g Hg. by exists g. }
      split; [done|]. destruct Htrips as [Htrips|(arg & k & -> & Hflag)]; [by left|].
      right. by exists tripID, r, arg, k.
  - intros Hg. destruct (step_reads_only g w Hg) as (Hnext & Hpool & _).
    destruct (step g w) as [[g' w'] gs]. cbn [fst snd] in *.
    split; [done|]. split; [constructor|].
    destruct (kept_same_pool _ _ Hpool) as [Htrips Hparts]. auto.
Qed.

(** The threads keep being such threads, under every schedule. *)
Lemma interleave_keeps calls schedule ts w :
  (forall j t, ts !! j = Some t -> thread_keeps L calls j t) ->
  forall j t, (interleave schedule ts w).1 !! j = Some t -> thread_keeps L calls j t.
Proof.
  revert ts w. induction schedule as [|i schedule IH]; intros ts w Hts; [done|].
  cbn [interleave]. destruct (ts !! i) as [ti|] eqn:Hi; [|by apply IH].
  destruct (thread_step_keeps calls i ti w (Hts i ti Hi)) as (Hnext & Hgs & _).
  destruct (thread_step ti w) as [[ti' w'] started]. cbn [fst snd] in *.
  apply IH. intros j t [Hj|[Hlen Hj]]%lookup_app_Some.
  - apply list_lookup_insert_Some in Hj as [(-> & -> & _)|(Hne & Hj)]; auto.
  - apply list_elem_of_lookup_2 in Hj.
    destruct (proj1 (Forall_forall _ _) Hgs t Hj) as (g & -> & Hg). done.
Qed.

(** C2, as the code has it.  Requests served one after the other never
    take a confirmation away, of a trip or of a participant.  For whatever
    requests the service is handling at one time, each on its own thread
    and every query one step: no step takes the confirmation of a
    participant away, and no step takes the confirmation of a trip away
    but the [UpdateTrip] of a [PutTripsTripID] that writes is_confirmed =
    false.  [PutTripsTripID] writes back the is_confirmed it has read:
    after its read, its next step leaves the trips as they are or writes
    the trip it has read, with that is_confirmed, whatever the trips are
    by then; run on its own, it leaves the trip with the is_confirmed it
    had. *)
Theorem confirmation_is_monotonic :
  (forall w w', history L w w' ->
                confirmations_kept (store.tables (pool w)) (store.tables (pool w')))
  /\ (forall calls schedule i w,
         let before := interleave schedule (threads_of L a calls) w in
         let after := interleave (schedule ++ [i]) (threads_of L a calls) w in
         participants_kept (store.tables (pool before.2)) (store.tables (pool after.2))
         /\ (trips_kept (store.tables (pool before.2)) (store.tables (pool after.2))
             \/ exists tripID r arg k,
                 calls !! i = Some (OpPutTripsTripID tripID, r)
                 /\ before.1 !! i = Some (Handler (Do (store_UpdateTrip arg) k))
                 /\ utp_IsConfirmed arg = false))
  /\ (forall r tripID id trip w,
         uuid_Parse L tripID = Some id ->
         store.unreachable (pool w) store.QGetTrip = false ->
         trips_of w !! id = Some trip ->
         let read := step (PutTripsTripID L r tripID) w in
         read.1.2 = w
         /\ forall w1,
             trips_of (step read.1.1 w1).1.2 = trips_of w1
             \/ exists written,
                 trips_of w1 !! id <> None
                 /\ trips_of (step read.1.1 w1).1.2 = <[id := written]> (trips_of w1)
                 /\ trip_IsConfirmed written = trip_IsConfirmed trip)
  /\ (forall w r tripID id trip,
         uuid_Parse L tripID = Some id ->
         trips_of w !! id = Some trip ->
         exists trip',
           trips_of (run (PutTripsTripID L r tripID) w).1.2 !! id = Some trip'
           /\ trip_IsConfirmed trip' = trip_IsConfirmed trip).
Proof.
  split; [|split; [|split]].
  - induction 1 as [w|w w' op r _ IH|w w' un rf _ IH].
    + apply kept_refl.
    + eapply kept_trans; [exact IH|apply serve_kept].
    + exact IH.
  - intros calls schedule i w before after.
    assert (Hafter : after = interleave [i] before.1 before.2)
      by apply interleave_app.
    rewrite Hafter. cbn [interleave].
    destruct (before.1 !! i) as [t|] eqn:Hi.
    2:{ destruct (kept_refl (store.tables (pool before.2))) as [Htrips Hparts].
        auto. }
    pose proof (interleave_keeps calls schedule _ w (threads_of_keep calls) i t Hi)
      as Ht.
    destruct (thread_step_keeps calls i t before.2 Ht) as (_ & _ & Hparts & Htrips).
    destruct (thread_step t before.2) as [[t' w'] started]. cbn [fst snd] in *.
    split; [done|]. destruct Htrips as [Htrips|(tripID & r & arg & k & Hcall & -> & Hflag)];
      [by left|right]. by exists tripID, r, arg, k.
  - intros r tripID id trip w Hparse Hget Htrip read. subst read.
    unfold PutTripsTripID. rewrite Hparse. cbn [step bind call].
    rewrite perform_GetTrip, Hget, Htrip. cbn [fst snd bind].
    split; [done|]. intros w1.
    destruct (json_Decode_UpdateTripRequest L (Body r)) as [body|err]; [|by left].
    destruct (validator_Struct_UpdateTripRequest L body) as [err|]; [by left|].
    cbn [step bind call]. rewrite perform_UpdateTrip. cbn [utp_ID].
    destruct (store.unreachable (pool w1) store.QUpdateTrip); [by left|].
    destruct (trips_of w1 !! id) as [cur|] eqn:Hcur; [|by left].
    right. eexists. split; [done|]. by split.
  - intros w r tripID id trip Hparse Htrip.
    unfold PutTripsTripID. rewrite Hparse. cbn. rewrite perform_GetTrip, Htrip.
    destruct (store.unreachable (pool w) store.QGetTrip); [by exists trip|].
    cbn. destruct (json_Decode_UpdateTripRequest L (Body r)) as [body|err];
      [|by exists trip].
    destruct (validator_Struct_UpdateTripRequest L body) as [err|]; [by exists trip|].
    cbn. rewrite perform_UpdateTrip. cbn.
    destruct (store.unreachable (pool w) store.QUpdateTrip); [by exists trip|].
    rewrite Htrip. eexists. split; [apply lookup_insert_eq|done].
Qed.

End every_step.

(** *** Two confirmations of one trip *)
Section confirm_race.
Import pgstore api exec.
Context (L : Libs).
#[local] Arguments perform : simpl never.

Context (w0 : World) (id : UUID) (tripID : string) (trip : Trip).
Context (Hparse : uuid_Parse L tripID = Some id).
Context (Hreach : reachable w0 [store.QGetTrip; store.QUpdateTrip]).
Context (Htrip : trips_of w0 !! id = Some trip).
Context (Hconf : trip_IsConfirmed trip = false).

#[local] Abbreviation a := (NewAPI (NewMailpit L)).

(** The world while the two calls run: only the trip changes, and it is
    as [w0] has it or confirmed. *)
#[local] Abbreviation confirm_models :=
  (fun (c : bool) (w : World) =>
     store.unreachable (pool w) = store.unreachable (pool w0)
     /\ participants_of w = participants_of w0
     /\ activities_of w = activities_of w0
     /\ trips_of w = if c then <[id := confirmed_trip trip]> (trips_of w0)
                     else trips_of w0).

Lemma confirm_models_pool c w w' :
  pool w' = pool w -> confirm_models c w -> confirm_models c w'.
Proof.
  unfold trips_of, participants_of, activities_of. by intros ->.
Qed.

(** One step of a call. *)
Lemma confirm_models_step ph c w :
  confirm_models c w ->
  exists w' gs,
    step (at_phase L a id tripID trip ph) w
    = (at_phase L a id tripID trip (confirm_advance ph c).1, w', gs)
    /\ confirm_models (confirm_advance ph c).2 w' /\ Forall reads_only gs.
Proof.
  intros (Hun & Hpa & Hac & Htr).
  pose proof (reachable_cons_2 _ _ _ Hreach) as (Hget & Hupd & _).
  rewrite <- Hun in Hget, Hupd.
  assert (Hcur : trips_of w !! id = Some (if c then confirmed_trip trip else trip)).
  { rewrite Htr. destruct c; [apply lookup_insert_eq|done]. }
  destruct ph; cbn [confirm_advance fst snd].
  - exists w, []. split; [|done].
    unfold at_phase, GetTripsTripIDConfirm. rewrite Hparse.
    cbn [step bind call]. rewrite perform_GetTrip, Hget, Hcur.
    destruct c; [done|]. by rewrite Hconf.
  - eexists _, []. split; [|split; [|done]].
    + unfold at_phase. cbn [step bind call]. rewrite perform_UpdateTrip.
      cbn [utp_ID]. rewrite Hupd, Hcur. by destruct c.
    + repeat split; try done.
      change (trips_of (with_trips w ?m)) with m. rewrite Htr.
      destruct c; [apply insert_insert_eq|done].
  - exists w, [go_GetTripsTripIDConfirm a id tripID]. split; [done|]. split; [done|].
    apply Forall_singleton, go_GetTripsTripIDConfirm_reads_only.
  - by exists w, [].
  - by exists w, [].
Qed.

(** The answer of a call by its phase. *)
Lemma confirm_answer ph :
  response (Some (Handler (at_phase L a id tripID trip ph)))
  = match ph with
    | Succeeded => Some no_content
    | Refused => Some trip_already_confirmed
    | _ => None
    end.
Proof.
  destruct ph; try done. cbn [at_phase]. unfold GetTripsTripIDConfirm.
  by rewrite Hparse.
Qed.

(** The two calls under a schedule, by their phases. *)
Lemma confirm_race schedule (r1 r2 : Request) :
  let after := phases_after confirm_advance schedule Reading Reading false in
  let out := interleave schedule
                        [Handler (GetTripsTripIDConfirm L a r1 tripID);
                         Handler (GetTripsTripIDConfirm L a r2 tripID)] w0 in
  answer out 0 = response (Some (Handler (at_phase L a id tripID trip after.1.1)))
  /\ answer out 1 = response (Some (Handler (at_phase L a id tripID trip after.1.2)))
  /\ confirm_models after.2 out.2.
Proof.
  intros after out.
  destruct (two_calls_interleave (at_phase L a id tripID trip) confirm_advance
              confirm_models confirm_models_pool confirm_models_step
              schedule Reading Reading false [] w0)
    as (gs & w' & Hout & Hm); [done|done|].
  assert (Heq : out = (Handler (at_phase L a id tripID trip after.1.1)
                         :: Handler (at_phase L a id tripID trip after.1.2)
                         :: (Routine <$> gs), w')) by exact Hout.
  by rewrite Heq.
Qed.

End confirm_race.

(** *** Two confirmations of one participant *)
Section patch_race.
Import pgstore api exec.
Context (L : Libs).
#[local] Arguments perform : simpl never.

Context (w0 : World) (id : UUID) (participantID : string) (row : Participant).
Context (Hparse : uuid_Parse L participantID = Some id).
Context (Hreach : reachable w0 [store.QGetParticipant; store.QConfirmParticipant]).
Context (Hrow : participants_of w0 !! id = Some row).
Context (Hconf : part_IsConfirmed row = false).

(** The world while the two calls run: only the participant and the log
    change, and the participant is as [w0] has it or confirmed. *)
#[local] Abbreviation patch_models :=
  (fun (c : bool) (w : World) =>
     store.unreachable (pool w) = store.unreachable (pool w0)
     /\ trips_of w = trips_of w0
     /\ activities_of w = activities_of w0
     /\ participants_of w = if c then <[id := store.confirmed row]> (participants_of w0)
                            else participants_of w0).

Lemma patch_models_pool c w w' :
  pool w' = pool w -> patch_models c w -> patch_models c w'.
Proof.
  unfold trips_of, participants_of, activities_of. by intros ->.
Qed.

(** One step of a call. *)
Lemma patch_models_step ph c w :
  patch_models c w ->
  exists w' gs,
    step (patch_at_phase L id participantID ph) w
    = (patch_at_phase L id participantID (patch_advance ph c).1, w', gs)
    /\ patch_models (patch_advance ph c).2 w' /\ Forall reads_only gs.
Proof.
  intros (Hun & Htr & Hac & Hpa).
  pose proof (reachable_cons_2 _ _ _ Hreach) as (Hget & Hupd & _).
  rewrite <- Hun in Hget, Hupd.
  assert (Hcur : exists cur,
             participants_of w !! id = Some cur /\ part_IsConfirmed cur = c
             /\ store.confirmed cur = store.confirmed row).
  { rewrite Hpa. destruct c.
    - exists (store.confirmed row). by rewrite lookup_insert_eq.
    - exists row. by rewrite Hrow. }
  destruct Hcur as (cur & Hcur & Hflag & Hnew).
  destruct ph; cbn [patch_advance fst snd].
  - exists w, []. split; [|done].
    unfold patch_at_phase, PatchParticipantsParticipantIDConfirm. rewrite Hparse. cbn.
    rewrite perform_GetParticipant, Hget, Hcur, Hflag. by destruct c.
  - destruct c.
    + exists w, []. split; [|done].
      unfold patch_at_phase. cbn. rewrite perform_ConfirmParticipant.
      by rewrite Hupd, Hcur, Hflag.
    + eexists _, []. split; [|split; [|done]].
      * unfold patch_at_phase. cbn. rewrite perform_ConfirmParticipant.
        by rewrite Hupd, Hcur, Hflag, Hnew.
      * repeat split; try done.
        change (participants_of (with_tables w ?db)) with (store.participants db).
        cbn [store.participants]. by rewrite Hpa.
  - eexists _, []. split; [done|]. split; [|done].
    by apply (patch_models_pool c w).
  - by exists w, [].
  - by exists w, [].
  - by exists w, [].
Qed.

(** The answer of a call by its phase. *)
Lemma patch_answer ph :
  response (Some (Handler (patch_at_phase L id participantID ph)))
  = match ph with
    | PSucceeded => Some no_content
    | PRefused => Some participant_already_confirmed
    | PFailed => Some something_went_wrong
    | _ => None
    end.
Proof.
  destruct ph; try done. cbn [patch_at_phase].
  unfold PatchParticipantsParticipantIDConfirm. by rewrite Hparse.
Qed.

(** The two calls under a schedule, by their phases. *)
Lemma patch_race schedule (r1 r2 : Request) :
  let after := phases_after patch_advance schedule PReading PReading false in
  let out := interleave schedule
                        [Handler (PatchParticipantsParticipantIDConfirm L r1 participantID);
                         Handler (PatchParticipantsParticipantIDConfirm L r2 participantID)]
                        w0 in
  answer out 0 = response (Some (Handler (patch_at_phase L id participantID after.1.1)))
  /\ answer out 1
     = response (Some (Handler (patch_at_phase L id participantID after.1.2)))
  /\ patch_models after.2 out.2.
Proof.
  intros after out.
  destruct (two_calls_interleave (patch_at_phase L id participantID) patch_advance
              patch_models patch_models_pool patch_models_step
              schedule PReading PReading false [] w0)
    as (gs & w' & Hout & Hm); [done|done|].
  assert (Heq : out = (Handler (patch_at_phase L id participantID after.1.1)
                         :: Handler (patch_at_phase L id participantID after.1.2)
                         :: (Routine <$> gs), w')) by exact Hout.
  by rewrite Heq.
Qed.

End patch_race.

(** *** C9 *)
Section confirm_twice.
Import pgstore api exec.
Context (L : Libs).
#[local] Abbreviation a := (NewAPI (NewMailpit L)).

(** C9, as the code has it.  Two requests for the same confirmation,
    each on its own thread, every query one atomic step, the goroutines
    they start running along, and the store answering.

    Two [GetTripsTripIDConfirm] for a stored, unconfirmed trip.  Under
    every schedule only this trip changes, and it is as it was or
    confirmed; a call that has returned has answered 204 or "Trip already
    confirmed", and the trip is then confirmed; two calls that have
    returned have not both been refused; a call has returned once it has
    taken three steps.  When one call has returned before the other takes
    its first step, the first has answered 204 and the second, once
    returned, "Trip already confirmed".  When both calls have read the
    trip before either writes, both, once returned, have answered 204:
    the handler reads and then writes in two queries.

    Two [PatchParticipantsParticipantIDConfirm] for a stored, unconfirmed
    participant, [ConfirmParticipant] being the conditional write of the
    specification.  Under every schedule only this participant (and the
    log) changes, and it is as it was or confirmed; a call that has
    returned has answered 204, "Participant already confirmed" or
    "Something went wrong, try again", and the participant is then
    confirmed; of two calls that have returned exactly one has answered
    204; a call has returned once it has taken three steps.  When one call
    has returned before the other takes its first step, the answers are
    204 and "Participant already confirmed".  When both calls have read
    the participant before either writes, the answers are 204 and
    "Something went wrong, try again": the handler reports the rejected
    write as a failure. *)
Theorem concurrent_confirmations (w0 : World) :
  (forall (tripID : string) (id : UUID) (trip : Trip) (r1 r2 : Request),
      uuid_Parse L tripID = Some id ->
      reachable w0 [store.QGetTrip; store.QUpdateTrip] ->
      trips_of w0 !! id = Some trip ->
      trip_IsConfirmed trip = false ->
      let calls := [Handler (GetTripsTripIDConfirm L a r1 tripID);
                    Handler (GetTripsTripIDConfirm L a r2 tripID)] in
      let confirmed := <[id := confirmed_trip trip]> (trips_of w0) in
      (forall schedule,
          let out := interleave schedule calls w0 in
          participants_of out.2 = participants_of w0
          /\ activities_of out.2 = activities_of w0
          /\ (trips_of out.2 = trips_of w0 \/ trips_of out.2 = confirmed)
          /\ (forall resp,
                 answer out 0 = Some resp \/ answer out 1 = Some resp ->
                 (resp = no_content \/ resp = trip_already_confirmed)
                 /\ trips_of out.2 = confirmed)
          /\ ~ (answer out 0 = Some trip_already_confirmed
                /\ answer out 1 = Some trip_already_confirmed)
          /\ ((3 <= steps_of 0 schedule)%nat -> answer out 0 <> None)
          /\ ((3 <= steps_of 1 schedule)%nat -> answer out 1 <> None))
      /\ (forall s1 s2 first second,
             1%nat ∉ s1 ->
             answer (interleave s1 calls w0) 0 = Some first ->
             answer (interleave (s1 ++ s2) calls w0) 1 = Some second ->
             first = no_content /\ second = trip_already_confirmed)
      /\ (forall s1 s2 first second,
             0%nat ∉ s1 ->
             answer (interleave s1 calls w0) 1 = Some second ->
             answer (interleave (s1 ++ s2) calls w0) 0 = Some first ->
             second = no_content /\ first = trip_already_confirmed)
      /\ (forall i j rest first second,
             (i = 0 /\ j = 1)%nat \/ (i = 1 /\ j = 0)%nat ->
             let out := interleave (i :: j :: rest) calls w0 in
             answer out 0 = Some first -> answer out 1 = Some second ->
             first = no_content /\ second = no_content))
  /\ (forall (participantID : string) (id : UUID) (row : Participant)
             (r1 r2 : Request),
         uuid_Parse L participantID = Some id ->
         reachable w0 [store.QGetParticipant; store.QConfirmParticipant] ->
         participants_of w0 !! id = Some row ->
         part_IsConfirmed row = false ->
         let calls :=
           [Handler (PatchParticipantsParticipantIDConfirm L r1 participantID);
            Handler (PatchParticipantsParticipantIDConfirm L r2 participantID)] in
         let confirmed := <[id := store.confirmed row]> (participants_of w0) in
         (forall schedule,
             let out := interleave schedule calls w0 in
             trips_of out.2 = trips_of w0
             /\ activities_of out.2 = activities_of w0
             /\ (participants_of out.2 = participants_of w0
                 \/ participants_of out.2 = confirmed)
             /\ (forall resp,
                    answer out 0 = Some resp \/ answer out 1 = Some resp ->
                    (resp = no_content \/ resp = participant_already_confirmed
                     \/ resp = something_went_wrong)
                    /\ participants_of out.2 = confirmed)
             /\ (forall first second,
                    answer out 0 = Some first -> answer out 1 = Some second ->
                    (first = no_content /\ second <> no_content)
                    \/ (first <> no_content /\ second = no_content))
             /\ ((3 <= steps_of 0 schedule)%nat -> answer out 0 <> None)
             /\ ((3 <= steps_of 1 schedule)%nat -> answer out 1 <> None))
         /\ (forall s1 s2 first second,
                1%nat ∉ s1 ->
                answer (interleave s1 calls w0) 0 = Some first ->
                answer (interleave (s1 ++ s2) calls w0) 1 = Some second ->
                first = no_content /\ second = participant_already_confirmed)
         /\ (forall s1 s2 first second,
                0%nat ∉ s1 ->
                answer (interleave s1 calls w0) 1 = Some second ->
                answer (interleave (s1 ++ s2) calls w0) 0 = Some first ->
                second = no_content /\ first = participant_already_confirmed)
         /\ (forall i j rest first second,
                (i = 0 /\ j = 1)%nat \/ (i = 1 /\ j = 0)%nat ->
                let out := interleave (i :: j :: rest) calls w0 in
                answer out 0 = Some first -> answer out 1 = Some second ->
                (first = no_content /\ second = something_went_wrong)
                \/ (first = something_went_wrong /\ second = no_content))).
Proof.
  split.
  - intros tripID id trip r1 r2 Hparse Hreach Htrip Hconf calls confirmed.
    pose proof (fun schedule =>
                  confirm_race L w0 id tripID trip Hparse Hreach Htrip Hconf
                               schedule r1 r2) as Hrace.
    cbv zeta in Hrace. fold calls in Hrace.
    pose proof (confirm_answer L id tripID trip Hparse) as Hanswer.
    split; [|split; [|split]].
    + intros schedule out.
      destruct (Hrace schedule) as (H0 & H1 & _ & Hpa & Hac & Htr).
      fold out in H0, H1, Hpa, Hac, Htr. rewrite Hanswer in H0, H1.
      pose proof (phases_after_invariant
                    confirm_advance
                    (fun p0 p1 c => confirm_consistent p0 p1 c = true)
                    schedule Reading Reading false) as Hinv.
      cbv beta in Hinv.
      pose proof (phases_after_progress confirm_advance confirm_steps_left
                    schedule Reading Reading false) as Hleft.
      destruct (phases_after confirm_advance schedule Reading Reading false)
        as [[q0 q1] c]. cbn [fst snd] in *.
      assert (Hcons : confirm_consistent q0 q1 c = true).
      { apply Hinv; [by intros [] [] []..|done]. }
      destruct Hleft as [Hleft0 Hleft1]; [intros [] []; cbn; lia|].
      rewrite H0, H1. split; [done|]. split; [done|].
      split; [destruct c; auto|]. split; [|split; [|split]].
      * intros resp [Hresp|Hresp];
          destruct q0, q1, c; try done; injection Hresp as <-; auto.
      * intros [H0' H1']. by destruct q0, q1, c.
      * intros Hsteps. destruct q0; cbn in Hleft0; try done; lia.
      * intros Hsteps. destruct q1; cbn in Hleft1; try done; lia.
    + intros s1 s2 first second Hno.
      destruct (Hrace s1) as (H0 & _ & _). destruct (Hrace (s1 ++ s2)) as (_ & H1 & _).
      rewrite H0, H1, !Hanswer, phases_after_app.
      destruct (phases_after_first confirm_advance s1
                  (fun p c => confirm_alone p c = true) Reading Reading false Hno)
        as [Hstays Halone]; [by intros [] []|done|].
      pose proof (phases_after_invariant
                    confirm_advance
                    (fun p0 p1 c => p0 = Succeeded /\ c = true
                                    /\ (p1 = Reading \/ p1 = Refused))
                    s2) as Hinv.
      cbv beta in Hinv.
      destruct (phases_after confirm_advance s1 Reading Reading false)
        as [[q0 q1] c]. cbn [fst snd] in *. subst q1.
      intros Hfirst.
      assert (q0 = Succeeded /\ c = true) as [-> ->]
        by (by destruct q0, c).
      specialize (Hinv Succeeded Reading true).
      destruct Hinv as (_ & _ & Hsecond).
      { intros ? ? ? (-> & -> & ?). cbn. auto. }
      { intros ? ? ? (-> & -> & [->| ->]); cbn; auto. }
      { auto. }
      injection Hfirst as <-.
      destruct Hsecond as [Hsecond|Hsecond]; rewrite Hsecond; [done|].
      by intros [= <-].
    + intros s1 s2 first second Hno.
      destruct (Hrace s1) as (_ & H1 & _). destruct (Hrace (s1 ++ s2)) as (H0 & _ & _).
      rewrite H0, H1, !Hanswer, phases_after_app.
      destruct (phases_after_second confirm_advance s1
                  (fun p c => confirm_alone p c = true) Reading Reading false Hno)
        as [Hstays Halone]; [by intros [] []|done|].
      pose proof (phases_after_invariant
                    confirm_advance
                    (fun p0 p1 c => p1 = Succeeded /\ c = true
                                    /\ (p0 = Reading \/ p0 = Refused))
                    s2) as Hinv.
      cbv beta in Hinv.
      destruct (phases_after confirm_advance s1 Reading Reading false)
        as [[q0 q1] c]. cbn [fst snd] in *. subst q0.
      intros Hsecond.
      assert (q1 = Succeeded /\ c = true) as [-> ->]
        by (by destruct q1, c).
      specialize (Hinv Reading Succeeded true).
      destruct Hinv as (_ & _ & Hfirst).
      { intros ? ? ? (-> & -> & [->| ->]); cbn; auto. }
      { intros ? ? ? (-> & -> & ?). cbn. auto. }
      { auto. }
      injection Hsecond as <-.
      destruct Hfirst as [Hfirst|Hfirst]; rewrite Hfirst; [done|].
      by intros [= <-].
    + intros i j rest first second Hij out.
      destruct (Hrace (i :: j :: rest)) as (H0 & H1 & _).
      fold out in H0, H1. rewrite H0, H1, !Hanswer.
      pose proof (phases_after_invariant
                    confirm_advance
                    (fun p0 p1 c => read_unconfirmed p0 = true
                                    /\ read_unconfirmed p1 = true)
                    rest Writing Writing false) as Hinv.
      cbv beta in Hinv.
      assert (Hboth : phases_after confirm_advance (i :: j :: rest)
                                   Reading Reading false
                      = phases_after confirm_advance rest Writing Writing false)
        by (by destruct Hij as [[-> ->]|[-> ->]]).
      rewrite Hboth.
      destruct (phases_after confirm_advance rest Writing Writing false)
        as [[q0 q1] c]. cbn [fst snd] in *.
      destruct Hinv as [Hq0 Hq1];
        [by intros [] [] [] []..|done|].
      destruct q0, q1; try done. by intros [= <-] [= <-].
  - intros participantID id row r1 r2 Hparse Hreach Hrow Hconf calls confirmed.
    pose proof (fun schedule =>
                  patch_race L w0 id participantID row Hparse Hreach Hrow Hconf
                             schedule r1 r2) as Hrace.
    cbv zeta in Hrace. fold calls in Hrace.
    pose proof (patch_answer L id participantID Hparse) as Hanswer.
    split; [|split; [|split]].
    + intros schedule out.
      destruct (Hrace schedule) as (H0 & H1 & _ & Htr & Hac & Hpa).
      fold out in H0, H1, Hpa, Hac, Htr. rewrite Hanswer in H0, H1.
      pose proof (phases_after_invariant
                    patch_advance
                    (fun p0 p1 c => patch_consistent p0 p1 c = true)
                    schedule PReading PReading false) as Hinv.
      cbv beta in Hinv.
      pose proof (phases_after_progress patch_advance patch_steps_left
                    schedule PReading PReading false) as Hleft.
      destruct (phases_after patch_advance schedule PReading PReading false)
        as [[q0 q1] c]. cbn [fst snd] in *.
      assert (Hcons : patch_consistent q0 q1 c = true).
      { apply Hinv; [by intros [] [] []..|done]. }
      destruct Hleft as [Hleft0 Hleft1]; [intros [] []; cbn; lia|].
      rewrite H0, H1. split; [done|]. split; [done|].
      split; [destruct c; auto|]. split; [|split; [|split]].
      * intros resp [Hresp|Hresp];
          destruct q0, q1, c; try done; injection Hresp as <-; auto.
      * intros first second Hfirst Hsecond.
        destruct q0, q1, c; try done;
          injection Hfirst as <-; injection Hsecond as <-;
          solve [by left|by right].
      * intros Hsteps. destruct q0; cbn in Hleft0; try done; lia.
      * intros Hsteps. destruct q1; cbn in Hleft1; try done; lia.
    + intros s1 s2 first second Hno.
      destruct (Hrace s1) as (H0 & _ & _). destruct (Hrace (s1 ++ s2)) as (_ & H1 & _).
      rewrite H0, H1, !Hanswer, phases_after_app.
      destruct (phases_after_first patch_advance s1
                  (fun p c => patch_alone p c = true) PReading PReading false Hno)
        as [Hstays Halone]; [by intros [] []|done|].
      pose proof (phases_after_invariant
                    patch_advance
                    (fun p0 p1 c => p0 = PSucceeded /\ c = true
                                    /\ (p1 = PReading \/ p1 = PRefused))
                    s2) as Hinv.
      cbv beta in Hinv.
      destruct (phases_after patch_advance s1 PReading PReading false)
        as [[q0 q1] c]. cbn [fst snd] in *. subst q1.
      intros Hfirst.
      assert (q0 = PSucceeded /\ c = true) as [-> ->]
        by (by destruct q0, c).
      specialize (Hinv PSucceeded PReading true).
      destruct Hinv as (_ & _ & Hsecond).
      { intros ? ? ? (-> & -> & ?). cbn. auto. }
      { intros ? ? ? (-> & -> & [->| ->]); cbn; auto. }
      { auto. }
      injection Hfirst as <-.
      destruct Hsecond as [Hsecond|Hsecond]; rewrite Hsecond; [done|].
      by intros [= <-].
    + intros s1 s2 first second Hno.
      destruct (Hrace s1) as (_ & H1 & _). destruct (Hrace (s1 ++ s2)) as (H0 & _ & _).
      rewrite H0, H1, !Hanswer, phases_after_app.
      destruct (phases_after_second patch_advance s1
                  (fun p c => patch_alone p c = true) PReading PReading false Hno)
        as [Hstays Halone]; [by intros [] []|done|].
      pose proof (phases_after_invariant
                    patch_advance
                    (fun p0 p1 c => p1 = PSucceeded /\ c = true
                                    /\ (p0 = PReading \/ p0 = PRefused))
                    s2) as Hinv.
      cbv beta in Hinv.
      destruct (phases_after patch_advance s1 PReading PReading false)
        as [[q0 q1] c]. cbn [fst snd] in *. subst q0.
      intros Hsecond.
      assert (q1 = PSucceeded /\ c = true) as [-> ->]
        by (by destruct q1, c).
      specialize (Hinv PReading PSucceeded true).
      destruct Hinv as (_ & _ & Hfirst).
      { intros ? ? ? (-> & -> & [->| ->]); cbn; auto. }
      { intros ? ? ? (-> & -> & ?). cbn. auto. }
      { auto. }
      injection Hsecond as <-.
      destruct Hfirst as [Hfirst|Hfirst]; rewrite Hfirst; [done|].
      by intros [= <-].
    + intros i j rest first second Hij out.
      destruct (Hrace (i :: j :: rest)) as (H0 & H1 & _).
      fold out in H0, H1. rewrite H0, H1, !Hanswer.
      pose proof (phases_after_invariant
                    patch_advance
                    (fun p0 p1 c => patch_consistent p0 p1 c = true
                                    /\ patch_read_unconfirmed p0 = true
                                    /\ patch_read_unconfirmed p1 = true)
                    rest PWriting PWriting false) as Hinv.
      cbv beta in Hinv.
      assert (Hboth : phases_after patch_advance (i :: j :: rest)
                                   PReading PReading false
                      = phases_after patch_advance rest PWriting PWriting false)
        by (by destruct Hij as [[-> ->]|[-> ->]]).
      rewrite Hboth.
      destruct (phases_after patch_advance rest PWriting PWriting false)
        as [[q0 q1] c]. cbn [fst snd] in *.
      destruct Hinv as (Hcons & Hq0 & Hq1);
        [by intros [] [] [] (? & ? & ?)..|done|].
      destruct q0, q1, c; try done; intros [= <-] [= <-]; auto.
Qed.

End confirm_twice.

(** ** The properties on the sample data *)
Section on_sample.
Import pgstore api exec.

#[local] Abbreviation mailpit_api := (NewAPI (NewMailpit sample.libs)).
#[local] Abbreviation request := (mkRequest "").

Lemma sample_reachable qs : reachable sample.world qs.
Proof. apply Forall_forall. by intros q _. Qed.

(** The trip to Rio is confirmed once; the id 9 is not stored. *)
Lemma confirm_trip_once_witness :
  (run (GetTripsTripIDConfirm sample.libs mailpit_api request "id-1") sample.world).1.1
  = Some no_content
  /\ (run (GetTripsTripIDConfirm sample.libs mailpit_api request "id-1")
          (run (GetTripsTripIDConfirm sample.libs mailpit_api request "id-1")
               sample.world).1.2).1.1
     = Some trip_already_confirmed
  /\ (run (GetTripsTripIDConfirm sample.libs mailpit_api request "id-9") sample.world).1.1
     = Some trip_not_found.
Proof.
  pose proof (confirm_trip_once sample.libs (NewMailpit sample.libs) sample.world
                                request "id-1" 1%N eq_refl (sample_reachable _))
    as [Hfirst _].
  destruct (Hfirst sample.rio eq_refl eq_refl) as [H204 Hnext].
  split; [exact H204|]. split.
  - exact (proj2 (Hnext _ request eq_refl)).
  - exact (proj2 (confirm_trip_once sample.libs (NewMailpit sample.libs) sample.world
                                    request "id-9" 9%N eq_refl (sample_reachable _))
                 eq_refl).
Defined.

(** Bob confirms once; the id 9 is not a participant. *)
Lemma confirm_participant_once_witness :
  (run (PatchParticipantsParticipantIDConfirm sample.libs request "id-2")
       sample.world).1.1 = Some no_content
  /\ (run (PatchParticipantsParticipantIDConfirm sample.libs request "id-2")
          (run (PatchParticipantsParticipantIDConfirm sample.libs request "id-2")
               sample.world).1.2).1.1
     = Some participant_already_confirmed
  /\ (run (PatchParticipantsParticipantIDConfirm sample.libs request "id-9")
          sample.world).1.1 = Some participant_not_found.
Proof.
  pose proof (confirm_participant_once sample.libs sample.world request "id-2" 2%N
                                       eq_refl (sample_reachable _)) as [Hfirst _].
  destruct (Hfirst sample.bob eq_refl eq_refl) as (H204 & _ & Hnext).
  split; [exact H204|]. split.
  - exact (Hnext _ request eq_refl).
  - exact (proj1 (proj2 (confirm_participant_once sample.libs sample.world request
                                                  "id-9" 9%N eq_refl
                                                  (sample_reachable _)))
                 eq_refl).
Defined.

(** Updating the id 9, which is not stored, leaves the sample world. *)
Lemma update_absent_trip_writes_nothing_witness :
  run (PutTripsTripID sample.libs (mkRequest "rio") "id-9") sample.world
  = (Some trip_not_found, sample.world, []).
Proof.
  exact (proj2 (proj2 (proj2
           (update_absent_trip_writes_nothing sample.libs sample.world
              (mkRequest "rio") "id-9" 9%N eq_refl eq_refl))) eq_refl).
Defined.

(** Confirming the trip to Rio leaves Bob and Ana as they are. *)
Lemma confirm_trip_changes_only_is_confirmed_witness :
  exists id trip,
    uuid_Parse sample.libs "id-1" = Some id
    /\ trips_of sample.world !! id = Some trip
    /\ let w' := (run (GetTripsTripIDConfirm sample.libs mailpit_api request "id-1")
                      sample.world).1.2 in
       trips_of w' !! id
       = Some (mkTrip (trip_ID trip) (trip_Destination trip) (trip_OwnerEmail trip)
                      (trip_OwnerName trip) true
                      (trip_StartsAt trip) (trip_EndsAt trip))
       /\ (forall id', id' ≠ id -> trips_of w' !! id' = trips_of sample.world !! id')
       /\ participants_of w' = participants_of sample.world
       /\ activities_of w' = activities_of sample.world
       /\ store.tables
            (pool (serve (GetTripsTripIDConfirm sample.libs mailpit_api request "id-1")
                         sample.world).2)
          = store.tables (pool w').
Proof.
  exact (confirm_trip_changes_only_is_confirmed
           sample.libs (NewMailpit sample.libs) sample.world request "id-1" eq_refl).
Defined.

(** With Carol invited too and a server that refuses Bob's mail: Carol
    comes first and is sent to, Bob's message is refused and its error
    returned, and Ana, who comes last, is not sent to. *)
Lemma sending_stops_at_the_first_failure_witness :
  let w := with_smtp world_with_carol sample.refuses_bob in
  run (mailpit.SendConfirmTripEmailToTripParticipants sample.libs (G:=Empty_set) 1%N) w
  = (Some (Some (Errorf "mailpit: failed to send email for SendConfirmTripEmailToTripParticipants"
                        (ErrLib "550 mailbox unavailable"))),
     seen w [(mailpit.participant_msg sample.libs sample.rio carol, true);
             (mailpit.participant_msg sample.libs sample.rio sample.bob, false)],
     []).
Proof.
  intros w.
  destruct (sending_stops_at_the_first_failure
              sample.libs w 1%N sample.rio [carol] [sample.ana] sample.bob)
    as [Hfailing _].
  - by repeat constructor.
  - reflexivity.
  - by repeat constructor.
  - destruct (Hfailing eq_refl) as (_ & _ & _ & Hrefused).
    exact (Hrefused _ eq_refl eq_refl eq_refl eq_refl).
Defined.

(** Two confirmations of the trip to Rio and two of Bob, each pair having
    read before either call writes: both calls for the trip return, and
    with 204; both calls for Bob return, one with 204 and the other with
    "Something went wrong, try again". *)
Lemma concurrent_confirmations_witness :
  let trips := [Handler (GetTripsTripIDConfirm sample.libs mailpit_api request "id-1");
                Handler (GetTripsTripIDConfirm sample.libs mailpit_api request "id-1")] in
  let bobs :=
    [Handler (PatchParticipantsParticipantIDConfirm sample.libs request "id-2");
     Handler (PatchParticipantsParticipantIDConfirm sample.libs request "id-2")] in
  (answer (interleave [0; 1; 0; 1; 0; 1]%nat trips sample.world) 0 = Some no_content
   /\ answer (interleave [0; 1; 0; 1; 0; 1]%nat trips sample.world) 1 = Some no_content)
  /\ ((answer (interleave [0; 1; 0; 0; 1; 1]%nat bobs sample.world) 0 = Some no_content
       /\ answer (interleave [0; 1; 0; 0; 1; 1]%nat bobs sample.world) 1
          = Some something_went_wrong)
      \/ (answer (interleave [0; 1; 0; 0; 1; 1]%nat bobs sample.world) 0
          = Some something_went_wrong
          /\ answer (interleave [0; 1; 0; 0; 1; 1]%nat bobs sample.world) 1
             = Some no_content)).
Proof.
  intros trips bobs.
  destruct (concurrent_confirmations sample.libs sample.world) as [Htrip Hbob].
  destruct (Htrip "id-1" 1%N sample.rio request request
                  eq_refl (sample_reachable _) eq_refl eq_refl)
    as (Hsafe & _ & _ & Hboth).
  destruct (Hbob "id-2" 2%N sample.bob request request
                 eq_refl (sample_reachable _) eq_refl eq_refl)
    as (Hsafe' & _ & _ & Hboth').
  split.
  - destruct (Hsafe [0; 1; 0; 1; 0; 1]%nat) as (_ & _ & _ & _ & _ & Hlive0 & Hlive1).
    specialize (Hboth 0%nat 1%nat [0; 1; 0; 1]%nat).
    fold trips in Hlive0, Hlive1, Hboth.
    destruct (answer (interleave [0; 1; 0; 1; 0; 1]%nat trips sample.world) 0)
      as [first|] eqn:H0; [|by destruct Hlive0; [vm_compute; lia|]].
    destruct (answer (interleave [0; 1; 0; 1; 0; 1]%nat trips sample.world) 1)
      as [second|] eqn:H1; [|by destruct Hlive1; [vm_compute; lia|]].
    by destruct (Hboth first second (or_introl (conj eq_refl eq_refl)) H0 H1)
      as [-> ->].
  - destruct (Hsafe' [0; 1; 0; 0; 1; 1]%nat) as (_ & _ & _ & _ & _ & Hlive0 & Hlive1).
    specialize (Hboth' 0%nat 1%nat [0; 0; 1; 1]%nat).
    fold bobs in Hlive0, Hlive1, Hboth'.
    destruct (answer (interleave [0; 1; 0; 0; 1; 1]%nat bobs sample.world) 0)
      as [first|] eqn:H0; [|by destruct Hlive0; [vm_compute; lia|]].
    destruct (answer (interleave [0; 1; 0; 0; 1; 1]%nat bobs sample.world) 1)
      as [second|] eqn:H1; [|by destruct Hlive1; [vm_compute; lia|]].
    destruct (Hboth' first second (or_introl (conj eq_refl eq_refl)) H0 H1)
      as [[-> ->]|[-> ->]]; auto.
Defined.

(** The trip to Rio is confirmed and then updated: it stays confirmed. *)
Lemma confirmation_is_monotonic_witness :
  let w1 := (serve (handle sample.libs mailpit_api (OpGetTripsTripIDConfirm "id-1")
                           request) sample.world).2 in
  let w2 := (serve (handle sample.libs mailpit_api (OpPutTripsTripID "id-1")
                           (mkRequest "rio")) w1).2 in
  history sample.libs sample.world w2
  /\ trip_IsConfirmed <$> trips_of w1 !! 1%N = Some true
  /\ confirmations_kept (store.tables (pool w1)) (store.tables (pool w2)).
Proof.
  intros w1 w2.
  assert (H1 : history sample.libs sample.world w1)
    by apply history_serve, history_refl.
  assert (H2 : history sample.libs w1 w2) by apply history_serve, history_refl.
  split; [by apply history_serve|]. split; [reflexivity|].
  exact (proj1 (confirmation_is_monotonic sample.libs) w1 w2 H2).
Defined.

(** A new trip is answered with 201 by an API whose mailer always fails. *)
Lemma answer_independent_of_notification_witness :
  (run (PostTrips sample.libs (NewAPI sample.failing_mailer) (mkRequest "rio"))
       sample.world).1.1
  = Some (spec.JSON201Response (spec.CreateTripResponse "id-2")).
Proof.
  exact (proj1 (proj2 (proj2 (proj2 (proj2
           (answer_independent_of_notification sample.libs)))))
           sample.failing_mailer sample.world (mkRequest "rio") sample.rio_request 2%N
           eq_refl eq_refl eq_refl).
Defined.

(** C7 fails on the code: the server refuses Bob's mail, Bob comes
    first, and Ana is never sent to. *)
Lemma a_refused_recipient_ends_the_sending :
  ~ recipients_after_a_failure_attempted
      sample.libs (with_smtp sample.world sample.refuses_bob) 1%N.
Proof.
  intros H.
  specialize (H sample.rio [] sample.bob [sample.ana] sample.ana eq_refl eq_refl).
  assert (Hrefused : smtp_refuses (with_smtp sample.world sample.refuses_bob)
                       (mailpit.participant_msg sample.libs sample.rio sample.bob)
                     ≠ None) by (vm_compute; discriminate).
  assert (Hin : sample.ana ∈ [sample.ana]) by left.
  specialize (H Hrefused Hin). vm_compute in H. discriminate H.
Qed.

(** C9 fails on the code, for trips and for participants.  When both
    calls read the trip to Rio before either writes, both succeed.  When
    both calls read Bob before either writes, one succeeds and the other
    answers "Something went wrong, try again", not "Participant already
    confirmed". *)
Lemma overlapping_confirmations_miss_the_refusal :
  let trips := [Handler (GetTripsTripIDConfirm sample.libs mailpit_api request "id-1");
                Handler (GetTripsTripIDConfirm sample.libs mailpit_api request "id-1")] in
  let bobs :=
    [Handler (PatchParticipantsParticipantIDConfirm sample.libs request "id-2");
     Handler (PatchParticipantsParticipantIDConfirm sample.libs request "id-2")] in
  let out := interleave [0; 1; 0; 1; 0; 1]%nat trips sample.world in
  let out' := interleave [0; 1; 0; 1; 1]%nat bobs sample.world in
  ~ exactly_one_success trip_already_confirmed (answer out 0) (answer out 1)
  /\ ~ exactly_one_success participant_already_confirmed
                           (answer out' 0) (answer out' 1).
Proof.
  intros trips bobs out out'.
  assert (H0 : answer out 0 = Some no_content) by (vm_compute; reflexivity).
  assert (H1 : answer out 1 = Some no_content) by (vm_compute; reflexivity).
  assert (H0' : answer out' 0 = Some no_content) by (vm_compute; reflexivity).
  assert (H1' : answer out' 1 = Some something_went_wrong)
    by (vm_compute; reflexivity).
  rewrite H0, H1, H0', H1'. split; intros [[_ H]|[H _]]; discriminate H.
Qed.

(** C2 fails on the code: an update of the trip to Rio reads the trip, a
    confirmation of the trip runs to its end, and the next step, the
    write of the update, leaves the trip unconfirmed. *)
Lemma a_late_write_takes_a_confirmation_away :
  ~ every_step_keeps_confirmations sample.libs mailpit_api.
Proof.
  intros Hkeeps.
  destruct (Hkeeps [(OpPutTripsTripID "id-1", mkRequest "rio");
                    (OpGetTripsTripIDConfirm "id-1", request)]
                   [0; 1; 1; 1]%nat 0%nat sample.world) as [Htrips _].
  destruct (Htrips 1%N (confirmed_trip sample.rio)) as (trip' & Hleft & Hconfirmed).
  - vm_compute. reflexivity.
  - reflexivity.
  - vm_compute in Hleft. injection Hleft as <-. discriminate Hconfirmed.
Qed.

End on_sample.

(** * Further properties of the handlers *)

(** ** The remaining handlers, run from start to end *)
Section more_runs.
Import pgstore api.
Context (L : Libs).
#[local] Arguments perform : simpl never.

Lemma with_new_pool_same w : with_new_pool w (pool w) = w.
Proof. by destruct w. Qed.

(** [PutTripsTripID] run from start to end. *)
Lemma run_PutTripsTripID r tripID w :
  run (PutTripsTripID L r tripID) w
  = match uuid_Parse L tripID with
    | None => (Some (spec.JSON400Response "Invalid trip ID"), w, [])
    | Some id =>
        if store.unreachable (pool w) store.QGetTrip
        then (Some something_went_wrong,
              logged w "Failed to get trip" store.ErrConn [("trip_id", tripID)], [])
        else
          match trips_of w !! id with
          | None => (Some trip_not_found, w, [])
          | Some trip =>
              match json_Decode_UpdateTripRequest L (Body r) with
              | Err err =>
                  (Some (spec.JSON400Response ("Invalid JSON: " +:+ Error err)), w, [])
              | Ok body =>
                  match validator_Struct_UpdateTripRequest L body with
                  | Some err =>
                      (Some (spec.JSON400Response
                               ("Invalid request body: " +:+ Error err)), w, [])
                  | None =>
                      if store.unreachable (pool w) store.QUpdateTrip
                      then (Some something_went_wrong,
                            logged w "Failed to update trip" store.ErrConn
                                   [("trip_id", tripID)], [])
                      else (Some no_content,
                            with_trips w (<[id := updated_trip body trip]> (trips_of w)),
                            [])
                  end
              end
          end
    end.
Proof.
  unfold PutTripsTripID. destruct (uuid_Parse L tripID) as [id|]; [|done].
  cbn. rewrite perform_GetTrip.
  destruct (store.unreachable (pool w) store.QGetTrip); [done|].
  destruct (trips_of w !! id) as [trip|] eqn:Htrip; [|done]. cbn.
  destruct (json_Decode_UpdateTripRequest L (Body r)) as [body|err]; [|done].
  destruct (validator_Struct_UpdateTripRequest L body) as [err|]; [done|].
  cbn. rewrite perform_UpdateTrip. cbn.
  destruct (store.unreachable (pool w) store.QUpdateTrip); [done|].
  by rewrite Htrip.
Qed.

(** [PostTripsTripIDActivities] run from start to end. *)
Lemma run_PostTripsTripIDActivities r tripID w :
  run (PostTripsTripIDActivities L r tripID) w
  = match uuid_Parse L tripID with
    | None => (Some (spec.JSON400Response "Invalid trip ID"), w, [])
    | Some id =>
        match json_Decode_CreateActivityRequest L (Body r) with
        | Err err =>
            (Some (spec.JSON400Response ("Invalid JSON: " +:+ Error err)), w, [])
        | Ok body =>
            match validator_Struct_CreateActivityRequest L body with
            | Some err =>
                (Some (spec.JSON400Response ("Invalid request body: " +:+ Error err)),
                 w, [])
            | None =>
                let arg := mkCreateActivityParams
                             id (spec.car_Title body)
                             (pgtype.mkTimestamp (spec.car_OccursAt body) true) in
                let w' := with_new_pool w (store.CreateActivity arg (pool w)).2 in
                match (store.CreateActivity arg (pool w)).1 with
                | Err err =>
                    (Some something_went_wrong,
                     logged w' "Failed to create activity" err [("trip_id", tripID)], [])
                | Ok activityID =>
                    (Some (spec.JSON201Response
                             (spec.CreateActivityResponse (uuid_String L activityID))),
                     w', [])
                end
            end
        end
    end.
Proof.
  unfold PostTripsTripIDActivities. destruct (uuid_Parse L tripID) as [id|]; [|done].
  destruct (json_Decode_CreateActivityRequest L (Body r)) as [body|err]; [|done].
  destruct (validator_Struct_CreateActivityRequest L body) as [err|]; [done|].
  cbn. rewrite perform_CreateActivity.
  by destruct (store.CreateActivity _ (pool w)).1.
Qed.

(** [GetTrips] run from start to end. *)
Lemma run_GetTrips r w :
  run (GetTrips L r) w
  = match (store.GetAllTrips (pool w)).1 with
    | Ok trips =>
        (Some (spec.JSON200Response (spec.GetTripsResponse (trip_obj L <$> trips))),
         w, [])
    | Err err =>
        if errors_Is_ErrNoRows err
        then (Some (spec.JSON400Response "No trips found"), w, [])
        else (Some something_went_wrong, logged w "Failed to get trips" err [], [])
    end.
Proof.
  unfold GetTrips. cbn. rewrite perform_GetAllTrips.
  destruct (store.GetAllTrips (pool w)).1 as [trips|err]; [done|].
  by destruct (errors_Is_ErrNoRows err).
Qed.

(** [GetTripsTripIDActivities] run from start to end. *)
Lemma run_GetTripsTripIDActivities r tripID w :
  run (GetTripsTripIDActivities L r tripID) w
  = match uuid_Parse L tripID with
    | None => (Some (spec.JSON400Response "Invalid trip ID"), w, [])
    | Some id =>
        match (store.GetTripActivities id (pool w)).1 with
        | Ok activities =>
            (Some (spec.JSON200Response
                     (spec.GetTripActivitiesResponse
                        (aggregation.bucket (uuid_String L) activities
                           <$> (aggregation.differentDates_of activities).1))),
             w, [])
        | Err err =>
            if errors_Is_ErrNoRows err
            then (Some (spec.JSON400Response "Activities not found"), w, [])
            else (Some something_went_wrong,
                  logged w "Failed to get activities" err [("trip_id", tripID)], [])
        end
    end.
Proof.
  unfold GetTripsTripIDActivities. destruct (uuid_Parse L tripID) as [id|]; [|done].
  cbn. rewrite perform_GetTripActivities.
  destruct (store.GetTripActivities id (pool w)).1 as [acts|err]; cbn.
  - by rewrite groupByDate_buckets.
  - by destruct (errors_Is_ErrNoRows err).
Qed.

(** [GetTripsTripIDParticipants] run from start to end. *)
Lemma run_GetTripsTripIDParticipants r tripID w :
  run (GetTripsTripIDParticipants L r tripID) w
  = match uuid_Parse L tripID with
    | None => (Some (spec.JSON400Response "Invalid trip ID"), w, [])
    | Some id =>
        if store.unreachable (pool w) store.QGetTrip
        then (Some something_went_wrong,
              logged w "Failed to get trip" store.ErrConn [("trip_id", tripID)], [])
        else
          match trips_of w !! id with
          | None => (Some trip_not_found, w, [])
          | Some trip =>
              match (store.GetParticipants (trip_ID trip) (pool w)).1 with
              | Ok participants =>
                  (Some (spec.JSON200Response
                           (spec.GetTripParticipantsResponse
                              (participant_obj L <$> participants))), w, [])
              | Err err =>
                  (Some something_went_wrong,
                   logged w "Failed to get participants" err [("trip_id", tripID)], [])
              end
          end
    end.
Proof.
  unfold GetTripsTripIDParticipants. destruct (uuid_Parse L tripID) as [id|]; [|done].
  cbn. rewrite perform_GetTrip.
  destruct (store.unreachable (pool w) store.QGetTrip); [done|].
  destruct (trips_of w !! id) as [trip|]; [|done]. cbn.
  rewrite perform_GetParticipants.
  by destruct (store.GetParticipants _ (pool w)).1.
Qed.

(** A query that fails leaves the pool as it was. *)
Lemma CreateTrip_failed body p err :
  (store.CreateTrip body p).1 = Err err -> (store.CreateTrip body p).2 = p.
Proof. unfold store.CreateTrip. by destruct (store.unreachable p _). Qed.

Lemma CreateActivity_failed arg p err :
  (store.CreateActivity arg p).1 = Err err -> (store.CreateActivity arg p).2 = p.
Proof.
  unfold store.CreateActivity. destruct (store.unreachable p _); [done|].
  by destruct (_ !! _).
Qed.

Lemma CreateTrip_outages body p :
  store.unreachable (store.CreateTrip body p).2 = store.unreachable p.
Proof. unfold store.CreateTrip. by destruct (store.unreachable p _). Qed.

Lemma CreateActivity_outages arg p :
  store.unreachable (store.CreateActivity arg p).2 = store.unreachable p.
Proof.
  unfold store.CreateActivity. destruct (store.unreachable p _); [done|].
  by destruct (_ !! _).
Qed.

(** Every handler that is written ends in one of the three ways. *)
Lemma handle_outcome (a : API) op r w :
  implemented op = true -> outcome w (run (handle L a op r) w).
Proof.
  assert (Hplain : forall msg, outcome w (Some (spec.JSON400Response msg), w, [])).
  { intros msg. apply outcome_answered; [done|]. unfold known_code. simpl. auto. }
  destruct op as [participantID| | |tripID|tripID|tripID|tripID|tripID
                  |tripID|tripID|tripID|tripID]; intros Himpl; try done; cbn [handle].
  - rewrite run_PatchParticipantsParticipantIDConfirm.
    destruct (uuid_Parse L participantID) as [id|]; [|done].
    destruct (store.unreachable (pool w) store.QGetParticipant);
      [apply outcome_failed|].
    destruct (participants_of w !! id) as [row|]; [|apply Hplain].
    destruct (part_IsConfirmed row); [apply Hplain|].
    destruct (store.unreachable (pool w) store.QConfirmParticipant);
      [apply outcome_failed|].
    apply outcome_written; simpl; auto. by repeat split.
  - rewrite run_PostTrips.
    destruct (json_Decode_CreateTripRequest L (Body r)) as [body|err]; [|done].
    destruct (validator_Struct_CreateTripRequest L body) as [err|]; [done|].
    cbv zeta. destruct (store.CreateTrip body (pool w)).1 as [tripID|err] eqn:Hc.
    + apply outcome_written; simpl; auto; [by repeat split|apply CreateTrip_outages].
    + rewrite (CreateTrip_failed _ _ _ Hc), with_new_pool_same. apply Hplain.
  - rewrite run_GetTrips.
    destruct (store.GetAllTrips (pool w)).1 as [trips|err].
    + apply outcome_answered; [done|]. unfold known_code. simpl. auto.
    + destruct (errors_Is_ErrNoRows err); [apply Hplain|apply outcome_failed].
  - rewrite run_GetTripsTripID.
    destruct (uuid_Parse L tripID) as [id|]; [|done].
    destruct (store.unreachable (pool w) store.QGetTrip); [apply outcome_failed|].
    destruct (trips_of w !! id); [|apply Hplain].
    apply outcome_answered; [done|]. unfold known_code. simpl. auto.
  - rewrite run_PutTripsTripID.
    destruct (uuid_Parse L tripID) as [id|]; [|done].
    destruct (store.unreachable (pool w) store.QGetTrip); [apply outcome_failed|].
    destruct (trips_of w !! id) as [trip|]; [|apply Hplain].
    destruct (json_Decode_UpdateTripRequest L (Body r)) as [body|err]; [|done].
    destruct (validator_Struct_UpdateTripRequest L body) as [err|]; [done|].
    destruct (store.unreachable (pool w) store.QUpdateTrip); [apply outcome_failed|].
    apply outcome_written; simpl; auto. by repeat split.
  - rewrite run_GetTripsTripIDActivities.
    destruct (uuid_Parse L tripID) as [id|]; [|done].
    destruct (store.GetTripActivities id (pool w)).1 as [acts|err].
    + apply outcome_answered; [done|]. unfold known_code. simpl. auto.
    + destruct (errors_Is_ErrNoRows err); [apply Hplain|apply outcome_failed].
  - rewrite run_PostTripsTripIDActivities.
    destruct (uuid_Parse L tripID) as [id|]; [|done].
    destruct (json_Decode_CreateActivityRequest L (Body r)) as [body|err]; [|done].
    destruct (validator_Struct_CreateActivityRequest L body) as [err|]; [done|].
    cbv zeta. destruct (store.CreateActivity _ (pool w)).1 as [activityID|err] eqn:Hc.
    + apply outcome_written; simpl; auto;
        [by repeat split|apply CreateActivity_outages].
    + rewrite (CreateActivity_failed _ _ _ Hc), with_new_pool_same.
      apply outcome_failed.
  - rewrite run_GetTripsTripIDConfirm.
    destruct (uuid_Parse L tripID) as [id|]; [|done].
    destruct (store.unreachable (pool w) store.QGetTrip); [apply outcome_failed|].
    destruct (trips_of w !! id) as [trip|]; [|apply Hplain].
    destruct (trip_IsConfirmed trip); [apply Hplain|].
    destruct (store.unreachable (pool w) store.QUpdateTrip); [apply outcome_failed|].
    apply outcome_written; simpl; auto. by repeat split.
  - rewrite run_GetTripsTripIDParticipants.
    destruct (uuid_Parse L tripID) as [id|]; [|done].
    destruct (store.unreachable (pool w) store.QGetTrip); [apply outcome_failed|].
    destruct (trips_of w !! id) as [trip|]; [|apply Hplain].
    destruct (store.GetParticipants _ (pool w)).1; [|apply outcome_failed].
    apply outcome_answered; [done|]. unfold known_code. simpl. auto.
Qed.

End more_runs.

(** ** The counters of the aggregation *)
Section aggregation_counters.
Import pgstore aggregation.
Variable uuid_String : UUID -> string.

(** [*date.Amount++] on an entry of the day of [a]. *)
#[local] Abbreviation counted_once a :=
  (fun d : DateAmount =>
     if sameDate (da_Time d) (occurs a)
     then mkDateAmount (da_Time d) (da_Amount d + 1) else d).

Lemma bump_from a (pre dd : list DateAmount) :
  foldl (fun dd i =>
           match dd !! i with
           | Some date =>
               if sameDate (da_Time date) (pgtype.Time (act_OccursAt a))
               then <[i := mkDateAmount (da_Time date) (da_Amount date + 1)]> dd
               else dd
           | None => dd
           end)
        (pre ++ dd) (seq (length pre) (length dd))
  = pre ++ (counted_once a <$> dd).
Proof.
  revert pre. induction dd as [|d dd IH]; intros pre; [done|].
  cbn [length seq foldl].
  rewrite (list_lookup_middle pre dd d (length pre) eq_refl).
  assert (Hnext : forall d' : DateAmount,
             pre ++ d' :: dd = (pre ++ [d']) ++ dd /\
             S (length pre) = length (pre ++ [d'])).
  { intros d'. rewrite <- app_assoc, length_app. simpl. split; [done|lia]. }
  fold (occurs a). destruct (sameDate (da_Time d) (occurs a)) eqn:Hs.
  - rewrite (insert_app_r_alt pre (d :: dd) (length pre)) by lia.
    rewrite Nat.sub_diag. cbn [insert list_insert].
    destruct (Hnext (mkDateAmount (da_Time d) (da_Amount d + 1))) as [-> ->].
    unfold occurs. rewrite IH. rewrite <- app_assoc. cbn [fmap list_fmap app].
    fold (occurs a). by rewrite Hs.
  - destruct (Hnext d) as [-> ->].
    unfold occurs. rewrite IH. rewrite <- app_assoc. cbn [fmap list_fmap app].
    fold (occurs a). by rewrite Hs.
Qed.

(** The counting loop adds one to the entries of the day of [a] and
    leaves the others. *)
Lemma bump_counts a dd : bump a dd = counted_once a <$> dd.
Proof. exact (bump_from a [] dd). Qed.

(** The activities of [acts] on the day of the entry [item]. *)
#[local] Abbreviation on_day item acts :=
  (filter (fun a => sameDate (da_Time item) (occurs a) = true) acts).

Lemma counters_step acts dd qtd a :
  collected acts dd qtd ->
  Forall (fun item => da_Amount item = Z.of_nat (length (on_day item acts))) dd ->
  Forall (fun item => da_Amount item = Z.of_nat (length (on_day item (acts ++ [a]))))
         (collect (dd, qtd) a).1.
Proof.
  intros Hc Hn. pose proof (seen_iff _ _ _ a Hc) as Hseen.
  unfold collect. fold (occurs a).
  destruct (existsb _ dd) eqn:Hex; simpl.
  - rewrite bump_counts. apply Forall_fmap, Forall_forall. intros d Hd. simpl.
    pose proof (proj1 (Forall_forall _ _) Hn d Hd) as Hcount. simpl in Hcount.
    rewrite filter_app, length_app, filter_cons, filter_nil.
    destruct (sameDate (da_Time d) (occurs a)) eqn:Hs; cbn [da_Time da_Amount];
      rewrite Hs; destruct (decide _) as [He|He]; try done; simpl; lia.
  - apply Forall_app. split.
    + apply Forall_forall. intros d Hd.
      pose proof (proj1 (Forall_forall _ _) Hn d Hd) as Hcount. simpl in Hcount.
      rewrite filter_app, length_app, filter_cons, filter_nil.
      assert (Hs : sameDate (da_Time d) (occurs a) = false).
      { destruct (sameDate (da_Time d) (occurs a)) eqn:Hs; [|done].
        assert (existsb (fun item => sameDate (da_Time item) (occurs a)) dd = true)
          as Habs; [|congruence].
        apply existsb_exists. exists d. split; [by apply list_elem_of_In|done]. }
      rewrite Hs, decide_False by done. simpl. lia.
    + apply Forall_singleton. simpl. fold (day a).
      rewrite filter_app, length_app, filter_cons, filter_nil.
      rewrite decide_True by by apply sameDate_day. simpl.
      assert (Hnone : filter (fun b => sameDate (day a) (occurs b) = true) acts = []).
      { destruct (filter _ acts) as [|b rest] eqn:Hf; [done|]. exfalso.
        assert (b ∈ filter (fun b => sameDate (day a) (occurs b) = true) acts)
          as [Hs Hb]%list_elem_of_filter by (rewrite Hf; left).
        apply sameDate_day in Hs.
        assert (day a ∈ da_Time <$> dd) as Hin
          by (apply (col_days _ _ _ Hc); exists b; by split).
        apply Hseen in Hin. congruence. }
      by rewrite Hnone.
Qed.

Lemma counters_collected acts :
  Forall (fun item => da_Amount item = Z.of_nat (length (on_day item acts)))
         (differentDates_of acts).1.
Proof.
  induction acts as [|a acts IH] using rev_ind; [constructor|].
  pose proof (differentDates_collected acts) as Hc.
  unfold differentDates_of in *. rewrite foldl_app. simpl.
  destruct (foldl collect ([], 0) acts) as [dd qtd]. by apply counters_step.
Qed.

(** X1.  The counters of the first loop are exact: [qtd] is the number of
    entries of [differentDates], so that [make(..., qtd)] has one slot per
    entry, and the [Amount] of an entry, the capacity asked for its
    bucket, is the number of activities the second loop appends to that
    bucket. *)
Theorem counters_are_exact (acts : list Activity) :
  (differentDates_of acts).2 = Z.of_nat (length (differentDates_of acts).1)
  /\ forall i item,
       (differentDates_of acts).1 !! i = Some item ->
       da_Amount item
       = Z.of_nat (length (activitiesInnerResponse uuid_String item acts)).
Proof.
  split; [apply (col_qtd _ _ _ (differentDates_collected acts))|].
  intros i item Hi.
  rewrite activitiesInnerResponse_filter, length_fmap.
  exact (Forall_lookup_1 _ _ _ _ (counters_collected acts) Hi).
Qed.

(** X2.  No bucket of the answer is empty, and there are at most as many
    buckets as activities: without activities the answer is the empty
    list. *)
Theorem no_bucket_is_empty (acts : list Activity) :
  exists buckets,
    groupByDate uuid_String acts = Some buckets
    /\ Forall (fun b => spec.outer_Activities b <> []) buckets
    /\ (length buckets <= length acts)%nat.
Proof.
  pose proof (differentDates_collected acts) as Hc.
  exists (bucket uuid_String acts <$> (differentDates_of acts).1).
  split; [apply groupByDate_buckets|]. split.
  - apply Forall_forall. intros b Hb.
    apply bucket_content in Hb as (c & Hc' & _ & ->).
    intros Hnil. apply fmap_nil_inv in Hnil.
    assert (c ∈ filter (fun a => day a = day c) acts) as Hin
      by by apply list_elem_of_filter.
    rewrite Hnil in Hin. by apply elem_of_nil in Hin.
  - rewrite length_fmap, <- (length_fmap da_Time), <- (length_fmap day acts).
    apply submseteq_length, NoDup_submseteq; [apply (col_nodup _ _ _ Hc)|].
    intros d Hd. apply (col_days _ _ _ Hc) in Hd as (a & Ha & ->).
    by apply list_elem_of_fmap_2.
Qed.

(** X3.  The order of the input decides the order of the answer and
    nothing else: for a permutation of the activities the dates of the
    buckets are a permutation of the dates before, and buckets of the same
    date hold permutations of the same entries. *)
Theorem reordering_reorders (acts acts' : list Activity) :
  acts ≡ₚ acts' ->
  exists buckets buckets',
    groupByDate uuid_String acts = Some buckets
    /\ groupByDate uuid_String acts' = Some buckets'
    /\ spec.outer_Date <$> buckets ≡ₚ spec.outer_Date <$> buckets'
    /\ forall b b', b ∈ buckets -> b' ∈ buckets' ->
                    spec.outer_Date b = spec.outer_Date b' ->
                    spec.outer_Activities b ≡ₚ spec.outer_Activities b'.
Proof.
  intros Hp.
  pose proof (differentDates_collected acts) as Hc.
  pose proof (differentDates_collected acts') as Hc'.
  exists (bucket uuid_String acts <$> (differentDates_of acts).1),
         (bucket uuid_String acts' <$> (differentDates_of acts').1).
  split; [apply groupByDate_buckets|]. split; [apply groupByDate_buckets|]. split.
  - rewrite !bucket_dates.
    apply NoDup_Permutation;
      [apply (col_nodup _ _ _ Hc)|apply (col_nodup _ _ _ Hc')|].
    intros d. rewrite (col_days _ _ _ Hc), (col_days _ _ _ Hc').
    split; intros (a & Ha & ->); exists a; (split; [|done]).
    + by rewrite <- Hp.
    + by rewrite Hp.
  - intros b b' Hb Hb' Hd.
    apply bucket_content in Hb as (c & _ & Hdc & ->).
    apply bucket_content in Hb' as (c' & _ & Hdc' & ->).
    assert (day c = day c') as -> by congruence.
    by rewrite Hp.
Qed.

End aggregation_counters.

Lemma reordering_reorders_witness :
  exists buckets buckets',
    aggregation.groupByDate (uuid_String sample.libs)
      [sample.museum; sample.arrival; sample.dinner] = Some buckets
    /\ aggregation.groupByDate (uuid_String sample.libs)
         [sample.arrival; sample.museum; sample.dinner] = Some buckets'
    /\ spec.outer_Date <$> buckets ≡ₚ spec.outer_Date <$> buckets'
    /\ forall b b', b ∈ buckets -> b' ∈ buckets' ->
                    spec.outer_Date b = spec.outer_Date b' ->
                    spec.outer_Activities b ≡ₚ spec.outer_Activities b'.
Proof.
  apply (reordering_reorders (uuid_String sample.libs)
           [sample.museum; sample.arrival; sample.dinner]
           [sample.arrival; sample.museum; sample.dinner]).
  apply perm_swap.
Defined.

(** ** What every handler does *)
Section handler_facts.
Import pgstore api.
Context (L : Libs) (a : API).

Lemma handle_panics op r w :
  implemented op = false -> run (handle L a op r) w = (None, w, []).
Proof. by destruct op. Qed.

(** A handler that is written returns, with one of the four codes. *)
Lemma handlers_outcome_code op r w :
  implemented op = true ->
  exists resp, (run (handle L a op r) w).1.1 = Some resp
               /\ known_code (spec.Code resp).
Proof.
  intros Himpl.
  destruct (handle_outcome L a op r w Himpl) as [resp Hjson Hcode|msg err fields
                                                 |resp w' gs Hjson Hcode _ _ _].
  - by exists resp.
  - exists something_went_wrong. split; [done|]. unfold known_code. simpl. auto.
  - exists resp. split; [done|]. unfold known_code. destruct Hcode as [->| ->]; auto.
Qed.

(** X4.  A path parameter that [uuid.Parse] refuses is answered 400, with
    "Invalid participant ID" by the participant handler and "Invalid trip
    ID" by the trip handlers, before the body is read or the store is
    asked: the world is left as it was and no goroutine is started. *)
Theorem malformed_id_is_refused (op : Operation) (r : Request) (w : World)
        (param : string) :
  implemented op = true ->
  path_id op = Some param ->
  uuid_Parse L param = None ->
  run (handle L a op r) w = (Some (invalid_id op), w, []).
Proof.
  intros Himpl Hid Hparse.
  destruct op; try done; simpl in Hid; injection Hid as ->; cbn [handle invalid_id].
  - by rewrite run_PatchParticipantsParticipantIDConfirm, Hparse.
  - by rewrite run_GetTripsTripID, Hparse.
  - by rewrite run_PutTripsTripID, Hparse.
  - by rewrite run_GetTripsTripIDActivities, Hparse.
  - by rewrite run_PostTripsTripIDActivities, Hparse.
  - by rewrite run_GetTripsTripIDConfirm, Hparse.
  - by rewrite run_GetTripsTripIDParticipants, Hparse.
Qed.

(** X5.  The nine handlers that are written always return a response:
    JSON, with one of the codes 200, 201, 204 and 400 and no other (a
    failure of the store is a 400, too).  The three that are not written,
    [PostTripsTripIDInvites], [GetTripsTripIDLinks] and
    [PostTripsTripIDLinks], panic and return nothing. *)
Theorem handlers_answer_json_or_panic (op : Operation) (r : Request) (w : World) :
  if implemented op
  then exists resp,
      (run (handle L a op r) w).1.1 = Some resp
      /\ spec.contentType resp = "application/json"
      /\ known_code (spec.Code resp)
  else (run (handle L a op r) w).1.1 = None.
Proof.
  destruct (implemented op) eqn:Himpl; [|by rewrite handle_panics].
  destruct (handle_outcome L a op r w Himpl) as [resp Hjson Hcode|msg err fields
                                                 |resp w' gs Hjson Hcode _ _ _].
  - by exists resp.
  - exists something_went_wrong. split; [done|]. split; [done|].
    unfold known_code. simpl. auto.
  - exists resp. split; [done|]. split; [done|].
    unfold known_code. destruct Hcode as [->| ->]; auto.
Qed.

(** X6.  A handler that answers 400 has written nothing: the pool is as
    it was, no goroutine is started and no mail is sent. *)
Theorem a_refusal_writes_nothing (op : Operation) (r : Request) (w : World) :
  spec.Code <$> (run (handle L a op r) w).1.1 = Some 400 ->
  pool (run (handle L a op r) w).1.2 = pool w
  /\ (run (handle L a op r) w).2 = []
  /\ smtp_seen (run (handle L a op r) w).1.2 = smtp_seen w.
Proof.
  destruct (implemented op) eqn:Himpl; [|by rewrite handle_panics].
  destruct (handle_outcome L a op r w Himpl) as [resp Hjson Hcode|msg err fields
                                                 |resp w' gs Hjson Hcode _ _ _];
    simpl; [done..|].
  intros [= H400]. destruct Hcode; lia.
Qed.

(** X7.  The log and the mail server, as the handlers leave them.  A
    handler sends no mail itself.  It writes at most one log entry, and
    then it answers "Something went wrong, try again", with the pool as
    it was and no goroutine started. *)
Theorem handlers_log_failures_only (op : Operation) (r : Request) (w : World) :
  smtp_seen (run (handle L a op r) w).1.2 = smtp_seen w
  /\ (zap_log (run (handle L a op r) w).1.2 = zap_log w
      \/ exists entry,
          zap_log (run (handle L a op r) w).1.2 = zap_log w ++ [entry]
          /\ (run (handle L a op r) w).1.1 = Some something_went_wrong
          /\ pool (run (handle L a op r) w).1.2 = pool w
          /\ (run (handle L a op r) w).2 = []).
Proof.
  destruct (implemented op) eqn:Himpl; [|rewrite handle_panics by done; auto].
  destruct (handle_outcome L a op r w Himpl) as [resp Hjson Hcode|msg err fields
                                                 |resp w' gs Hjson Hcode Hsame _ _];
    simpl.
  - auto.
  - split; [done|]. right. by eexists.
  - destruct Hsame as (_ & Hseen & Hlog). auto.
Qed.

(** X8.  A goroutine is started by a successful [PostTrips] and by a
    successful [GetTripsTripIDConfirm], one each, for the trip created or
    confirmed, and by no other call of a handler. *)
Theorem goroutines_follow_success (op : Operation) (r : Request) (w : World) :
  ((run (handle L a op r) w).2 = []
   /\ (op = OpPostTrips -> spec.Code <$> (run (handle L a op r) w).1.1 <> Some 201)
   /\ (forall tripID, op = OpGetTripsTripIDConfirm tripID ->
                      spec.Code <$> (run (handle L a op r) w).1.1 <> Some 204))
  \/ (exists id body,
         op = OpPostTrips
         /\ json_Decode_CreateTripRequest L (Body r) = Ok body
         /\ (store.CreateTrip body (pool w)).1 = Ok id
         /\ (run (handle L a op r) w).1.1
            = Some (spec.JSON201Response (spec.CreateTripResponse (uuid_String L id)))
         /\ (run (handle L a op r) w).2 = [go_PostTrips L a id body])
  \/ (exists tripID id,
         op = OpGetTripsTripIDConfirm tripID
         /\ uuid_Parse L tripID = Some id
         /\ (run (handle L a op r) w).1.1 = Some no_content
         /\ (run (handle L a op r) w).2 = [go_GetTripsTripIDConfirm a id tripID]).
Proof.
  destruct op as [participantID| | |tripID|tripID|tripID|tripID|tripID
                  |tripID|tripID|tripID|tripID]; cbn [handle].
  - left. rewrite run_PatchParticipantsParticipantIDConfirm.
    by repeat case_match.
  - rewrite run_PostTrips. cbv zeta.
    destruct (json_Decode_CreateTripRequest L (Body r)) as [body|err];
      [|left; by repeat split].
    destruct (validator_Struct_CreateTripRequest L body) as [err|];
      [left; by repeat split|].
    destruct (store.CreateTrip body (pool w)).1 as [tripID|err] eqn:Hc;
      [|left; by repeat split].
    right. left. by exists tripID, body.
  - left. rewrite run_GetTrips. by repeat case_match.
  - left. rewrite run_GetTripsTripID. by repeat case_match.
  - left. rewrite run_PutTripsTripID. by repeat case_match.
  - left. rewrite run_GetTripsTripIDActivities. by repeat case_match.
  - left. rewrite run_PostTripsTripIDActivities. cbv zeta. by repeat case_match.
  - rewrite run_GetTripsTripIDConfirm.
    destruct (uuid_Parse L tripID) as [id|] eqn:Hparse;
      [|left; repeat split; try done; by intros ? [= <-]].
    destruct (store.unreachable (pool w) store.QGetTrip);
      [left; repeat split; try done; by intros ? [= <-]|].
    destruct (trips_of w !! id) as [trip|];
      [|left; repeat split; try done; by intros ? [= <-]].
    destruct (trip_IsConfirmed trip);
      [left; repeat split; try done; by intros ? [= <-]|].
    destruct (store.unreachable (pool w) store.QUpdateTrip);
      [left; repeat split; try done; by intros ? [= <-]|].
    right. right. by exists tripID, id.
  - by left.
  - by left.
  - by left.
  - left. rewrite run_GetTripsTripIDParticipants. by repeat case_match.
Qed.

End handler_facts.

(** ** Updating a trip *)
Section update_trip_facts.
Import pgstore api.
Context (L : Libs).

(** What a [PutTripsTripID] that answers 204 has gone through. *)
Lemma PutTripsTripID_succeeded r tripID w :
  (run (PutTripsTripID L r tripID) w).1.1 = Some no_content ->
  exists id trip body,
    uuid_Parse L tripID = Some id
    /\ store.unreachable (pool w) store.QGetTrip = false
    /\ trips_of w !! id = Some trip
    /\ json_Decode_UpdateTripRequest L (Body r) = Ok body
    /\ validator_Struct_UpdateTripRequest L body = None
    /\ store.unreachable (pool w) store.QUpdateTrip = false
    /\ run (PutTripsTripID L r tripID) w
       = (Some no_content,
          with_trips w (<[id := updated_trip body trip]> (trips_of w)), []).
Proof.
  rewrite run_PutTripsTripID.
  destruct (uuid_Parse L tripID) as [id|]; [|done].
  destruct (store.unreachable (pool w) store.QGetTrip); [done|].
  destruct (trips_of w !! id) as [trip|] eqn:Htrip; [|done].
  destruct (json_Decode_UpdateTripRequest L (Body r)) as [body|err]; [|done].
  destruct (validator_Struct_UpdateTripRequest L body) as [err|] eqn:Hv; [done|].
  destruct (store.unreachable (pool w) store.QUpdateTrip); [done|].
  intros _. by exists id, trip, body.
Qed.

(** X9.  A [PutTripsTripID] that answers 204 has replaced the
    destination and the two dates of the trip by those of the body, the
    dates marked valid, and nothing else: the trip keeps its id, its owner
    and its is_confirmed, every other trip, the participants, the
    activities, the log and the mail server are as before, and no
    goroutine is started, so that no mail tells of the change. *)
Theorem update_replaces_destination_and_dates (r : Request) (tripID : string)
        (w : World) :
  (run (PutTripsTripID L r tripID) w).1.1 = Some no_content ->
  exists id trip body,
    uuid_Parse L tripID = Some id
    /\ trips_of w !! id = Some trip
    /\ json_Decode_UpdateTripRequest L (Body r) = Ok body
    /\ let w' := (run (PutTripsTripID L r tripID) w).1.2 in
       trips_of w' !! id
       = Some (mkTrip (trip_ID trip) (spec.utr_Destination body)
                      (trip_OwnerEmail trip) (trip_OwnerName trip)
                      (trip_IsConfirmed trip)
                      (pgtype.mkTimestamp (spec.utr_StartsAt body) true)
                      (pgtype.mkTimestamp (spec.utr_EndsAt body) true))
       /\ (forall id', id' ≠ id -> trips_of w' !! id' = trips_of w !! id')
       /\ participants_of w' = participants_of w
       /\ activities_of w' = activities_of w
       /\ same_outside w w'
       /\ (run (PutTripsTripID L r tripID) w).2 = [].
Proof.
  intros (id & trip & body & Hparse & _ & Htrip & Hbody & _ & _ & ->)
         %PutTripsTripID_succeeded.
  exists id, trip, body. do 3 (split; [done|]). cbn [fst snd].
  split; [apply lookup_insert_eq|].
  split; [intros id' Hne; by apply lookup_insert_ne|]. done.
Qed.

(** X10.  An update that has succeeded can be repeated: the same request
    is answered 204 again and leaves the world the first one left. *)
Theorem update_is_idempotent (r : Request) (tripID : string) (w : World) :
  (run (PutTripsTripID L r tripID) w).1.1 = Some no_content ->
  let w' := (run (PutTripsTripID L r tripID) w).1.2 in
  run (PutTripsTripID L r tripID) w' = (Some no_content, w', []).
Proof.
  intros (id & trip & body & Hparse & Hget & Htrip & Hbody & Hvalid & Hupd & ->)
         %PutTripsTripID_succeeded.
  cbn [fst snd]. rewrite run_PutTripsTripID, Hparse.
  change (store.unreachable (pool (with_trips w _))) with (store.unreachable (pool w)).
  rewrite Hget, Hbody, Hvalid, Hupd.
  change (trips_of (with_trips w (<[id:=updated_trip body trip]> (trips_of w))))
    with (<[id:=updated_trip body trip]> (trips_of w)).
  rewrite lookup_insert_eq, insert_insert_eq. done.
Qed.

(** X11.  What [PutTripsTripID] has written, [GetTripsTripID] reads: after
    an update that answered 204 the trip is reported with the destination
    and the dates of the body and with the is_confirmed it had. *)
Theorem updated_trip_is_read_back (r r' : Request) (tripID : string) (w : World) :
  (run (PutTripsTripID L r tripID) w).1.1 = Some no_content ->
  exists id trip body,
    uuid_Parse L tripID = Some id
    /\ trips_of w !! id = Some trip
    /\ json_Decode_UpdateTripRequest L (Body r) = Ok body
    /\ (run (GetTripsTripID L r' tripID) (run (PutTripsTripID L r tripID) w).1.2).1.1
       = Some (spec.JSON200Response
                 (spec.GetTripDetailsResponse
                    (spec.mkTripObj (spec.utr_Destination body) (spec.utr_EndsAt body)
                                    (uuid_String L (trip_ID trip))
                                    (trip_IsConfirmed trip)
                                    (spec.utr_StartsAt body)))).
Proof.
  intros (id & trip & body & Hparse & Hget & Htrip & Hbody & Hvalid & Hupd & ->)
         %PutTripsTripID_succeeded.
  exists id, trip, body. do 3 (split; [done|]). cbn [fst snd].
  rewrite run_GetTripsTripID, Hparse.
  change (store.unreachable (pool (with_trips w _))) with (store.unreachable (pool w)).
  rewrite Hget.
  change (trips_of (with_trips w (<[id:=updated_trip body trip]> (trips_of w))))
    with (<[id:=updated_trip body trip]> (trips_of w)).
  by rewrite lookup_insert_eq.
Qed.

End update_trip_facts.

(** ** Confirming a participant, creating an activity, and reading them *)
Section read_back.
Import pgstore api aggregation.
Context (L : Libs).

(** What a [PatchParticipantsParticipantIDConfirm] that answers 204 has
    gone through. *)
Lemma PatchParticipantsParticipantIDConfirm_succeeded r participantID w :
  (run (PatchParticipantsParticipantIDConfirm L r participantID) w).1.1
  = Some no_content ->
  exists id row,
    uuid_Parse L participantID = Some id
    /\ participants_of w !! id = Some row
    /\ part_IsConfirmed row = false
    /\ run (PatchParticipantsParticipantIDConfirm L r participantID) w
       = (Some no_content,
          with_tables w
            (store.mkDB (trips_of w)
                        (<[id := store.confirmed row]> (participants_of w))
                        (activities_of w)),
          []).
Proof.
  rewrite run_PatchParticipantsParticipantIDConfirm.
  destruct (uuid_Parse L participantID) as [id|]; [|done].
  destruct (store.unreachable (pool w) store.QGetParticipant); [done|].
  destruct (participants_of w !! id) as [row|] eqn:Hrow; [|done].
  destruct (part_IsConfirmed row) eqn:Hconf; [done|].
  destruct (store.unreachable (pool w) store.QConfirmParticipant); [done|].
  intros _. by exists id, row.
Qed.

(** X12.  A [PatchParticipantsParticipantIDConfirm] that answers 204 has
    found the participant unconfirmed and leaves it with is_confirmed =
    true and the id, trip and address it had; every other participant,
    the trips, the activities, the log and the mail server are as before,
    and no goroutine is started. *)
Theorem confirm_participant_changes_only_is_confirmed (r : Request)
        (participantID : string) (w : World) :
  (run (PatchParticipantsParticipantIDConfirm L r participantID) w).1.1
  = Some no_content ->
  exists id row,
    uuid_Parse L participantID = Some id
    /\ participants_of w !! id = Some row
    /\ part_IsConfirmed row = false
    /\ let w' := (run (PatchParticipantsParticipantIDConfirm L r participantID) w).1.2 in
       participants_of w' !! id
       = Some (mkParticipant (part_ID row) (part_TripID row) (part_Email row) true)
       /\ (forall id', id' ≠ id -> participants_of w' !! id' = participants_of w !! id')
       /\ trips_of w' = trips_of w
       /\ activities_of w' = activities_of w
       /\ same_outside w w'
       /\ (run (PatchParticipantsParticipantIDConfirm L r participantID) w).2 = [].
Proof.
  intros (id & row & Hparse & Hrow & Hconf & ->)
         %PatchParticipantsParticipantIDConfirm_succeeded.
  exists id, row. do 3 (split; [done|]). cbn [fst snd].
  split; [apply lookup_insert_eq|].
  split; [intros id' Hne; by apply lookup_insert_ne|]. done.
Qed.

(** X13.  A participant that has been confirmed is listed as confirmed:
    after a [PatchParticipantsParticipantIDConfirm] that answered 204,
    [GetTripsTripIDParticipants] for the trip of the participant answers
    200 with an entry that has the address and the id of the participant,
    is_confirmed = true and no name. *)
Theorem confirmed_participant_is_listed (r r' : Request)
        (participantID tripID : string) (id tid : UUID)
        (row : Participant) (trip : Trip) (w : World) :
  uuid_Parse L participantID = Some id ->
  participants_of w !! id = Some row ->
  (run (PatchParticipantsParticipantIDConfirm L r participantID) w).1.1
  = Some no_content ->
  uuid_Parse L tripID = Some tid ->
  trips_of w !! tid = Some trip ->
  part_TripID row = trip_ID trip ->
  reachable w [store.QGetTrip; store.QGetParticipants] ->
  exists listed,
    (run (GetTripsTripIDParticipants L r' tripID)
         (run (PatchParticipantsParticipantIDConfirm L r participantID) w).1.2).1.1
    = Some (spec.JSON200Response (spec.GetTripParticipantsResponse listed))
    /\ spec.mkParticipantObj (part_Email row) (uuid_String L (part_ID row)) true None
       ∈ listed.
Proof.
  intros Hparse Hrow
         (id0 & row0 & Hparse0 & Hrow0 & Hconf & ->)
         %PatchParticipantsParticipantIDConfirm_succeeded
         Htid Htrip Hof (Hget & Hlist & _)%reachable_cons_2.
  assert (id0 = id) as -> by congruence.
  assert (row0 = row) as -> by congruence.
  cbn [fst snd]. rewrite run_GetTripsTripIDParticipants, Htid.
  change (store.unreachable (pool (with_tables w _))) with (store.unreachable (pool w)).
  rewrite Hget.
  change (trips_of (with_tables w _)) with (trips_of w). rewrite Htrip.
  unfold store.GetParticipants.
  change (store.unreachable (pool (with_tables w _))) with (store.unreachable (pool w)).
  rewrite Hlist. cbn [fst].
  eexists. split; [done|].
  apply (list_elem_of_fmap_2' (participant_obj L) _ (store.confirmed row)); [|done].
  apply list_elem_of_filter. split; [done|].
  apply (list_elem_of_fmap_2' snd _ (id, store.confirmed row)); [|done].
  apply elem_of_map_to_list. cbn. apply lookup_insert_eq.
Qed.

(** An activity of the input is listed in the bucket of its day. *)
Lemma listed_in_its_bucket (acts : list Activity) (a : Activity) :
  a ∈ acts ->
  exists b, b ∈ bucket (uuid_String L) acts <$> (differentDates_of acts).1
            /\ spec.outer_Date b = day a
            /\ inner_of (uuid_String L) a ∈ spec.outer_Activities b.
Proof.
  intros Ha. pose proof (differentDates_collected acts) as Hc.
  assert (day a ∈ da_Time <$> (differentDates_of acts).1) as Hd
    by (apply (col_days _ _ _ Hc); by exists a).
  apply list_elem_of_fmap in Hd as (item & Hitem & Hin).
  exists (bucket (uuid_String L) acts item).
  split; [by apply list_elem_of_fmap_2|]. split; [done|].
  rewrite (bucket_of_day (uuid_String L) acts item a) by done.
  apply list_elem_of_fmap_2, list_elem_of_filter. by split.
Qed.

(** X14.  An activity that has been created is listed under its day:
    after a [PostTripsTripIDActivities] that answered 201,
    [GetTripsTripIDActivities] for the same trip answers 200 with a
    bucket dated the day of the activity at 00:00:00 that holds an entry
    with the id answered, the title and the time of the request. *)
Theorem created_activity_is_listed (r r' : Request) (tripID : string)
        (body : spec.CreateActivityRequest) (w : World) :
  json_Decode_CreateActivityRequest L (Body r) = Ok body ->
  spec.Code <$> (run (PostTripsTripIDActivities L r tripID) w).1.1 = Some 201 ->
  store.unreachable (pool w) store.QGetTripActivities = false ->
  exists activityID buckets b,
    (run (PostTripsTripIDActivities L r tripID) w).1.1
    = Some (spec.JSON201Response
              (spec.CreateActivityResponse (uuid_String L activityID)))
    /\ (run (GetTripsTripIDActivities L r' tripID)
            (run (PostTripsTripIDActivities L r tripID) w).1.2).1.1
       = Some (spec.JSON200Response (spec.GetTripActivitiesResponse buckets))
    /\ b ∈ buckets
    /\ spec.outer_Date b = midnight (spec.car_OccursAt body)
    /\ spec.mkInner (uuid_String L activityID) (spec.car_OccursAt body)
                    (spec.car_Title body)
       ∈ spec.outer_Activities b.
Proof.
  intros Hbody Hcode Hlist. revert Hcode.
  rewrite run_PostTripsTripIDActivities, run_GetTripsTripIDActivities.
  destruct (uuid_Parse L tripID) as [id|]; [|done]. rewrite Hbody.
  destruct (validator_Struct_CreateActivityRequest L body) as [err|]; [done|].
  cbv zeta. unfold store.CreateActivity.
  destruct (store.unreachable (pool w) store.QCreateActivity); [done|].
  cbn [cap_TripID cap_Title cap_OccursAt].
  destruct (store.trips (store.tables (pool w)) !! id) as [trip|]; [|done].
  cbn [fst snd]. intros _.
  set (activityID := fresh (dom (store.activities (store.tables (pool w))))).
  set (created := mkActivity activityID id (spec.car_Title body)
                             (pgtype.mkTimestamp (spec.car_OccursAt body) true)).
  unfold store.GetTripActivities. cbn [pool with_new_pool store.unreachable].
  rewrite Hlist. cbn [fst store.tables store.activities].
  set (acts := filter _ _).
  assert (created ∈ acts) as Hin.
  { apply list_elem_of_filter. split; [done|].
    apply (list_elem_of_fmap_2' snd _ (activityID, created)); [|done].
    apply elem_of_map_to_list, lookup_insert_eq. }
  destruct (listed_in_its_bucket acts created Hin) as (b & Hb & Hdate & Hinner).
  exists activityID, (bucket (uuid_String L) acts <$> (differentDates_of acts).1), b.
  done.
Qed.

End read_back.

(** ** The Mailpit mailer *)
Section mailpit_facts.
Import pgstore.
Context (L : Libs).
#[local] Arguments perform : simpl never.

Lemma perform_GetTrip_result w id :
  perform (store_GetTrip id) w = ((store.GetTrip id (pool w)).1, w).
Proof.
  destruct w as [[db un] rf sn lg]. unfold perform, with_pool, store.GetTrip.
  simpl. destruct (un _); [done|]. by destruct (_ !! _).
Qed.

(** The mail to the owner of [trip]. *)
#[local] Abbreviation owner_msg trip :=
  (mkMsg "mailpit@journey.com" (trip_OwnerEmail trip) "Confirm your trip"
         (mailpit.owner_text L trip)).

(** Where [SendConfirmTripEmailToTripOwner] ends. *)
Lemma run_SendConfirmTripEmailToTripOwner w tripID :
  exists result sent,
    run (mailpit.SendConfirmTripEmailToTripOwner L (G:=Empty_set) tripID) w
    = (Some result, seen w sent, [])
    /\ ((sent = [] /\ result <> None)
        \/ exists trip,
            (store.GetTrip tripID (pool w)).1 = Ok trip
            /\ sent = [(owner_msg trip, bool_decide (result = None))]
            /\ result = match smtp_refuses w (owner_msg trip) with
                        | Some err =>
                            Some (Errorf "mailpit: failed to send email for SendConfirmTripEmailToTripOwner" err)
                        | None => None
                        end).
Proof.
  unfold mailpit.SendConfirmTripEmailToTripOwner. cbn.
  rewrite perform_GetTrip_result.
  destruct (store.GetTrip tripID (pool w)).1 as [trip|err] eqn:Hget.
  2:{ eexists _, []. rewrite seen_nil. split; [done|]. by left. }
  destruct (mail_Msg_From L _) as [err|].
  { eexists _, []. rewrite seen_nil. split; [done|]. by left. }
  destruct (mail_Msg_To L _) as [err|].
  { eexists _, []. rewrite seen_nil. split; [done|]. by left. }
  destruct (mail_NewClient L) as [err|].
  { eexists _, []. rewrite seen_nil. split; [done|]. by left. }
  cbn. rewrite perform_DialAndSend.
  destruct (smtp_refuses w _) as [err|] eqn:Hsmtp.
  - eexists _, _. split; [done|]. right. exists trip. by rewrite Hsmtp.
  - eexists _, _. split; [done|]. right. exists trip. by rewrite Hsmtp.
Qed.

(** The entry the mail server keeps of the message to [p]. *)
#[local] Abbreviation accepted trip :=
  (fun p : Participant => (mailpit.participant_msg L trip p, true)).

(** Where the loop over the participants ends. *)
Lemma run_send_each trip (ps : list Participant) w :
  exists result sent,
    run (mailpit.send_each L (G:=Empty_set) trip ps) w = (Some result, seen w sent, [])
    /\ sent.*1 `prefix_of` (mailpit.participant_msg L trip <$> ps)
    /\ (result = None <-> sent = accepted trip <$> ps)
    /\ (forall i entry, sent !! i = Some entry -> entry.2 = false ->
                        S i = length sent).
Proof.
  revert w. induction ps as [|p ps IH]; intros w.
  { exists None, []. rewrite seen_nil. repeat split; try done. }
  assert (Hstopped : forall err : error,
             exists result sent,
               (Some (Some err), w, @nil Empty_set) = (Some result, seen w sent, [])
               /\ sent.*1 `prefix_of` (mailpit.participant_msg L trip <$> p :: ps)
               /\ (result = None <-> sent = accepted trip <$> p :: ps)
               /\ (forall i entry, sent !! i = Some entry -> entry.2 = false ->
                                   S i = length sent)).
  { intros err. exists (Some err), []. rewrite seen_nil.
    split; [done|]. split; [apply prefix_nil|]. split; [done|]. done. }
  cbn [mailpit.send_each].
  destruct (mail_Msg_From L _) as [err|]; [apply Hstopped|].
  destruct (mail_Msg_To L _) as [err|]; [apply Hstopped|].
  destruct (mail_NewClient L) as [err|]; [apply Hstopped|].
  cbn. rewrite perform_DialAndSend.
  destruct (smtp_refuses w _) as [err|] eqn:Hsmtp.
  - eexists _, _. split; [done|]. cbn. split; [|split].
    + apply prefix_cons, prefix_nil.
    + done.
    + by intros [|i] entry.
  - rewrite bool_decide_eq_true_2 by done.
    destruct (IH (seen w [(mailpit.participant_msg L trip p, true)]))
      as (result & sent & -> & Hprefix & Hnil & Hlast).
    exists result, ((mailpit.participant_msg L trip p, true) :: sent).
    rewrite seen_seen. split; [done|]. cbn. split; [|split].
    + by apply prefix_cons.
    + rewrite Hnil. split; [by intros ->|by intros [= ->]].
    + intros [|i] entry; cbn.
      * by intros [= <-].
      * intros Hi Hno. f_equal. by apply (Hlast i entry).
Qed.

(** X15.  When the trip cannot be read, both functions of the mailer
    return an error without a mail attempted, and the error wraps the one
    of the store: [errors.Is(err, pgx.ErrNoRows)] holds of it exactly when
    it holds of the store's error. *)
Theorem mailer_wraps_the_lookup_error (w : World) (tripID : UUID) (err : error) :
  (store.GetTrip tripID (pool w)).1 = Err err ->
  exists wrapped wrapped',
    run (mailpit.SendConfirmTripEmailToTripOwner L (G:=Empty_set) tripID) w
    = (Some (Some wrapped), w, [])
    /\ run (mailpit.SendConfirmTripEmailToTripParticipants L (G:=Empty_set) tripID) w
       = (Some (Some wrapped'), w, [])
    /\ errors_Is_ErrNoRows wrapped = errors_Is_ErrNoRows err
    /\ errors_Is_ErrNoRows wrapped' = errors_Is_ErrNoRows err.
Proof.
  intros Hget.
  unfold mailpit.SendConfirmTripEmailToTripOwner,
    mailpit.SendConfirmTripEmailToTripParticipants.
  cbn. rewrite perform_GetTrip_result, Hget. by eexists _, _.
Qed.

(** X16.  [SendConfirmTripEmailToTripOwner] always returns, leaves the
    tables and the log as they were, and hands the mail server at most
    one message: the one to the owner address of the trip, with the
    subject "Confirm your trip".  It returns [nil] exactly when the server
    has taken that message. *)
Theorem owner_gets_at_most_one_mail (w : World) (tripID : UUID) :
  exists result sent,
    run (mailpit.SendConfirmTripEmailToTripOwner L (G:=Empty_set) tripID) w
    = (Some result, seen w sent, [])
    /\ (result = None <-> exists msg, sent = [(msg, true)])
    /\ forall entry,
        entry ∈ sent ->
        sent = [entry]
        /\ exists trip,
            trips_of w !! tripID = Some trip
            /\ msg_From entry.1 = "mailpit@journey.com"
            /\ msg_To entry.1 = trip_OwnerEmail trip
            /\ msg_Subject entry.1 = "Confirm your trip"
            /\ msg_Body entry.1 = mailpit.owner_text L trip.
Proof.
  destruct (run_SendConfirmTripEmailToTripOwner w tripID)
    as (result & sent & Hrun & [[-> Hres]|(trip & Hget & -> & Hresult)]);
    exists result; eexists; (split; [exact Hrun|]).
  - split; [split; [done|by intros [? ?]]|]. by intros entry ?%elem_of_nil.
  - split.
    + split; [intros ->; by eexists|]. intros (msg & [= _ Hok]).
      by apply bool_decide_eq_true in Hok.
    + intros entry ->%list_elem_of_singleton. split; [done|]. exists trip.
      split; [|done]. revert Hget. unfold store.GetTrip, trips_of.
      destruct (store.unreachable _ _); [done|].
      destruct (_ !! _); [|done]. by intros [= ->].
Qed.

(** Where [SendConfirmTripEmailToTripParticipants] ends. *)
Lemma run_SendConfirmTripEmailToTripParticipants (w : World) (tripID : UUID) :
  exists result sent,
    run (mailpit.SendConfirmTripEmailToTripParticipants L (G:=Empty_set) tripID) w
    = (Some result, seen w sent, [])
    /\ (forall i entry, sent !! i = Some entry -> entry.2 = false ->
                        S i = length sent)
    /\ (result = None ->
        exists trip ps,
          (store.GetTrip tripID (pool w)).1 = Ok trip
          /\ (store.GetParticipants tripID (pool w)).1 = Ok ps)
    /\ forall trip ps,
        (store.GetTrip tripID (pool w)).1 = Ok trip ->
        (store.GetParticipants tripID (pool w)).1 = Ok ps ->
        sent.*1 `prefix_of` (mailpit.participant_msg L trip <$> ps)
        /\ (result = None <-> sent = accepted trip <$> ps).
Proof.
  unfold mailpit.SendConfirmTripEmailToTripParticipants. cbn.
  rewrite perform_GetTrip_result.
  destruct (store.GetTrip tripID (pool w)).1 as [trip|err] eqn:Hget.
  2:{ eexists _, []. rewrite seen_nil. split; [done|]. by repeat split. }
  cbn. rewrite perform_GetParticipants.
  destruct (store.GetParticipants tripID (pool w)).1 as [ps|err] eqn:Hlist.
  2:{ eexists _, []. rewrite seen_nil. split; [done|]. by repeat split. }
  destruct (run_send_each trip ps w) as (result & sent & -> & Hprefix & Hnil & Hlast).
  exists result, sent. split; [done|]. split; [done|]. split.
  - intros _. by exists trip, ps.
  - by intros ? ? [= <-] [= <-].
Qed.

(** The body of the two goroutines: the error of the mailer is logged. *)
Lemma run_logging (p : prog Empty_set (option error)) msg fields w result w' :
  run p w = (Some result, w', []) ->
  run (let! failed := p in
       match failed with
       | Some err => call (logger_Error msg err fields)
       | None => Return tt
       end) w
  = (Some tt,
     match result with Some err => logged w' msg err fields | None => w' end, []).
Proof. intros Hrun. rewrite run_bind, Hrun. by destruct result. Qed.

(** X17.  [SendConfirmTripEmailToTripParticipants] always returns and
    leaves the tables and the log as they were.  The messages the mail
    server has seen are those to the first participants of the trip, in
    the order of the store; only the last of them can have been refused;
    and [nil] is returned exactly when the trip and its participants were
    read and every participant has got a message the server took. *)
Theorem participants_are_mailed_in_order (w : World) (tripID : UUID) :
  let out :=
    run (mailpit.SendConfirmTripEmailToTripParticipants L (G:=Empty_set) tripID) w in
  exists result sent,
    out.1.1 = Some result
    /\ pool out.1.2 = pool w
    /\ zap_log out.1.2 = zap_log w
    /\ smtp_seen out.1.2 = smtp_seen w ++ sent
    /\ (forall i entry, sent !! i = Some entry -> entry.2 = false ->
                        S i = length sent)
    /\ (result = None ->
        exists trip ps,
          (store.GetTrip tripID (pool w)).1 = Ok trip
          /\ (store.GetParticipants tripID (pool w)).1 = Ok ps)
    /\ forall trip ps,
        (store.GetTrip tripID (pool w)).1 = Ok trip ->
        (store.GetParticipants tripID (pool w)).1 = Ok ps ->
        sent.*1 `prefix_of` (mailpit.participant_msg L trip <$> ps)
        /\ (result = None
            <-> sent = (fun p => (mailpit.participant_msg L trip p, true)) <$> ps).
Proof.
  destruct (run_SendConfirmTripEmailToTripParticipants w tripID)
    as (result & sent & Hrun & Hlast & Hread & Hsent).
  cbv zeta. rewrite Hrun. by exists result, sent.
Qed.

End mailpit_facts.

(** ** A request served with the Mailpit mailer *)
Section served.
Import pgstore api exec.
Context (L : Libs).
#[local] Arguments perform : simpl never.
#[local] Abbreviation mailpit_api := (NewAPI (NewMailpit L)).

(** What a [GetTripsTripIDConfirm] that answers 204 has gone through. *)
Lemma GetTripsTripIDConfirm_succeeded a r tripID w :
  (run (GetTripsTripIDConfirm L a r tripID) w).1.1 = Some no_content ->
  exists id trip,
    uuid_Parse L tripID = Some id
    /\ store.unreachable (pool w) store.QGetTrip = false
    /\ trips_of w !! id = Some trip
    /\ run (GetTripsTripIDConfirm L a r tripID) w
       = (Some no_content,
          with_trips w (<[id := confirmed_trip trip]> (trips_of w)),
          [go_GetTripsTripIDConfirm a id tripID]).
Proof.
  rewrite run_GetTripsTripIDConfirm.
  destruct (uuid_Parse L tripID) as [id|]; [|done].
  destruct (store.unreachable (pool w) store.QGetTrip) eqn:Hget; [done|].
  destruct (trips_of w !! id) as [trip|] eqn:Htrip; [|done].
  destruct (trip_IsConfirmed trip); [done|].
  destruct (store.unreachable (pool w) store.QUpdateTrip); [done|].
  intros _. by exists id, trip.
Qed.

(** X18.  A confirmation of a trip served with the Mailpit mailer: the
    answer is 204 whatever becomes of the mails, and the goroutine leaves
    the tables as the handler left them.  Either every participant of the
    trip has got a message that the server took, in the order of the
    store, and nothing is logged; or exactly one entry "Failed to send
    email on GetTripsTripIDConfirm" is logged, with the trip id as it came
    in the path.  Of the messages the server has seen only the last can
    have been refused. *)
Theorem served_confirmation_mails_or_logs (r : Request) (tripID : string)
        (w : World) :
  (run (GetTripsTripIDConfirm L mailpit_api r tripID) w).1.1 = Some no_content ->
  let w1 := (run (GetTripsTripIDConfirm L mailpit_api r tripID) w).1.2 in
  let w2 := (serve (GetTripsTripIDConfirm L mailpit_api r tripID) w).2 in
  (serve (GetTripsTripIDConfirm L mailpit_api r tripID) w).1 = Some no_content
  /\ pool w2 = pool w1
  /\ exists sent,
      smtp_seen w2 = smtp_seen w ++ sent
      /\ (forall i entry, sent !! i = Some entry -> entry.2 = false ->
                          S i = length sent)
      /\ ((zap_log w2 = zap_log w
           /\ exists id trip ps,
               uuid_Parse L tripID = Some id
               /\ trips_of w1 !! id = Some trip
               /\ (store.GetParticipants id (pool w1)).1 = Ok ps
               /\ sent = (fun p => (mailpit.participant_msg L trip p, true)) <$> ps)
          \/ exists err,
              zap_log w2
              = zap_log w ++ [mkLogEntry "Failed to send email on GetTripsTripIDConfirm"
                                         err [("trip_id", tripID)]]).
Proof.
  intros (id & trip & Hparse & Hget & Htrip & Hrun)%GetTripsTripIDConfirm_succeeded.
  unfold serve. rewrite Hrun. cbn [fst snd run_routines].
  set (w1 := with_trips w _).
  assert (Hnew : (store.GetTrip id (pool w1)).1 = Ok (confirmed_trip trip)).
  { unfold store.GetTrip.
    change (store.unreachable (pool w1)) with (store.unreachable (pool w)).
    rewrite Hget.
    change (store.trips (store.tables (pool w1)))
      with (<[id := confirmed_trip trip]> (trips_of w)).
    by rewrite lookup_insert_eq. }
  destruct (run_SendConfirmTripEmailToTripParticipants L w1 id)
    as (result & sent & Hsend & Hlast & Hread & Hsent).
  unfold go_GetTripsTripIDConfirm. cbn [api_mailer NewAPI NewMailpit
                                        SendConfirmTripEmailToTripParticipants].
  rewrite (run_logging _ _ _ _ _ _ Hsend). cbn [fst snd].
  split; [done|]. split; [by destruct result|]. exists sent.
  split; [by destruct result|]. split; [done|].
  destruct result as [err|].
  - right. by eexists.
  - left. split; [done|].
    destruct (Hread eq_refl) as (trip' & ps & Htrip' & Hps).
    exists id, (confirmed_trip trip), ps. split; [done|].
    split; [apply lookup_insert_eq|]. split; [done|].
    by apply (Hsent _ _ Hnew Hps).
Qed.

(** X19.  A trip created with the Mailpit mailer: the answer is 201
    whatever becomes of the mail, and the goroutine leaves the tables as
    the handler left them.  Either the server has taken one message, to
    the owner address of the request, and nothing is logged; or exactly
    one entry "Failed to send email on PostTrips" is logged, with the id
    answered and the owner address, and the server has seen no message or
    the one it refused. *)
Theorem served_creation_mails_or_logs (r : Request) (w : World) :
  spec.Code <$> (run (PostTrips L mailpit_api r) w).1.1 = Some 201 ->
  let w1 := (run (PostTrips L mailpit_api r) w).1.2 in
  let w2 := (serve (PostTrips L mailpit_api r) w).2 in
  exists tripID body,
    json_Decode_CreateTripRequest L (Body r) = Ok body
    /\ (serve (PostTrips L mailpit_api r) w).1
       = Some (spec.JSON201Response (spec.CreateTripResponse (uuid_String L tripID)))
    /\ pool w2 = pool w1
    /\ exists sent,
        smtp_seen w2 = smtp_seen w ++ sent
        /\ ((zap_log w2 = zap_log w
             /\ exists msg, sent = [(msg, true)]
                            /\ msg_To msg = spec.ctr_OwnerEmail body)
            \/ (exists err,
                   zap_log w2
                   = zap_log w ++ [mkLogEntry "Failed to send email on PostTrips" err
                                              [("trip_id", uuid_String L tripID);
                                               ("owner_email",
                                                spec.ctr_OwnerEmail body)]])
               /\ (sent = [] \/ exists msg, sent = [(msg, false)])).
Proof.
  unfold serve. rewrite run_PostTrips.
  destruct (json_Decode_CreateTripRequest L (Body r)) as [body|err]; [|done].
  destruct (validator_Struct_CreateTripRequest L body) as [err|]; [done|].
  cbv zeta.
  destruct (store.CreateTrip body (pool w)).1 as [tripID|err] eqn:Hcreate; [|done].
  intros _. exists tripID, body. cbn [fst snd run_routines].
  set (w1 := with_new_pool w _).
  destruct (run_SendConfirmTripEmailToTripOwner L w1 tripID)
    as (result & sent & Hsend & Hsent).
  unfold go_PostTrips. cbn [api_mailer NewAPI NewMailpit
                            SendConfirmTripEmailToTripOwner].
  rewrite (run_logging _ _ _ _ _ _ Hsend). cbn [fst snd].
  split; [done|]. split; [done|]. split; [by destruct result|]. exists sent.
  split; [by destruct result|].
  assert (Howner : forall trip,
             (store.GetTrip tripID (pool w1)).1 = Ok trip ->
             trip_OwnerEmail trip = spec.ctr_OwnerEmail body).
  { revert Hcreate. unfold w1, store.CreateTrip, store.GetTrip.
    destruct (store.unreachable (pool w) store.QCreateTrip); [done|].
    cbn. intros [= <-] trip.
    destruct (store.unreachable (pool w) store.QGetTrip); [done|].
    rewrite lookup_insert_eq. by intros [= <-]. }
  destruct result as [err|].
  - right. split; [by eexists|].
    destruct Hsent as [[-> _]|(trip & _ & -> & _)]; [by left|right]. by eexists.
  - left. split; [done|].
    destruct Hsent as [[_ Hres]|(trip & Hget & -> & _)]; [done|].
    eexists. split; [done|]. cbn. by apply Howner.
Qed.

End served.

(** ** An update that overlaps a confirmation *)
Section overlap.
Import pgstore api exec.
Context (L : Libs).
#[local] Arguments perform : simpl never.

#[local] Ltac stepped :=
  cbn [interleave lookup list_lookup thread_step step bind call
       insert list_insert fmap list_fmap app].

(** X20.  [PutTripsTripID] writes the is_confirmed it has read.  When an
    update has read a trip that is not confirmed, and a confirmation of
    the same trip runs to its end before the update writes, both are
    answered 204 and the trip is left unconfirmed, with the destination
    and the dates of the update. *)
Theorem a_late_update_undoes_a_confirmation (m : mailer) (r r' : Request)
        (tripID : string) (id : UUID) (trip : Trip)
        (body : spec.UpdateTripRequest) (w : World) :
  uuid_Parse L tripID = Some id ->
  reachable w [store.QGetTrip; store.QUpdateTrip] ->
  trips_of w !! id = Some trip ->
  trip_IsConfirmed trip = false ->
  json_Decode_UpdateTripRequest L (Body r) = Ok body ->
  validator_Struct_UpdateTripRequest L body = None ->
  let threads := [Handler (PutTripsTripID L r tripID);
                  Handler (GetTripsTripIDConfirm L (NewAPI m) r' tripID)] in
  let confirmed := interleave [0; 1; 1; 1]%nat threads w in
  let out := interleave [0; 1; 1; 1; 0]%nat threads w in
  response (confirmed.1 !! 1%nat) = Some no_content
  /\ trip_IsConfirmed <$> trips_of confirmed.2 !! id = Some true
  /\ response (out.1 !! 0%nat) = Some no_content
  /\ response (out.1 !! 1%nat) = Some no_content
  /\ trips_of out.2 !! id = Some (updated_trip body trip)
  /\ trip_IsConfirmed <$> trips_of out.2 !! id = Some false.
Proof.
  intros Hparse (Hget & Hupd & _)%reachable_cons_2 Htrip Hconf Hbody Hvalid
         threads confirmed out.
  assert (Hout : out = interleave [0%nat] confirmed.1 confirmed.2)
    by apply (interleave_app [0; 1; 1; 1]%nat [0%nat]).
  clearbody out. subst out confirmed threads.
  unfold PutTripsTripID, GetTripsTripIDConfirm. rewrite Hparse, Hbody, Hvalid.
  cbn [interleave lookup list_lookup thread_step step bind call].
  rewrite perform_GetTrip, Hget, Htrip. stepped.
  rewrite perform_GetTrip, Hget, Htrip, Hconf. stepped.
  rewrite perform_UpdateTrip. cbn [utp_ID]. rewrite Hupd, Htrip. stepped.
  cbn [fst snd]. stepped.
  rewrite perform_UpdateTrip. cbn [utp_ID].
  change (store.unreachable (pool (with_tables w _)))
    with (store.unreachable (pool w)).
  rewrite Hupd.
  change (trips_of (with_tables w ?db)) with (store.trips db).
  cbn [store.trips]. rewrite lookup_insert_eq. stepped.
  cbn [fst snd lookup list_lookup response].
  change (trips_of (with_tables ?w' ?db)) with (store.trips db).
  cbn [store.trips]. rewrite !lookup_insert_eq.
  unfold store.replace_fields, updated_trip. cbn. by rewrite Hconf.
Qed.

End overlap.

(** ** The middleware of the generated server *)
Section middleware_facts.
Import pgstore api server.
Context (L : Libs) (a : API).
Variable runtime_BindStyledParameter : string -> string -> result string.
Variable ErrorHandlerFunc : InvalidParamFormatError -> list Write.

#[local] Abbreviation wrapper :=
  (ServerInterfaceWrapper L a runtime_BindStyledParameter ErrorHandlerFunc).

(** A middleware function whose parameter is bound, or that has none,
    goes on with the handler. *)
Lemma wrapper_bound op r dest :
  (forall value, path_id op = Some value ->
                 runtime_BindStyledParameter (param_name op) value = Ok dest) ->
  wrapper op r = respond (handle L a (with_param op dest) r).
Proof.
  intros Hbind.
  destruct op; cbn [ServerInterfaceWrapper with_param handle]; try done;
    unfold bound; pose proof (Hbind _ eq_refl) as H; cbn in H; by rewrite H.
Qed.

(** The answers without a body are those with the code 204. *)
Lemma handle_body op r w resp :
  (run (handle L a op r) w).1.1 = Some resp ->
  spec.body resp = spec.Nil <-> spec.Code resp = 204.
Proof.
  destruct op as [participantID| | |tripID|tripID|tripID|tripID|tripID
                  |tripID|tripID|tripID|tripID]; cbn [handle]; try done.
  - rewrite run_PatchParticipantsParticipantIDConfirm.
    repeat case_match; by intros [= <-].
  - rewrite run_PostTrips. cbv zeta. repeat case_match; by intros [= <-].
  - rewrite run_GetTrips. repeat case_match; by intros [= <-].
  - rewrite run_GetTripsTripID. repeat case_match; by intros [= <-].
  - rewrite run_PutTripsTripID. repeat case_match; by intros [= <-].
  - rewrite run_GetTripsTripIDActivities. repeat case_match; by intros [= <-].
  - rewrite run_PostTripsTripIDActivities. cbv zeta.
    repeat case_match; by intros [= <-].
  - rewrite run_GetTripsTripIDConfirm. repeat case_match; by intros [= <-].
  - rewrite run_GetTripsTripIDParticipants. repeat case_match; by intros [= <-].
Qed.

(** X21.  A path parameter that does not bind never reaches the handler:
    the middleware calls the error handler with an
    [InvalidParamFormatError] that names the parameter, "participantId" on
    the participant route and "tripId" on the trip routes, and returns
    with the world as it was; so do the routes whose handler would panic.
    The default error handler answers 400 with "invalid format for
    parameter", the name and the error of the binding. *)
Theorem an_unbound_parameter_skips_the_handler (op : Operation) (r : Request)
        (w : World) (value : string) (err : error) :
  path_id op = Some value ->
  runtime_BindStyledParameter (param_name op) value = Err err ->
  run (wrapper op r) w
  = (Some (ErrorHandlerFunc (mkInvalidParamFormatError err (param_name op))), w, [])
  /\ default_ErrorHandlerFunc (mkInvalidParamFormatError err (param_name op))
     = [http_Error ("invalid format for parameter " +:+ param_name op +:+ ": "
                    +:+ Error err) 400].
Proof.
  intros Hid Hbind. split; [|done].
  destruct op; try done; injection Hid as ->;
    cbn [ServerInterfaceWrapper param_name] in *; unfold bound; by rewrite Hbind.
Qed.

(** X22.  Every answer is written once.  When the path parameter binds
    (or the route has none) and the handler is written, the middleware
    makes exactly one write for the response of the handler: the bare
    status for a 204, which has no body, and [render.Render] with the
    response for every other answer; the world and the goroutines are
    those the handler leaves. *)
Theorem every_answer_is_written_once (op : Operation) (r : Request) (w : World)
        (dest : string) :
  implemented op = true ->
  (forall value, path_id op = Some value ->
                 runtime_BindStyledParameter (param_name op) value = Ok dest) ->
  let out := run (handle L a (with_param op dest) r) w in
  exists resp,
    out.1.1 = Some resp
    /\ known_code (spec.Code resp)
    /\ run (wrapper op r) w
       = (Some [if decide (spec.Code resp = 204) then WriteHeader 204
                else render_Render resp], out.1.2, out.2).
Proof.
  intros Himpl Hbind out.
  assert (Himpl' : implemented (with_param op dest) = true) by by destruct op.
  pose proof (handle_body (with_param op dest) r w) as Hbody.
  pose proof (handlers_outcome_code L a (with_param op dest) r w Himpl')
    as (resp & Hresp & Hcode).
  specialize (Hbody resp Hresp).
  exists resp. split; [done|]. split; [done|].
  rewrite (wrapper_bound op r dest Hbind). unfold respond.
  rewrite run_bind. subst out. revert Hresp.
  destruct (run (handle L a (with_param op dest) r) w) as [[res w'] gs].
  cbn [fst snd]. intros ->.
  destruct (decide (spec.Code resp = 204)) as [H204|H204].
  - rewrite (proj2 Hbody H204). cbn. by rewrite H204, app_nil_r.
  - destruct (spec.body resp) eqn:Hb; [by destruct H204; apply Hbody|..];
      cbn; by rewrite app_nil_r.
Qed.

End middleware_facts.

(** ** The further properties on the sample data *)
Section more_samples.
Import pgstore api.
#[local] Abbreviation mailpit_api := (NewAPI (NewMailpit sample.libs)).

(** "next summer" is no id of a trip. *)
Lemma malformed_id_is_refused_witness :
  run (handle sample.libs mailpit_api (OpPutTripsTripID "next summer")
              (mkRequest "rio")) sample.world
  = (Some (spec.JSON400Response "Invalid trip ID"), sample.world, []).
Proof.
  exact (malformed_id_is_refused sample.libs mailpit_api
           (OpPutTripsTripID "next summer") (mkRequest "rio") sample.world
           "next summer" eq_refl eq_refl eq_refl).
Defined.

(** No trip has the id 9. *)
Lemma a_refusal_writes_nothing_witness :
  let out := run (handle sample.libs mailpit_api (OpGetTripsTripID "id-9")
                         (mkRequest "")) sample.world in
  pool out.1.2 = pool sample.world /\ out.2 = []
  /\ smtp_seen out.1.2 = smtp_seen sample.world.
Proof.
  exact (a_refusal_writes_nothing sample.libs mailpit_api (OpGetTripsTripID "id-9")
           (mkRequest "") sample.world eq_refl).
Defined.

(** The trip to Rio, two days longer. *)
Lemma update_replaces_destination_and_dates_witness :
  trips_of (run (PutTripsTripID sample.libs (mkRequest "rio") "id-1")
                sample.world).1.2 !! 1%N
  = Some (mkTrip 1 "Rio de Janeiro" "ana@x.com" "Ana" false
                 (pgtype.mkTimestamp (time.mkTime 2024 6 2 0 0 0 0) true)
                 (pgtype.mkTimestamp (time.mkTime 2024 6 12 0 0 0 0) true)).
Proof.
  destruct (update_replaces_destination_and_dates sample.libs (mkRequest "rio")
              "id-1" sample.world eq_refl)
    as (id & trip & body & Hparse & Htrip & Hbody & Hnew & _).
  injection Hparse as <-. injection Htrip as <-. injection Hbody as <-.
  exact Hnew.
Defined.

Lemma update_is_idempotent_witness :
  let w' := (run (PutTripsTripID sample.libs (mkRequest "rio") "id-1")
                 sample.world).1.2 in
  run (PutTripsTripID sample.libs (mkRequest "rio") "id-1") w'
  = (Some no_content, w', []).
Proof.
  exact (update_is_idempotent sample.libs (mkRequest "rio") "id-1" sample.world
           eq_refl).
Defined.

Lemma updated_trip_is_read_back_witness :
  (run (GetTripsTripID sample.libs (mkRequest "") "id-1")
       (run (PutTripsTripID sample.libs (mkRequest "rio") "id-1")
            sample.world).1.2).1.1
  = Some (spec.JSON200Response
            (spec.GetTripDetailsResponse
               (spec.mkTripObj "Rio de Janeiro" (time.mkTime 2024 6 12 0 0 0 0)
                               "id-1" false (time.mkTime 2024 6 2 0 0 0 0)))).
Proof.
  destruct (updated_trip_is_read_back sample.libs (mkRequest "rio") (mkRequest "")
              "id-1" sample.world eq_refl)
    as (id & trip & body & Hparse & Htrip & Hbody & Hread).
  injection Hparse as <-. injection Htrip as <-. injection Hbody as <-.
  exact Hread.
Defined.

(** Bob confirms. *)
Lemma confirm_participant_changes_only_is_confirmed_witness :
  participants_of
    (run (PatchParticipantsParticipantIDConfirm sample.libs (mkRequest "") "id-2")
         sample.world).1.2 !! 2%N
  = Some (mkParticipant 2 1 "bob@x.com" true).
Proof.
  destruct (confirm_participant_changes_only_is_confirmed sample.libs (mkRequest "")
              "id-2" sample.world eq_refl)
    as (id & row & Hparse & Hrow & _ & Hnew & _).
  injection Hparse as <-. injection Hrow as <-. exact Hnew.
Defined.

(** Bob, once confirmed, is listed as confirmed for the trip to Rio. *)
Lemma confirmed_participant_is_listed_witness :
  exists listed,
    (run (GetTripsTripIDParticipants sample.libs (mkRequest "") "id-1")
         (run (PatchParticipantsParticipantIDConfirm sample.libs (mkRequest "") "id-2")
              sample.world).1.2).1.1
    = Some (spec.JSON200Response (spec.GetTripParticipantsResponse listed))
    /\ spec.mkParticipantObj "bob@x.com" "id-2" true None ∈ listed.
Proof.
  exact (confirmed_participant_is_listed sample.libs (mkRequest "") (mkRequest "")
           "id-2" "id-1" 2%N 1%N sample.bob sample.rio sample.world
           eq_refl eq_refl eq_refl eq_refl eq_refl eq_refl (sample_reachable _)).
Defined.

(** A morning at the beach in Rio. *)
Lemma created_activity_is_listed_witness :
  exists activityID buckets b,
    (run (PostTripsTripIDActivities sample.libs (mkRequest "beach") "id-1")
         sample.world).1.1
    = Some (spec.JSON201Response
              (spec.CreateActivityResponse (uuid_String sample.libs activityID)))
    /\ (run (GetTripsTripIDActivities sample.libs (mkRequest "") "id-1")
            (run (PostTripsTripIDActivities sample.libs (mkRequest "beach") "id-1")
                 sample.world).1.2).1.1
       = Some (spec.JSON200Response (spec.GetTripActivitiesResponse buckets))
    /\ b ∈ buckets
    /\ spec.outer_Date b = time.mkTime 2024 6 3 0 0 0 0
    /\ spec.mkInner (uuid_String sample.libs activityID)
                    (time.mkTime 2024 6 3 9 0 0 0) "Beach"
       ∈ spec.outer_Activities b.
Proof.
  exact (created_activity_is_listed sample.libs (mkRequest "beach") (mkRequest "")
           "id-1" sample.beach sample.world eq_refl eq_refl eq_refl).
Defined.

(** No trip has the id 9, and the mailer says so. *)
Lemma mailer_wraps_the_lookup_error_witness :
  exists wrapped wrapped',
    run (mailpit.SendConfirmTripEmailToTripOwner sample.libs (G:=Empty_set) 9%N)
        sample.world
    = (Some (Some wrapped), sample.world, [])
    /\ run (mailpit.SendConfirmTripEmailToTripParticipants sample.libs
              (G:=Empty_set) 9%N) sample.world
       = (Some (Some wrapped'), sample.world, [])
    /\ errors_Is_ErrNoRows wrapped = true
    /\ errors_Is_ErrNoRows wrapped' = true.
Proof.
  exact (mailer_wraps_the_lookup_error sample.libs sample.world 9%N ErrNoRows
           eq_refl).
Defined.

(** The trip to Rio confirmed, and Bob and Ana told. *)
Lemma served_confirmation_mails_or_logs_witness :
  (exec.serve (GetTripsTripIDConfirm sample.libs mailpit_api (mkRequest "") "id-1")
              sample.world).1
  = Some no_content.
Proof.
  exact (proj1 (served_confirmation_mails_or_logs sample.libs (mkRequest "") "id-1"
                  sample.world eq_refl)).
Defined.

(** A second trip to Rio created, and Ana told. *)
Lemma served_creation_mails_or_logs_witness :
  exists tripID body,
    json_Decode_CreateTripRequest sample.libs "rio" = Ok body
    /\ (exec.serve (PostTrips sample.libs mailpit_api (mkRequest "rio"))
                   sample.world).1
       = Some (spec.JSON201Response
                 (spec.CreateTripResponse (uuid_String sample.libs tripID))).
Proof.
  destruct (served_creation_mails_or_logs sample.libs (mkRequest "rio") sample.world
              eq_refl)
    as (tripID & body & Hbody & Hanswer & _).
  by exists tripID, body.
Defined.

(** The trip to Rio, confirmed while its dates are being changed. *)
Lemma a_late_update_undoes_a_confirmation_witness :
  let threads :=
    [exec.Handler (PutTripsTripID sample.libs (mkRequest "rio") "id-1");
     exec.Handler (GetTripsTripIDConfirm sample.libs mailpit_api (mkRequest "")
                                         "id-1")] in
  let out := exec.interleave [0; 1; 1; 1; 0]%nat threads sample.world in
  exec.response (out.1 !! 1%nat) = Some no_content
  /\ trip_IsConfirmed <$> trips_of out.2 !! 1%N = Some false.
Proof.
  destruct (a_late_update_undoes_a_confirmation sample.libs (NewMailpit sample.libs)
              (mkRequest "rio") (mkRequest "") "id-1" 1%N sample.rio
              sample.rio_update sample.world
              eq_refl (sample_reachable _) eq_refl eq_refl eq_refl eq_refl)
    as (_ & _ & _ & Hanswer & _ & Hleft).
  by split.
Defined.

(** A binding that refuses the empty string. *)
Lemma an_unbound_parameter_skips_the_handler_witness :
  run (server.ServerInterfaceWrapper sample.libs mailpit_api
         (fun _ value => if String.eqb value "" then Err (ErrLib "empty value")
                         else Ok value)
         server.default_ErrorHandlerFunc (OpPostTripsTripIDLinks "") (mkRequest ""))
      sample.world
  = (Some [server.http_Error "invalid format for parameter tripId: empty value" 400],
     sample.world, []).
Proof.
  exact (proj1 (an_unbound_parameter_skips_the_handler sample.libs mailpit_api
                  (fun _ value => if String.eqb value "" then Err (ErrLib "empty value")
                                  else Ok value)
                  server.default_ErrorHandlerFunc (OpPostTripsTripIDLinks "")
                  (mkRequest "") sample.world "" (ErrLib "empty value")
                  eq_refl eq_refl)).
Defined.

(** The trip to Rio is rendered. *)
Lemma every_answer_is_written_once_witness :
  exists resp,
    run (server.ServerInterfaceWrapper sample.libs mailpit_api
           (fun _ value => Ok value) server.default_ErrorHandlerFunc
           (OpGetTripsTripID "id-1") (mkRequest "")) sample.world
    = (Some [server.render_Render resp], sample.world, [])
    /\ spec.Code resp = 200.
Proof.
  destruct (every_answer_is_written_once sample.libs mailpit_api
              (fun _ value => Ok value) server.default_ErrorHandlerFunc
              (OpGetTripsTripID "id-1") (mkRequest "") sample.world "id-1" eq_refl)
    as (resp & Hresp & _ & Hrun).
  { by intros value [= <-]. }
  injection Hresp as <-. by eexists.
Defined.

End more_samples.
